(** * EPUB translator: the translation pipeline of [translation.ts]

    A shallow embedding of the chunker, the block extractor, the applier
    and the job loop of [translateEpub], with the properties the
    specification states about them, and further properties of the text
    helpers, the manifest resolution and the runs of the job. *)

From Stdlib Require Import ZArith QArith Lia Lqa DecimalString.
From stdpp Require Import base strings list gmap.

Local Open Scope Z_scope.
Local Set Warnings "-register-all".

(** ** JavaScript strings

    A string is its sequence of UTF-16 code units; [s.length] is the
    length of that sequence. *)

Abbreviation jsstring := (list N).

Definition js (s : string) : jsstring :=
  map Ascii.N_of_ascii (String.list_ascii_of_string s).
Arguments js s%_string.

Definition strlen (s : jsstring) : Z := Z.of_nat (length s).

(** ** JavaScript numbers

    The chunker only compares numbers, so a number is kept as what the
    comparisons see: NaN, an infinity, or the exact rational value of a
    finite double. *)

Inductive number :=
| NaN
| PosInfinity
| NegInfinity
| Finite (q : Q).

Definition ofZ (z : Z) : number := Finite (inject_Z z).

Definition Number_isFinite (x : number) : bool :=
  match x with Finite _ => true | _ => false end.

(** [x < y]; every comparison with NaN is false. *)
Definition num_lt (x y : number) : bool :=
  match x, y with
  | NaN, _ | _, NaN => false
  | _, NegInfinity => false
  | NegInfinity, _ => true
  | PosInfinity, _ => false
  | Finite _, PosInfinity => true
  | Finite a, Finite b => negb (Qle_bool b a)
  end.

(** [x <= y]. *)
Definition num_le (x y : number) : bool :=
  match x, y with
  | NaN, _ | _, NaN => false
  | NegInfinity, _ => true
  | _, PosInfinity => true
  | _, NegInfinity => false
  | PosInfinity, Finite _ => false
  | Finite a, Finite b => Qle_bool a b
  end.

Definition num_gt (x y : number) : bool := num_lt y x.
Definition num_ge (x y : number) : bool := num_le y x.

(** ** The chunker (step 4 of [translateEpub]) *)

(** A DOM element is known by its identity (a JavaScript reference). *)
Definition DomElement := nat.
Bind Scope nat_scope with DomElement.

(** An entry of [filtered]. *)
Record Block := { node : DomElement; text : jsstring }.

Record Chunk := {
  nodes : list DomElement;
  texts : list jsstring;
  charCount : Z
}.

Definition MAX_CHARS_PER_CHUNK : Z := 20000.

Definition MAX_PARAS_PER_CHUNK (chunkSize : number) : number :=
  if Number_isFinite chunkSize && num_gt chunkSize (ofZ 0)
  then chunkSize else PosInfinity.

Definition emptyChunk : Chunk := {| nodes := []; texts := []; charCount := 0 |}.

Definition pushBlock (cur : Chunk) (b : Block) : Chunk :=
  {| nodes := nodes cur ++ [node b];
     texts := texts cur ++ [text b];
     charCount := charCount cur + (strlen (text b) + 2) |}.

(** One turn of the loop [for (let i = 0; i < filtered.length; i++)]; the
    state is [(chunks, cur)].  The character budget is the constant
    [MAX_CHARS_PER_CHUNK] in the source and a parameter here. *)
Definition chunkStep (maxChars : Z) (maxParas : number)
    (st : list Chunk * Chunk) (b : Block) : list Chunk * Chunk :=
  let '(chunks, cur) := st in
  let willExceedByChars :=
    (0 <? charCount cur) && (maxChars <? charCount cur + strlen (text b) + 2) in
  let willExceedByCount :=
    num_ge (ofZ (Z.of_nat (length (nodes cur)))) maxParas in
  let '(chunks, cur) :=
    if (willExceedByChars || willExceedByCount) && (0 <? Z.of_nat (length (nodes cur)))
    then (chunks ++ [cur], emptyChunk)
    else (chunks, cur) in
  let cur := pushBlock cur b in
  if maxChars <=? charCount cur
  then (chunks ++ [cur], emptyChunk)
  else (chunks, cur).

Definition chunkLoop (maxChars : Z) (maxParas : number)
    (filtered : list Block) (st : list Chunk * Chunk) : list Chunk * Chunk :=
  fold_left (chunkStep maxChars maxParas) filtered st.

(** The loop followed by the push of the tail chunk. *)
Definition chunkWith (maxChars : Z) (maxParas : number)
    (filtered : list Block) : list Chunk :=
  let '(chunks, cur) := chunkLoop maxChars maxParas filtered ([], emptyChunk) in
  if 0 <? Z.of_nat (length (nodes cur)) then chunks ++ [cur] else chunks.

Definition chunker (maxChars : Z) (chunkSize : number)
    (filtered : list Block) : list Chunk :=
  chunkWith maxChars (MAX_PARAS_PER_CHUNK chunkSize) filtered.

(** What [translateEpub] computes: the budget is the constant. *)
Definition makeChunks (chunkSize : number) (filtered : list Block) : list Chunk :=
  chunker MAX_CHARS_PER_CHUNK chunkSize filtered.

(** ** Regular expressions

    The regular expressions of the source, with the matching order of a
    backtracking matcher: the leftmost position first, at a position the
    first alternative first, repetitions greedy. *)

Inductive regex :=
| RChar (p : N -> bool)        (* one code unit of a class *)
| RSeq (r1 r2 : regex)
| RAlt (r1 r2 : regex)
| RPlus (r : regex)            (* r+ *)
| ROpt (r : regex)             (* r? *)
| REmpty
| RWordBoundary                (* \b *)
| RStart                       (* ^ *)
| REnd.                        (* $ *)

(** [\w] *)
Definition isWordChar (c : N) : bool :=
  ((48 <=? c) && (c <=? 57) || (65 <=? c) && (c <=? 90) ||
   (97 <=? c) && (c <=? 122) || (c =? 95))%N.

(** [\s], which is also what [trim] removes: white space and line
    terminators. *)
Definition isSpace (c : N) : bool :=
  ((9 <=? c) && (c <=? 13) || (c =? 32) || (c =? 160) || (c =? 5760) ||
   (8192 <=? c) && (c <=? 8202) || (c =? 8232) || (c =? 8233) ||
   (c =? 8239) || (c =? 8287) || (c =? 12288) || (c =? 65279))%N.

Definition isWordOpt (c : option N) : bool :=
  match c with Some c => isWordChar c | None => false end.

(** The repetition [r+], greedy: after a turn of the matcher [m] of [r],
    another turn first, and the rest of the pattern when that fails; a
    turn that consumed nothing is not repeated.  [fuel] bounds the turns:
    more than the length of [s] is enough. *)
Fixpoint plusLoop {A}
    (m : option N -> jsstring -> (option N -> jsstring -> option A) -> option A)
    (k : option N -> jsstring -> option A)
    (fuel : nat) (prev : option N) (s : jsstring) : option A :=
  match fuel with
  | O => None
  | S fuel' =>
      m prev s (fun prev' s' =>
        match (if (length s' <? length s)%nat
               then plusLoop m k fuel' prev' s' else None) with
        | Some a => Some a
        | None => k prev' s'
        end)
  end.

(** [rmatch r prev s k] matches [r] at the head of [s], [prev] being the
    code unit before it, and hands the rest to [k]; the first success in
    backtracking order is the answer. *)
Fixpoint rmatch {A} (r : regex) (prev : option N) (s : jsstring)
    (k : option N -> jsstring -> option A) : option A :=
  match r with
  | RChar p =>
      match s with
      | c :: s' => if p c then k (Some c) s' else None
      | [] => None
      end
  | RSeq r1 r2 => rmatch r1 prev s (fun prev' s' => rmatch r2 prev' s' k)
  | RAlt r1 r2 =>
      match rmatch r1 prev s k with
      | Some a => Some a
      | None => rmatch r2 prev s k
      end
  | RPlus r1 => plusLoop (rmatch r1) k (S (length s)) prev s
  | ROpt r1 =>
      match rmatch r1 prev s k with
      | Some a => Some a
      | None => k prev s
      end
  | REmpty => k prev s
  | RWordBoundary =>
      if xorb (isWordOpt prev) (isWordOpt (head s)) then k prev s else None
  | RStart => match prev with None => k prev s | Some _ => None end
  | REnd => match s with [] => k prev s | _ :: _ => None end
  end.

(** The length of the match of [r] at the head of [s]. *)
Definition matchLength (r : regex) (prev : option N) (s : jsstring) : option nat :=
  rmatch r prev s (fun _ rest => Some (length s - length rest)%nat).

(** [r.test(s)]: is there a match at some position of [s]. *)
Fixpoint testFrom (r : regex) (prev : option N) (s : jsstring) : bool :=
  match matchLength r prev s with
  | Some _ => true
  | None =>
      match s with
      | [] => false
      | c :: s' => testFrom r (Some c) s'
      end
  end.

Definition test (r : regex) (s : jsstring) : bool := testFrom r None s.

(** [s.replace(r, rep)] with the [g] flag.  [skip] counts the code units
    of the current match still to pass over. *)
Fixpoint replaceFrom (r : regex) (rep : jsstring) (skip : nat)
    (prev : option N) (s : jsstring) : jsstring :=
  match skip with
  | S skip' =>
      match s with
      | [] => []
      | c :: s' => replaceFrom r rep skip' (Some c) s'
      end
  | O =>
      match matchLength r prev s with
      | Some (S n) =>
          rep ++ match s with
                 | [] => []
                 | c :: s' => replaceFrom r rep n (Some c) s'
                 end
      | Some O =>
          rep ++ match s with
                 | [] => []
                 | c :: s' => c :: replaceFrom r rep O (Some c) s'
                 end
      | None =>
          match s with
          | [] => []
          | c :: s' => c :: replaceFrom r rep O (Some c) s'
          end
      end
  end.

Definition replaceAll (r : regex) (rep : jsstring) (s : jsstring) : jsstring :=
  replaceFrom r rep O None s.

(** Literals, with and without the [i] flag.  Under [i] an ASCII letter of
    the pattern matches its two ASCII cases and nothing else. *)
Definition chr (c : N) : regex := RChar (N.eqb c).

Definition isUpper (c : N) : bool := ((65 <=? c) && (c <=? 90))%N.
Definition isLower (c : N) : bool := ((97 <=? c) && (c <=? 122))%N.
Definition asciiUpper (c : N) : N := if isLower c then (c - 32)%N else c.

Definition chri (c : N) : regex :=
  RChar (fun x => (x <? 128)%N && (asciiUpper x =? asciiUpper c)%N).

Definition lit (s : jsstring) : regex := foldr (fun c r => RSeq (chr c) r) REmpty s.
Definition liti (s : jsstring) : regex := foldr (fun c r => RSeq (chri c) r) REmpty s.

Definition range (lo hi : N) : regex := RChar (fun x => (lo <=? x)%N && (x <=? hi)%N).

Fixpoint dropWhile {A} (p : A -> bool) (l : list A) : list A :=
  match l with
  | [] => []
  | x :: l' => if p x then dropWhile p l' else l
  end.

(** [s.trim()] *)
Definition trim (s : jsstring) : jsstring :=
  rev (dropWhile isSpace (rev (dropWhile isSpace s))).

(** [s.toLowerCase()], as far as a comparison with an ASCII string can
    tell: the ASCII capitals, the Kelvin sign (to k) and the dotted capital
    I (to i and a combining dot) are the only code units whose lower case
    has an ASCII code unit. *)
Definition lowerUnit (c : N) : jsstring :=
  if isUpper c then [(c + 32)%N]
  else if (c =? 8490)%N then [107%N]
  else if (c =? 304)%N then [105%N; 775%N]
  else [c].

Definition toLowerCase (s : jsstring) : jsstring := flat_map lowerUnit s.

(** ** The text helpers of [translation.ts] *)

Definition BILINGUAL_CLASS : jsstring := js "translated-bilingual".

(** [/\btranslated-bilingual\b/] *)
Definition re_bilingual : regex :=
  RSeq RWordBoundary (RSeq (lit BILINGUAL_CLASS) RWordBoundary).

(** [/\u00A0|&nbsp;|&#xa0;/g] *)
Definition re_nbsp : regex :=
  RAlt (chr 160) (RAlt (lit (js "&nbsp;")) (lit (js "&#xa0;"))).

(** [/\s+\n/g] *)
Definition re_space_newline : regex :=
  RSeq (RPlus (RChar isSpace)) (chr 10).

(** [/<\/?(p|div|h[1-6]|li|blockquote|ul|ol)>/gi] *)
Definition re_block_tag : regex :=
  RSeq (chr 60)
    (RSeq (ROpt (chr 47))
      (RSeq
        (RAlt (liti (js "p"))
        (RAlt (liti (js "div"))
        (RAlt (RSeq (chri 104) (range 49 54))
        (RAlt (liti (js "li"))
        (RAlt (liti (js "blockquote"))
        (RAlt (liti (js "ul"))
              (liti (js "ol"))))))))
        (chr 62))).

(** [/^h[1-6]$/] *)
Definition re_heading : regex :=
  RSeq RStart (RSeq (chr 104) (RSeq (range 49 54) REnd)).

Definition normalizeText (s : jsstring) : jsstring :=
  trim (replaceAll re_space_newline [10%N] (replaceAll re_nbsp [32%N] s)).

Definition stripBlockTags (html : jsstring) : jsstring :=
  trim (replaceAll re_space_newline [10%N] (replaceAll re_block_tag [] html)).

(** ** The document tree

    Elements and text nodes, as [domhandler] keeps them.  [I] is what an
    element is known by: nothing for markup that was just parsed, a
    [DomElement] identity once the markup is part of a document. *)

Inductive Tree (I : Type) : Type :=
| Element (id : I) (name : jsstring) (attribs : list (jsstring * jsstring))
    (children : list (Tree I))
| Text (data : jsstring).
Arguments Element {I} id name attribs children.
Arguments Text {I} data.

Abbreviation Markup := (Tree unit).
Abbreviation Node := (Tree DomElement).

(** A loaded document.  References to elements outlive their place in the
    tree: what [html()] removes from the tree is kept in [detached], where
    a reference still finds it. *)
Record Document := {
  docRoot : list Node;       (* the children of the root *)
  detached : list Node;      (* subtrees that left the tree *)
  nextId : DomElement        (* the identity the next new element gets *)
}.

Section Trees.
Context {I : Type}.

(** The element and the elements below it, in document order. *)
Fixpoint subElements (n : Tree I) : list (Tree I) :=
  match n with
  | Element _ _ _ cs => n :: flat_map subElements cs
  | Text _ => []
  end.

Definition elements (forest : list (Tree I)) : list (Tree I) :=
  flat_map subElements forest.

Definition childrenOf (n : Tree I) : list (Tree I) :=
  match n with Element _ _ _ cs => cs | Text _ => [] end.

Definition descendants (n : Tree I) : list (Tree I) := elements (childrenOf n).

Definition nameOf (n : Tree I) : jsstring :=
  match n with Element _ nm _ _ => nm | Text _ => [] end.

(** [$(el).text()] *)
Fixpoint textContent (n : Tree I) : jsstring :=
  match n with
  | Element _ _ _ cs => flat_map textContent cs
  | Text d => d
  end.

(** The first attribute of that name. *)
Fixpoint lookupAttr (a : list (jsstring * jsstring)) (name : jsstring) : option jsstring :=
  match a with
  | [] => None
  | (k, v) :: a' => if decide (k = name) then Some v else lookupAttr a' name
  end.

(** [$(el).attr(name)] *)
Definition attr (n : Tree I) (name : jsstring) : option jsstring :=
  match n with
  | Element _ _ a _ => lookupAttr a name
  | Text _ => None
  end.

(** Each element below, with the name of its parent element. *)
Fixpoint withParent (parent : option jsstring) (n : Tree I)
    : list (option jsstring * Tree I) :=
  match n with
  | Element _ nm _ cs => (parent, n) :: flat_map (withParent (Some nm)) cs
  | Text _ => []
  end.

(** The selector [parent > child], in document order. *)
Definition selectChild (parent child : jsstring) (forest : list (Tree I)) : list (Tree I) :=
  map snd
    (List.filter
       (fun pn => bool_decide (pn.1 = Some parent) && bool_decide (nameOf pn.2 = child))
       (flat_map (withParent None) forest)).

(** A type selector, in document order. *)
Definition selectTag (tag : jsstring) (forest : list (Tree I)) : list (Tree I) :=
  List.filter (fun n => bool_decide (nameOf n = tag)) (elements forest).
End Trees.

(** Markup becomes part of a document: its elements get identities, in
    document order, from [next] on. *)
Fixpoint adoptNode (next : DomElement) (m : Markup) : Node * DomElement :=
  match m with
  | Text d => (Text d, next)
  | Element _ nm a cs =>
      let '(cs', next') :=
        (fix adoptAll (next : DomElement) (l : list Markup) : list Node * DomElement :=
           match l with
           | [] => ([], next)
           | m' :: l' =>
               let '(n, nx) := adoptNode next m' in
               let '(ns, nx') := adoptAll nx l' in
               (n :: ns, nx')
           end) (S next) cs in
      (Element next nm a cs', next')
  end.

Fixpoint adopt (next : DomElement) (l : list Markup) : list Node * DomElement :=
  match l with
  | [] => ([], next)
  | m :: l' =>
      let '(n, nx) := adoptNode next m in
      let '(ns, nx') := adopt nx l' in
      (n :: ns, nx')
  end.

Definition idOf (n : Node) : option DomElement :=
  match n with Element i _ _ _ => Some i | Text _ => None end.

Definition hasId (id : DomElement) (n : Node) : bool :=
  match n with
  | Element i _ _ _ => bool_decide (i = id)
  | Text _ => false
  end.

(** The element a reference points to. *)
Definition findElement (forest : list Node) (id : DomElement) : option Node :=
  head (List.filter (hasId id) (elements forest)).

Definition getElement (doc : Document) (id : DomElement) : option Node :=
  findElement (docRoot doc ++ detached doc) id.

(** The element [target] gives way to [f] of itself; the rest of the tree
    stays. *)
Fixpoint rewriteNode (target : DomElement) (f : Node -> list Node) (n : Node) : list Node :=
  match n with
  | Text _ => [n]
  | Element i nm a cs =>
      if decide (i = target) then f n
      else [Element i nm a (flat_map (rewriteNode target f) cs)]
  end.

Definition rewriteForest (target : DomElement) (f : Node -> list Node)
    (forest : list Node) : list Node :=
  flat_map (rewriteNode target f) forest.

(** The same below [n] only: [n] itself has no parent to receive what [f]
    gives. *)
Definition rewriteBelow (target : DomElement) (f : Node -> list Node) (n : Node) : Node :=
  match n with
  | Text _ => n
  | Element i nm a cs =>
      if decide (i = target) then n
      else Element i nm a (rewriteForest target f cs)
  end.

Definition withChildren (cs : list Node) (n : Node) : Node :=
  match n with
  | Element i nm a _ => Element i nm a cs
  | Text _ => n
  end.

(** ** The part of [cheerio] the pipeline uses *)

Section Cheerio.
(** The markup parser ([htmlparser2] in XML mode). *)
Variable parse : jsstring -> list Markup.

(** [cheerio.load(content, { xmlMode: true })] *)
Definition load (content : jsstring) : Document :=
  let '(ns, next) := adopt 0%nat (parse content) in
  {| docRoot := ns; detached := []; nextId := next |}.

(** The nodes a markup string stands for, made part of [doc]. *)
Definition makeDom (doc : Document) (html : jsstring) : list Node * DomElement :=
  adopt (nextId doc) (parse html).

(** [$(node).append(html)] *)
Definition append (doc : Document) (node : DomElement) (html : jsstring) : Document :=
  let '(new, next) := makeDom doc html in
  let f := fun n => [withChildren (childrenOf n ++ new) n] in
  {| docRoot := rewriteForest node f (docRoot doc);
     detached := rewriteForest node f (detached doc);
     nextId := next |}.

(** [$(node).after(html)]; an element without a parent is left alone. *)
Definition after (doc : Document) (node : DomElement) (html : jsstring) : Document :=
  let '(new, next) := makeDom doc html in
  let f := fun n => n :: new in
  {| docRoot := rewriteForest node f (docRoot doc);
     detached := map (rewriteBelow node f) (detached doc);
     nextId := next |}.

(** [$(node).html(html)]; the children that were there leave the tree. *)
Definition setHtml (doc : Document) (node : DomElement) (html : jsstring) : Document :=
  let '(new, next) := makeDom doc html in
  let f := fun n => [withChildren new n] in
  let old := from_option childrenOf [] (getElement doc node) in
  {| docRoot := rewriteForest node f (docRoot doc);
     detached := rewriteForest node f (detached doc) ++ old;
     nextId := next |}.

(** ** The helpers of [translation.ts] *)

Definition BLOCK_SELECTOR : list jsstring :=
  [js "p"; js "h1"; js "h2"; js "h3"; js "h4"; js "h5"; js "h6"; js "li"; js "blockquote"].

(** Does the element match [BLOCK_SELECTOR]. *)
Definition isBlock {I} (n : Tree I) : bool :=
  match n with
  | Element _ nm _ _ => bool_decide (nm ∈ BLOCK_SELECTOR)
  | Text _ => false
  end.

Definition tagName (node : option Node) : jsstring :=
  match node with
  | Some (Element _ nm _ _) =>
      if bool_decide (nm = []) then [] else toLowerCase (toLowerCase nm)
  | _ => []
  end.

Definition selectLeafBlocks (doc : Document) : list Node :=
  let all := List.filter isBlock (elements (docRoot doc)) in
  let leaves :=
    List.filter
      (fun el =>
         let cls := default [] (attr el (js "class")) in
         if test re_bilingual cls then false
         else (length (List.filter isBlock (descendants el)) =? 0)%nat)
      all in
  leaves.

(** The template literal [<tag class="translated-bilingual">safe</tag>];
    34 is the double quote. *)
Definition bilingualMarkup (tag : jsstring) (safe : jsstring) : jsstring :=
  js "<" ++ tag ++ js " class=" ++ [34%N] ++ BILINGUAL_CLASS ++ [34%N] ++ js ">"
    ++ safe ++ js "</" ++ tag ++ js ">".

Definition insertBilingual (doc : Document) (node : DomElement) (translated : jsstring)
    : Document :=
  let t := tagName (getElement doc node) in
  let safe := stripBlockTags translated in
  if bool_decide (t = js "li") then
    append doc node (bilingualMarkup (js "div") safe)
  else if bool_decide (t = js "blockquote") then
    append doc node (bilingualMarkup (js "p") safe)
  else if test re_heading t then
    after doc node (bilingualMarkup (js "div") safe)
  else
    after doc node (bilingualMarkup (js "p") safe).

Definition replaceBlock (doc : Document) (node : DomElement) (translated : jsstring)
    : Document :=
  let safe := stripBlockTags translated in
  setHtml doc node safe.
End Cheerio.

(** ** A parser for element-and-text markup

    The tokenizer and tree builder of [htmlparser2] in XML mode, for
    markup made of tags, attributes and text: names keep their case, a
    closing tag closes the nearest open element of that name and is
    dropped when there is none, what is open at the end is closed.
    Entities, comments, declarations and CDATA are not recognised. *)

Module XmlParser.

Inductive token :=
| TkText (data : jsstring)
| TkOpen (name : jsstring) (attribs : list (jsstring * jsstring))
| TkSelfClosed (name : jsstring) (attribs : list (jsstring * jsstring))
| TkClose (name : jsstring).

Abbreviation attrlist := (list (jsstring * jsstring)).

Inductive state :=
| SText (acc : jsstring)
| SBeforeTagName
| SInTagName (acc : jsstring)
| SBeforeAttrName (name : jsstring) (attrs : attrlist)
| SInAttrName (name : jsstring) (attrs : attrlist) (acc : jsstring)
| SAfterAttrName (name : jsstring) (attrs : attrlist) (aname : jsstring)
| SBeforeAttrValue (name : jsstring) (attrs : attrlist) (aname : jsstring)
| SInAttrValue (quote : N) (name : jsstring) (attrs : attrlist) (aname acc : jsstring)
| SInAttrValueNq (name : jsstring) (attrs : attrlist) (aname acc : jsstring)
| SInSelfClosingTag (name : jsstring) (attrs : attrlist)
| SBeforeClosingTagName
| SInClosingTagName (acc : jsstring)
| SAfterClosingTagName
| SInSpecialComment.

Definition isWhitespace (c : N) : bool :=
  ((c =? 32) || (c =? 10) || (c =? 9) || (c =? 12) || (c =? 13))%N.

Definition isEndOfTagSection (c : N) : bool :=
  ((c =? 47) || (c =? 62))%N || isWhitespace c.

Definition textToken (acc : jsstring) : list token :=
  match acc with [] => [] | _ => [TkText acc] end.

Definition stateBeforeAttrName (name : jsstring) (attrs : attrlist) (c : N)
    : state * list token :=
  if (c =? 62)%N then (SText [], [TkOpen name attrs])
  else if (c =? 47)%N then (SInSelfClosingTag name attrs, [])
  else if isWhitespace c then (SBeforeAttrName name attrs, [])
  else (SInAttrName name attrs [c], []).

Definition stateAfterAttrName (name : jsstring) (attrs : attrlist) (aname : jsstring)
    (c : N) : state * list token :=
  if (c =? 61)%N then (SBeforeAttrValue name attrs aname, [])
  else if ((c =? 47) || (c =? 62))%N then
    stateBeforeAttrName name (attrs ++ [(aname, [])]) c
  else if isWhitespace c then (SAfterAttrName name attrs aname, [])
  else (SInAttrName name (attrs ++ [(aname, [])]) [c], []).

Definition step (st : state) (c : N) : state * list token :=
  match st with
  | SText acc =>
      if (c =? 60)%N then (SBeforeTagName, textToken acc)
      else (SText (acc ++ [c]), [])
  | SBeforeTagName =>
      if isEndOfTagSection c then
        if (c =? 47)%N then (SBeforeClosingTagName, [])
        else (SText [60%N; c], [])
      else (SInTagName [c], [])
  | SInTagName acc =>
      if isEndOfTagSection c then stateBeforeAttrName acc [] c
      else (SInTagName (acc ++ [c]), [])
  | SBeforeAttrName name attrs => stateBeforeAttrName name attrs c
  | SInAttrName name attrs acc =>
      if (c =? 61)%N || isEndOfTagSection c then stateAfterAttrName name attrs acc c
      else (SInAttrName name attrs (acc ++ [c]), [])
  | SAfterAttrName name attrs aname => stateAfterAttrName name attrs aname c
  | SBeforeAttrValue name attrs aname =>
      if ((c =? 34) || (c =? 39))%N then (SInAttrValue c name attrs aname [], [])
      else if isWhitespace c then (SBeforeAttrValue name attrs aname, [])
      else if (c =? 62)%N then stateBeforeAttrName name (attrs ++ [(aname, [])]) c
      else (SInAttrValueNq name attrs aname [c], [])
  | SInAttrValue quote name attrs aname acc =>
      if (c =? quote)%N then (SBeforeAttrName name (attrs ++ [(aname, acc)]), [])
      else (SInAttrValue quote name attrs aname (acc ++ [c]), [])
  | SInAttrValueNq name attrs aname acc =>
      if isWhitespace c || (c =? 62)%N
      then stateBeforeAttrName name (attrs ++ [(aname, acc)]) c
      else (SInAttrValueNq name attrs aname (acc ++ [c]), [])
  | SInSelfClosingTag name attrs =>
      if (c =? 62)%N then (SText [], [TkSelfClosed name attrs])
      else if isWhitespace c then (SInSelfClosingTag name attrs, [])
      else stateBeforeAttrName name attrs c
  | SBeforeClosingTagName =>
      if isWhitespace c then (SBeforeClosingTagName, [])
      else if (c =? 62)%N then (SText [], [])
      else if (c =? 47)%N then (SInSpecialComment, [])
      else (SInClosingTagName [c], [])
  | SInClosingTagName acc =>
      if (c =? 62)%N then (SText [], [TkClose acc])
      else if isWhitespace c then (SAfterClosingTagName, [TkClose acc])
      else (SInClosingTagName (acc ++ [c]), [])
  | SAfterClosingTagName =>
      if (c =? 62)%N then (SText [], []) else (SAfterClosingTagName, [])
  | SInSpecialComment =>
      if (c =? 62)%N then (SText [], []) else (SInSpecialComment, [])
  end.

(** At the end of the input the pending text is emitted, an unfinished
    tag is dropped. *)
Fixpoint tokenize (st : state) (s : jsstring) : list token :=
  match s with
  | [] => match st with SText acc => textToken acc | _ => [] end
  | c :: s' => let '(st', out) := step st c in out ++ tokenize st' s'
  end.

(** An open element: name, attributes, children so far. *)
Abbreviation frame := (jsstring * attrlist * list Markup)%type.

(** Text joins the text node before it. *)
Definition addText (data : jsstring) (cs : list Markup) : list Markup :=
  match rev cs with
  | Text d :: before => rev before ++ [Text (d ++ data)]
  | _ => cs ++ [Text data]
  end.

Definition addNode (n : Markup) (stack : list frame) (top : list Markup)
    : list frame * list Markup :=
  match stack with
  | (nm, a, cs) :: below => ((nm, a, cs ++ [n]) :: below, top)
  | [] => ([], top ++ [n])
  end.

Definition closeTop (stack : list frame) (top : list Markup)
    : list frame * list Markup :=
  match stack with
  | (nm, a, cs) :: below => addNode (Element () nm a cs) below top
  | [] => ([], top)
  end.

Fixpoint closeN (n : nat) (stack : list frame) (top : list Markup)
    : list frame * list Markup :=
  match n with
  | O => (stack, top)
  | S n' => let '(stack', top') := closeTop stack top in closeN n' stack' top'
  end.

(** The depth of the nearest open element called [name]. *)
Fixpoint indexOfOpen (name : jsstring) (stack : list frame) : option nat :=
  match stack with
  | [] => None
  | (nm, _, _) :: below =>
      if decide (nm = name) then Some O else S <$> indexOfOpen name below
  end.

Fixpoint build (toks : list token) (stack : list frame) (top : list Markup)
    : list Markup :=
  match toks with
  | [] => (closeN (length stack) stack top).2
  | TkText d :: toks' =>
      match stack with
      | (nm, a, cs) :: below => build toks' ((nm, a, addText d cs) :: below) top
      | [] => build toks' [] (addText d top)
      end
  | TkOpen nm a :: toks' => build toks' ((nm, a, []) :: stack) top
  | TkSelfClosed nm a :: toks' =>
      let '(stack', top') := addNode (Element () nm a []) stack top in
      build toks' stack' top'
  | TkClose nm :: toks' =>
      match indexOfOpen nm stack with
      | Some pos => let '(stack', top') := closeN (S pos) stack top in build toks' stack' top'
      | None => build toks' stack top
      end
  end.

Definition parseXml (s : jsstring) : list Markup :=
  build (tokenize (SText []) s) [] [].

End XmlParser.

(** The serializer for the same markup ([dom-serializer] in XML mode, for
    text and attribute values that need no escaping): an element without
    children is written self-closed. *)
Module XmlSerializer.

Definition renderAttribs (a : list (jsstring * jsstring)) : jsstring :=
  flat_map (fun kv => js " " ++ kv.1 ++ js "=" ++ [34%N] ++ kv.2 ++ [34%N]) a.

Fixpoint renderNode {I} (n : Tree I) : jsstring :=
  match n with
  | Text d => d
  | Element _ nm a [] => js "<" ++ nm ++ renderAttribs a ++ js "/>"
  | Element _ nm a cs =>
      js "<" ++ nm ++ renderAttribs a ++ js ">"
      ++ flat_map renderNode cs ++ js "</" ++ nm ++ js ">"
  end.

Definition renderXml {I} (forest : list (Tree I)) : jsstring :=
  flat_map renderNode forest.

End XmlSerializer.

(** ** The translation job *)

(** The archive ([JSZip]): entry name to content. *)
Abbreviation Archive := (gmap jsstring jsstring).

Inductive TranslationMode := replace | bilingual.

Inductive Role := system | user.

(** The request of one [openai.chat.completions.parse] call. *)
Record Request := {
  model : jsstring;
  messages : list (Role * jsstring)
}.

(** What can be thrown: an [Error] of [translateEpub] itself, the
    [TypeError] of reading [choices[0].message] when there is no choice, a
    failure of [cheerio.load], or whatever an awaited promise was rejected
    with. *)
Inductive Exception :=
| Error (message : jsstring)
| TypeError
| Rejection (reason : jsstring).

(** [message.parsed] is null or holds [translation_paragraphs]. *)
Record Message := { parsed : option (list jsstring) }.

Inductive Reply :=
| Rejects (e : Exception)
| Completion (choices : list Message).

Record Progress := {
  currentFile : jsstring;
  fileIndex : Z;
  totalFiles : Z;
  status : jsstring;
  translatedBlob : Archive;
  htmlContent : option jsstring
}.

(** The calls the job makes on what surrounds it. *)
Inductive Event :=
| SetStatus (status : jsstring)
| Translate (req : Request)
| WriteFile (path content : jsstring)
| OnProgress (p : Progress)
| AwaitPause.

(** A promise that is awaited resolves, is rejected, or stays pending. *)
Inductive Settled := Resolves | RejectsWith (e : Exception) | StaysPending.

Inductive Outcome (A : Type) : Type :=
| Returned (a : A)
| Thrown (e : Exception)
| Pending.
Arguments Returned {A} a.
Arguments Thrown {A} e.
Arguments Pending {A}.

(** The state of a running job: the archive, and how many service calls
    and pause promises it has awaited. *)
Record JobState := {
  zip : Archive;
  calls : nat;
  pauses : nat
}.

(** An asynchronous computation: from a state to an outcome, the state it
    leaves, and the calls it made. *)
Definition Job (A : Type) : Type := JobState -> Outcome A * JobState * list Event.

Definition ret {A} (a : A) : Job A := fun st => (Returned a, st, []).

Definition throw {A} (e : Exception) : Job A := fun st => (Thrown e, st, []).

Definition bind {A B} (m : Job A) (f : A -> Job B) : Job B :=
  fun st =>
    match m st with
    | (Returned a, st', ev) =>
        let '(r, st'', ev') := f a st' in (r, st'', ev ++ ev')
    | (Thrown e, st', ev) => (Thrown e, st', ev)
    | (Pending, st', ev) => (Pending, st', ev)
    end.

#[global] Instance job_ret : MRet Job := @ret.
#[global] Instance job_bind : MBind Job := fun A B f m => bind m f.

Definition emit (e : Event) : Job unit := fun st => (Returned (), st, [e]).

Definition setStatus (s : jsstring) : Job unit := emit (SetStatus s).

(** [await zip.file(path)?.async('string')] *)
Definition readFile (path : jsstring) : Job (option jsstring) :=
  fun st => (Returned (zip st !! path), st, []).

(** [zip.file(path, content)] *)
Definition writeFile (path content : jsstring) : Job unit :=
  fun st =>
    (Returned (),
     {| zip := <[path := content]> (zip st); calls := calls st; pauses := pauses st |},
     [WriteFile path content]).

(** [await zip.generateAsync({ type: 'blob' })] *)
Definition generateBlob : Job Archive := fun st => (Returned (zip st), st, []).

(** [for (const x of l) body], [continue] being an early return of the
    body. *)
Fixpoint forEach {A} (l : list A) (body : A -> Job unit) : Job unit :=
  match l with
  | [] => ret ()
  | x :: l' => body x;; forEach l' body
  end.

(** A loop that carries a value from turn to turn. *)
Fixpoint foldJob {A B} (l : list A) (body : B -> A -> Job B) (b : B) : Job B :=
  match l with
  | [] => ret b
  | x :: l' => b' ← body b x; foldJob l' body b'
  end.

(** JavaScript strings in conditions: the empty string and [undefined] are
    false. *)
Definition truthy (s : option jsstring) : option jsstring :=
  match s with
  | Some [] | None => None
  | Some s => Some s
  end.

Fixpoint join (sep : jsstring) (l : list jsstring) : jsstring :=
  match l with
  | [] => []
  | [x] => x
  | x :: l' => x ++ sep ++ join sep l'
  end.

(** A number in a template literal. *)
Definition showNat (n : nat) : jsstring := js (NilEmpty.string_of_uint (Nat.to_uint n)).

Fixpoint lastIndexOf (c : N) (s : jsstring) : option nat :=
  match s with
  | [] => None
  | x :: s' =>
      match lastIndexOf c s' with
      | Some i => Some (S i)
      | None => if (x =? c)%N then Some O else None
      end
  end.

(** [l.indexOf(x)] *)
Fixpoint indexOf (x : jsstring) (l : list jsstring) : Z :=
  match l with
  | [] => -1
  | y :: l' =>
      if decide (y = x) then 0
      else let i := indexOf x l' in if i <? 0 then -1 else i + 1
  end.

Definition nl : jsstring := [10%N].
Definition fence : jsstring := js "```".
Definition SYSTEM_PROMPT : jsstring := js "You are a book translator.".

Section Job.
(** The markup parser and the serializer of [cheerio], and the
    generation service: the reply to the [n]-th call. *)
Variable parse : jsstring -> list Markup.
Variable render : list Node -> jsstring.
Variable service : nat -> Request -> Reply.

(** [await openai.chat.completions.parse(...)] *)
Definition callService (req : Request) : Job (list Message) :=
  fun st =>
    let st' := {| zip := zip st; calls := S (calls st); pauses := pauses st |} in
    match service (calls st) req with
    | Rejects e => (Thrown e, st', [Translate req])
    | Completion choices => (Returned choices, st', [Translate req])
    end.

(** [completion.choices[0].message.parsed?.translation_paragraphs || []] *)
Definition translatedParagraphsOf (choices : list Message) : Job (list jsstring) :=
  match choices with
  | [] => throw TypeError
  | m :: _ => ret (default [] (parsed m))
  end.

(** [$(sel).attr(name)]: of the first selected element. *)
Definition attrFirst (sel : list Node) (name : jsstring) : option jsstring :=
  match sel with
  | [] => None
  | el :: _ => attr el name
  end.

(** [opfFilePath.includes('/') ? opfFilePath.substring(0,
    opfFilePath.lastIndexOf('/')) : ''] *)
Definition opfDirOf (opfFilePath : jsstring) : jsstring :=
  match lastIndexOf 47 opfFilePath with
  | Some i => take i opfFilePath
  | None => []
  end.

(** The [manifest] map, filled item by item. *)
Definition manifestOf (opfDir : jsstring) (items : list Node) : gmap jsstring jsstring :=
  foldl
    (fun manifest el =>
       match truthy (attr el (js "id")), truthy (attr el (js "href")) with
       | Some id, Some href =>
           let fullPath :=
             match opfDir with
             | [] => href
             | _ => opfDir ++ js "/" ++ href
             end in
           <[id := fullPath]> manifest
       | _, _ => manifest
       end)
    ∅ items.

Definition spineOf (manifest : gmap jsstring jsstring) (itemrefs : list Node) : list jsstring :=
  List.filter (fun path => negb (bool_decide (path = [])))
    (omap (fun el => manifest !! default [] (truthy (attr el (js "idref")))) itemrefs).

(** From the container pointer to the spine; the three [throw]s of the
    source. *)
Definition resolveSpine : Job (list jsstring) :=
  containerFile ← readFile (js "META-INF/container.xml");
  match truthy containerFile with
  | None => throw (Error (js "META-INF/container.xml not found."))
  | Some containerFile =>
      let container := load parse containerFile in
      let opfFilePath := attrFirst (selectTag (js "rootfile") (docRoot container)) (js "full-path") in
      match truthy opfFilePath with
      | None => throw (Error (js "OPF file path not found in container.xml."))
      | Some opfFilePath =>
          opfFile ← readFile opfFilePath;
          match truthy opfFile with
          | None => throw (Error (js "OPF file not found: " ++ opfFilePath))
          | Some opfFile =>
              let opf := load parse opfFile in
              let opfDir := opfDirOf opfFilePath in
              let manifest :=
                manifestOf opfDir (selectChild (js "manifest") (js "item") (docRoot opf)) in
              ret (spineOf manifest (selectChild (js "spine") (js "itemref") (docRoot opf)))
          end
      end
  end.

(** [$content('body').html()] *)
Definition bodyHtml (doc : Document) : option jsstring :=
  match selectTag (js "body") (docRoot doc) with
  | [] => None
  | el :: _ => Some (render (childrenOf el))
  end.

(** The [if (onProgress) { ... }] block. *)
Definition reportProgress (onProgress : bool) (spine : list jsstring)
    (filePath : jsstring) (doc : Document) : Job unit :=
  if onProgress then
    currentEpubBlob ← generateBlob;
    emit (OnProgress
            {| currentFile := filePath;
               fileIndex := indexOf filePath spine + 1;
               totalFiles := Z.of_nat (length spine);
               status := js "Processed " ++ filePath;
               translatedBlob := currentEpubBlob;
               htmlContent := bodyHtml doc |})
  else ret ().

(** *** [translateEpub] of [translation.ts] *)

Record TranslateEpubParams := {
  chunkSize : number;
  translationMode : TranslationMode;
  targetLanguage : jsstring;
  modelName : jsstring;
  onProgress : bool            (* is the callback given *)
}.

(** [filtered]: the leaf blocks with a non-empty text. *)
Definition filteredBlocks (doc : Document) : list Block :=
  let leafNodes := selectLeafBlocks doc in
  omap
    (fun n =>
       match n with
       | Element i _ _ _ =>
           let text := normalizeText (textContent n) in
           if (0 <? strlen text) then Some {| node := i; text := text |} else None
       | Text _ => None
       end)
    leafNodes.

Definition textsJoined (c : option Chunk) : jsstring :=
  match c with
  | Some c => join (nl ++ nl) (texts c)
  | None => []
  end.

(** The messages of the request for chunk [i]. *)
Definition chunkMessages (p : TranslateEpubParams) (chunks : list Chunk) (i : nat)
    (chunk : Chunk) : list (Role * jsstring) :=
  let originalTexts := join (nl ++ nl) (texts chunk) in
  let prevTexts := if (0 <? i)%nat then textsJoined (chunks !! (i - 1)%nat) else [] in
  let nextTexts :=
    if (Z.of_nat i <? Z.of_nat (length chunks) - 1) then textsJoined (chunks !! (i + 1)%nat)
    else [] in
  let contextTexts :=
    join (nl ++ nl) (List.filter (fun s => negb (bool_decide (s = []))) [prevTexts; nextTexts]) in
  let contextContent :=
    match contextTexts with
    | [] => []
    | _ => js "This is context:" ++ nl ++ fence ++ nl ++ contextTexts ++ nl ++ fence
           ++ nl ++ nl ++ js "Translate following text"
    end in
  let userContent :=
    js "Return JSON that matches the schema and make sure " ++ [34%N]
    ++ js "translation_paragraphs" ++ [34%N] ++ js " has exactly "
    ++ showNat (length (texts chunk))
    ++ js " items (one per input paragraph, keep order). "
    ++ js "Each item MUST be plain text without any HTML tags. "
    ++ nl ++ fence ++ nl ++ originalTexts ++ nl ++ fence ++ nl ++ nl
    ++ targetLanguage p ++ nl ++ nl in
  [(system, SYSTEM_PROMPT)]
  ++ match contextContent with [] => [] | _ => [(user, contextContent)] end
  ++ [(user, userContent)].

(** [chunk.nodes.forEach((node, j) => ...)], from position [j] on. *)
Fixpoint applyFrom (mode : TranslationMode) (translatedParagraphs : list jsstring)
    (j : nat) (nodes : list DomElement) (doc : Document) : Document :=
  match nodes with
  | [] => doc
  | node :: rest =>
      let t := default [] (translatedParagraphs !! j) in
      let doc' :=
        match mode with
        | replace => replaceBlock parse doc node t
        | bilingual => insertBilingual parse doc node t
        end in
      applyFrom mode translatedParagraphs (S j) rest doc'
  end.

Definition applyChunk (mode : TranslationMode) (translatedParagraphs : list jsstring)
    (chunk : Chunk) (doc : Document) : Document :=
  applyFrom mode translatedParagraphs 0 (nodes chunk) doc.

(** One turn of the loop over the chunks of a document. *)
Definition translateChunk (p : TranslateEpubParams) (filePath : jsstring)
    (chunks : list Chunk) (doc : Document) (ic : nat * Chunk) : Job Document :=
  let '(i, chunk) := ic in
  setStatus (js "Translating chunk " ++ showNat (i + 1) ++ js "/"
             ++ showNat (length chunks) ++ js " of " ++ filePath ++ js "...");;
  choices ← callService {| model := modelName p; messages := chunkMessages p chunks i chunk |};
  translatedParagraphs ← translatedParagraphsOf choices;
  ret (applyChunk (translationMode p) translatedParagraphs chunk doc).

(** One turn of the loop over the spine. *)
Definition processFile (p : TranslateEpubParams) (spine : list jsstring)
    (filePath : jsstring) : Job unit :=
  setStatus (js "Processing: " ++ filePath);;
  fileContent ← readFile filePath;
  match truthy fileContent with
  | None => ret ()
  | Some fileContent =>
      let content := load parse fileContent in
      if (length (selectLeafBlocks content) =? 0)%nat then ret () else
      let filtered := filteredBlocks content in
      if (length filtered =? 0)%nat then ret () else
      let chunks := makeChunks (chunkSize p) filtered in
      content' ← foldJob (imap pair chunks) (translateChunk p filePath chunks) content;
      writeFile filePath (render (docRoot content'));;
      reportProgress (onProgress p) spine filePath content'
  end.

(** The job starts from the archive as [JSZip.loadAsync] gave it; the
    construction of the client and the [console] calls are left out. *)
Definition translateEpub (p : TranslateEpubParams) : Job Archive :=
  setStatus (js "Initializing...");;
  setStatus (js "Unpacking EPUB...");;
  spine ← resolveSpine;
  forEach spine (processFile p spine);;
  generateBlob.

End Job.

(** ** The revision of [translateEpub] with the pause gate

    The revision that takes [getPausePromise]: paragraphs are the [p]
    elements, chunks are slices of [chunkSize] paragraphs, and after each
    document the job awaits the pause promise. *)

Module WithPause.
Section Job.
Variable parse : jsstring -> list Markup.
Variable render : list Node -> jsstring.
Variable service : nat -> Request -> Reply.

(** [getPausePromise], when given: how the [n]-th promise settles. *)
Variable getPausePromise : option (nat -> Settled).

(** The chunks of the loop
  [for (let i = 0; i < paragraphs.length; i += chunkSize)
     chunks.push(paragraphs.slice(i, i + chunkSize))];
  [None] when the loop does not end, as for a [chunkSize] of zero or
  below.  The index arithmetic is floating point and is not modelled. *)
Variable slices : number -> list DomElement -> option (list (list DomElement)).

Record TranslateEpubParams := {
chunkSize : number;
translationMode : TranslationMode;
targetLanguage : jsstring;
modelName : jsstring;
onProgress : bool
}.

(** [/&#xa0;/g] *)
Definition re_xa0 : regex := lit (js "&#xa0;").

(** [$content(p).text()] *)
Definition textOf (doc : Document) (p : DomElement) : jsstring :=
from_option textContent [] (getElement doc p).

Definition chunkMessages (p : TranslateEpubParams) (doc : Document)
  (chunk : list DomElement) : list (Role * jsstring) :=
let originalTexts :=
  replaceAll re_xa0 [32%N] (join (nl ++ nl) (map (textOf doc) chunk)) in
let userContent :=
  fence ++ nl ++ originalTexts ++ nl ++ nl ++ fence ++ nl ++ nl ++ targetLanguage p in
[(system, SYSTEM_PROMPT); (user, userContent)].

(** [chunk.forEach((p, j) => ...)], from position [j] on. *)
Fixpoint applyFrom (mode : TranslationMode) (translatedParagraphs : list jsstring)
  (j : nat) (chunk : list DomElement) (doc : Document) : Document :=
match chunk with
| [] => doc
| p :: rest =>
    let translatedHtml := default [] (truthy (translatedParagraphs !! j)) in
    let doc' :=
      match mode with
      | replace => setHtml parse doc p translatedHtml
      | bilingual => after parse doc p (bilingualMarkup (js "p") translatedHtml)
      end in
    applyFrom mode translatedParagraphs (S j) rest doc'
end.

Definition translateChunk (p : TranslateEpubParams) (filePath : jsstring)
  (total : nat) (doc : Document) (ic : nat * list DomElement) : Job Document :=
let '(i, chunk) := ic in
setStatus (js "Translating chunk " ++ showNat (i + 1) ++ js "/"
           ++ showNat total ++ js " of " ++ filePath ++ js "...");;
choices ← callService service
  {| model := modelName p; messages := chunkMessages p doc chunk |};
translatedParagraphs ← translatedParagraphsOf choices;
ret (applyFrom (translationMode p) translatedParagraphs 0 chunk doc).

(** [if (getPausePromise) { await getPausePromise(); }] *)
Definition pauseGate : Job unit :=
match getPausePromise with
| None => ret ()
| Some promise =>
    fun st =>
      let st' := {| zip := zip st; calls := calls st; pauses := S (pauses st) |} in
      match promise (pauses st) with
      | Resolves => (Returned (), st', [AwaitPause])
      | RejectsWith e => (Thrown e, st', [AwaitPause])
      | StaysPending => (Pending, st', [AwaitPause])
      end
end.

(** One turn of the loop over the spine. *)
Definition processFile (p : TranslateEpubParams) (spine : list jsstring)
  (filePath : jsstring) : Job unit :=
setStatus (js "Processing: " ++ filePath);;
fileContent ← readFile filePath;
match fileContent with
| None => throw (Error (js "cheerio.load() expects a string"))
| Some fileContent =>
    let content := load parse fileContent in
    let paragraphs := omap idOf (selectTag (js "p") (docRoot content)) in
    if (length paragraphs =? 0)%nat then ret () else
    match slices (chunkSize p) paragraphs with
    | None => fun st => (Pending, st, [])
    | Some chunks =>
        content' ← foldJob (imap pair chunks)
                     (translateChunk p filePath (length chunks)) content;
        writeFile filePath (render (docRoot content'));;
        reportProgress render (onProgress p) spine filePath content';;
        pauseGate
    end
end.

Definition translateEpub (p : TranslateEpubParams) : Job Archive :=
setStatus (js "Initializing...");;
setStatus (js "Unpacking EPUB...");;
spine ← resolveSpine parse;
forEach spine (processFile p spine);;
generateBlob.

End Job.
End WithPause.

(** ** The slicing loop of the revision with the pause gate

    [for (let i = 0; i < paragraphs.length; i += chunkSize)
       chunks.push(paragraphs.slice(i, i + chunkSize))]
    for a [chunkSize] that is a whole number, where the arithmetic on [i]
    is exact. *)

(** [l.slice(start, end)]: a negative index counts from the end. *)
Definition slice {A} (l : list A) (start stop : Z) : list A :=
  let len := Z.of_nat (length l) in
  let k := if start <? 0 then Z.max (len + start) 0 else Z.min start len in
  let final := if stop <? 0 then Z.max (len + stop) 0 else Z.min stop len in
  take (Z.to_nat (Z.max (final - k) 0)) (drop (Z.to_nat k) l).

(** The loop from [i] on; [fuel] bounds its turns, and [None] is a loop
    that has not ended within them. *)
Fixpoint sliceLoop {A} (fuel : nat) (chunkSize i : Z) (paragraphs : list A)
    : option (list (list A)) :=
  match fuel with
  | O => None
  | S fuel' =>
      if i <? Z.of_nat (length paragraphs)
      then cons (slice paragraphs i (i + chunkSize))
             <$> sliceLoop fuel' chunkSize (i + chunkSize) paragraphs
      else Some []
  end.

(** * The vocabulary of the properties *)

(** ** Chunks *)

(** The character total of a list of texts: each text with its
    two-character separator. *)
Definition charTotal (ts : list jsstring) : Z :=
  foldr (fun t acc => strlen t + 2 + acc) 0 ts.

(** The same packing with the block-count test left out: boundaries
    decided by the character budget alone. *)
Definition charStep (maxChars : Z)
    (st : list Chunk * Chunk) (b : Block) : list Chunk * Chunk :=
  let '(chunks, cur) := st in
  let '(chunks, cur) :=
    if (0 <? charCount cur) && (maxChars <? charCount cur + strlen (text b) + 2)
       && (0 <? Z.of_nat (length (nodes cur)))
    then (chunks ++ [cur], emptyChunk)
    else (chunks, cur) in
  let cur := pushBlock cur b in
  if maxChars <=? charCount cur
  then (chunks ++ [cur], emptyChunk)
  else (chunks, cur).

Definition chunkByCharsOnly (maxChars : Z) (filtered : list Block) : list Chunk :=
  let '(chunks, cur) := fold_left (charStep maxChars) filtered ([], emptyChunk) in
  if 0 <? Z.of_nat (length (nodes cur)) then chunks ++ [cur] else chunks.

(** A chunk within the budget, or one oversized block alone. *)
Definition sizedChunk (maxChars : Z) (c : Chunk) : Prop :=
  charCount c <= maxChars \/ exists t, texts c = [t] /\ maxChars < strlen t + 2.

(** The stored count is the character total, and nodes go with texts. *)
Definition soundChunk (c : Chunk) : Prop :=
  length (nodes c) = length (texts c) /\ charCount c = charTotal (texts c).

(** The invariant of the chunking loop on [(chunks, cur)]. *)
Record chunkInv (maxChars : Z) (st : list Chunk * Chunk) : Prop := {
  inv_closed : Forall (fun c => nodes c <> [] /\ soundChunk c /\ sizedChunk maxChars c) st.1;
  inv_cur_sound : soundChunk st.2;
  inv_cur_open : nodes st.2 = [] \/ charCount st.2 < maxChars
}.

(** What the loop holds so far, in order. *)
Definition heldNodes (st : list Chunk * Chunk) : list DomElement :=
  concat (map nodes st.1) ++ nodes st.2.
Definition heldTexts (st : list Chunk * Chunk) : list jsstring :=
  concat (map texts st.1) ++ texts st.2.

(** A paragraph of [len] characters. *)
Definition para (n : DomElement) (len : nat) : Block :=
  {| node := n; text := replicate len 97%N |}.
Arguments para n%_nat len%_nat.

(** ** Classes *)

(** ASCII white space, which separates the names of a [class] attribute. *)
Definition isAsciiSpace (c : N) : bool :=
  ((c =? 32) || (c =? 9) || (c =? 10) || (c =? 12) || (c =? 13))%N.

Definition flushToken (cur : jsstring) : list jsstring :=
  match cur with [] => [] | _ => [cur] end.

(** The names in a [class] attribute value; [cur] is the name being read. *)
Fixpoint classNames (cur : jsstring) (s : jsstring) : list jsstring :=
  match s with
  | [] => flushToken cur
  | c :: s' =>
      if isAsciiSpace c then flushToken cur ++ classNames [] s'
      else classNames (cur ++ [c]) s'
  end.

(** The element bears the class [c]. *)
Definition hasClass {I} (el : Tree I) (c : jsstring) : Prop :=
  c ∈ classNames [] (default [] (attr el (js "class"))).

(** The code unit before the end of [w], or [prev] when [w] is empty. *)
Definition lastUnit (prev : option N) (w : jsstring) : option N :=
  match last w with Some c => Some c | None => prev end.

Definition endsWithSpace (pre : jsstring) : Prop :=
  pre = [] \/ exists pre' c, pre = pre' ++ [c] /\ isAsciiSpace c = true.

Definition startsWithSpace (post : jsstring) : Prop :=
  post = [] \/ exists c post', post = c :: post' /\ isAsciiSpace c = true.

(** ** The manifest *)

Definition CONTAINER_PATH : jsstring := js "META-INF/container.xml".

(** The archive lacks what the resolution needs: the container pointer,
    the [full-path] attribute of its [rootfile] element, or the package
    document that attribute names. *)
Definition malformedArchive (parse : jsstring -> list Markup) (z : Archive) : Prop :=
  z !! CONTAINER_PATH = None \/
  (exists c, z !! CONTAINER_PATH = Some c /\
     attrFirst (selectTag (js "rootfile") (docRoot (load parse c))) (js "full-path") = None) \/
  (exists c path, z !! CONTAINER_PATH = Some c /\
     attrFirst (selectTag (js "rootfile") (docRoot (load parse c))) (js "full-path") = Some path /\
     z !! path = None).

(** ** Markup and the applier *)

(** Text without markup: no [<] and no [&]. *)
Definition isPlain (s : jsstring) : bool :=
  forallb (fun c => negb ((c =? 60) || (c =? 38))%N) s.

(** The nodes plain text stands for: one text node, none for the empty
    string. *)
Definition textNodes {I} (s : jsstring) : list (Tree I) :=
  match s with [] => [] | _ => [Text s] end.

(** What is asked of the markup parser: plain text is a text node, and the
    bilingual template around plain text is one element with the marker
    class and that text. *)
Record ParserLaws (parse : jsstring -> list Markup) : Prop := {
  parse_plain : forall s, isPlain s = true -> parse s = textNodes s;
  parse_bilingual : forall tag s,
    tag = js "div" \/ tag = js "p" ->
    isPlain s = true ->
    parse (bilingualMarkup tag s) =
      [Element () tag [(js "class", BILINGUAL_CLASS)] (textNodes s)]
}.


(** The second forest is the first with the nodes [new] in the place of
    the node [a], and nothing else changed. *)
Inductive replacedAt (a : Node) (new : list Node) : list Node -> list Node -> Prop :=
| replaced_here l1 l2 : replacedAt a new (l1 ++ a :: l2) (l1 ++ new ++ l2)
| replaced_below l1 i nm at' cs cs' l2 :
    replacedAt a new cs cs' ->
    replacedAt a new (l1 ++ Element i nm at' cs :: l2) (l1 ++ Element i nm at' cs' :: l2).

(** The elements of the tree have identities of their own, all below the
    next one to give. *)
Definition wfDocument (doc : Document) : Prop :=
  NoDup (map idOf (elements (docRoot doc))) /\
  Forall (fun n => forall i, idOf n = Some i -> (i < nextId doc)%nat) (elements (docRoot doc)).

(** The identities of the elements of a forest, in document order. *)
Definition ids (forest : list Node) : list (option DomElement) :=
  map idOf (elements forest).

(** All identities among [l] are below [N]; at least [N]. *)
Definition idsBelow (N : nat) (l : list (option DomElement)) : Prop :=
  forall i, Some i ∈ l -> (i < N)%nat.
Definition idsFrom (N : nat) (l : list (option DomElement)) : Prop :=
  forall i, Some i ∈ l -> (N <= i)%nat.

(** [res], what a rewriting at [target] made of [ls], has the identities
    of [ls] and of the [new] nodes, no one twice, and is [ls] itself when
    the target is not there. *)
Definition keeps (new : list Node) (target : DomElement) (ls res : list Node) : Prop :=
  NoDup (ids res) /\
  (forall o, o ∈ ids res -> o ∈ ids ls \/ o ∈ ids new) /\
  (Some target ∉ ids ls -> res = ls).

(** Where the translation of a block goes, and in which element: inside
    the block or after it. *)
Definition goesInside (name : jsstring) : bool :=
  bool_decide (name = js "li") || bool_decide (name = js "blockquote").

Definition artifactTag (name : jsstring) : jsstring :=
  if bool_decide (name = js "li") then js "div"
  else if bool_decide (name = js "blockquote") then js "p"
  else if test re_heading name then js "div"
  else js "p".

(** The node the bilingual template stands for. *)
Definition artifact (id : DomElement) (tag safe : jsstring) : Node :=
  Element id tag [(js "class", BILINGUAL_CLASS)] (textNodes safe).



(** The tokenizer of the example parser run over [s]: the state it ends
    in and its tokens. *)
Fixpoint tokenizerRun (st : XmlParser.state) (s : jsstring)
    : XmlParser.state * list XmlParser.token :=
  match s with
  | [] => (st, [])
  | c :: s' =>
      let '(st', out) := XmlParser.step st c in
      let '(st'', out') := tokenizerRun st' s' in
      (st'', out ++ out')
  end.

(** ** Runs of the job *)

(** The archive after the writes among [ev]. *)
Fixpoint replay (z : Archive) (ev : list Event) : Archive :=
  match ev with
  | [] => z
  | WriteFile path content :: ev' => replay (<[path := content]> z) ev'
  | _ :: ev' => replay z ev'
  end.

Definition isWrite (e : Event) : bool :=
  match e with WriteFile _ _ => true | _ => false end.

Definition isGate (e : Event) : bool :=
  match e with AwaitPause => true | _ => false end.

(** Events that neither write to the archive nor await the pause promise. *)
Definition quiet (ev : list Event) : Prop :=
  Forall (fun e => isWrite e = false /\ isGate e = false) ev.

(** A job that leaves the archive and the pause count alone. *)
Definition tame {A} (m : Job A) : Prop :=
  forall st r st' ev,
    m st = (r, st', ev) -> quiet ev /\ zip st' = zip st /\ pauses st' = pauses st.

Definition processing (path : jsstring) : Event := SetStatus (js "Processing: " ++ path).

(** The outcome of awaiting a promise. *)
Definition settle (s : Settled) : Outcome unit :=
  match s with
  | Resolves => Returned ()
  | RejectsWith e => Thrown e
  | StaysPending => Pending
  end.

(** The progress report of a document, when the callback is given. *)
Definition progressPart (onProgress : bool) (path : jsstring) (ev : list Event) : Prop :=
  if onProgress then exists prog, ev = [OnProgress prog] /\ currentFile prog = path
  else ev = [].

(** What comes just before a gate: the write-back of a document and its
    progress report. *)
Definition beforeGate (onProgress : bool) (pre : list Event) : Prop :=
  exists pre' path content pp,
    pre = pre' ++ WriteFile path content :: pp /\ progressPart onProgress path pp.

(** What comes just after a gate: nothing, or the next document. *)
Definition afterGate (post : list Event) : Prop :=
  post = [] \/ exists path post', post = processing path :: post'.

(** The number of awaits of the pause promise among [ev]. *)
Definition gates (ev : list Event) : nat := length (List.filter isGate ev).

Definition gateless (ev : list Event) : Prop := Forall (fun e => isGate e = false) ev.

(** Every gate among [ev], the events of a job that started with [n0]
    promises awaited, stands at a document boundary, and nothing follows
    it unless its promise resolves. *)
Definition gatesAtBoundaries (getPausePromise : option (nat -> Settled))
    (onProgress : bool) (n0 : nat) (ev : list Event) : Prop :=
  forall pre post,
    ev = pre ++ AwaitPause :: post ->
    beforeGate onProgress pre /\
    afterGate post /\
    (forall promise,
       getPausePromise = Some promise ->
       promise (n0 + gates pre)%nat <> Resolves -> post = []).

(** The events of one turn of the loop over the spine, in the revision
    with the pause gate. *)
Inductive turn (getPausePromise : option (nat -> Settled)) (onProgress : bool)
    (path : jsstring) (st : JobState)
    : Outcome unit -> JobState -> list Event -> Prop :=
| turn_stop r st' body :
    quiet body -> zip st' = zip st -> pauses st' = pauses st ->
    turn getPausePromise onProgress path st r st' (processing path :: body)
| turn_written st' body content pp :
    getPausePromise = None ->
    quiet body -> progressPart onProgress path pp ->
    zip st' = <[path := content]> (zip st) -> pauses st' = pauses st ->
    turn getPausePromise onProgress path st (Returned ()) st'
      (processing path :: body ++ WriteFile path content :: pp)
| turn_gate promise st' body content pp :
    getPausePromise = Some promise ->
    quiet body -> progressPart onProgress path pp ->
    zip st' = <[path := content]> (zip st) -> pauses st' = S (pauses st) ->
    turn getPausePromise onProgress path st (settle (promise (pauses st))) st'
      (processing path :: body ++ WriteFile path content :: pp ++ [AwaitPause]).

(** The document a [Processing:] status names. *)
Definition startedDocument (e : Event) : option jsstring :=
  match e with
  | SetStatus s =>
      if bool_decide (js "Processing: " `prefix_of` s) then Some (drop 12 s) else None
  | _ => None
  end.

(** The documents the job has started on, in the order of their status
    reports. *)
Definition started (ev : list Event) : list jsstring := omap startedDocument ev.

(** A job that starts on no document. *)
Definition steady {A} (m : Job A) : Prop :=
  forall st r st' ev, m st = (r, st', ev) -> started ev = [].

(** What follows a gate whose promise resolved, [rest] being the documents
    of the spine after the one just written: the start of the first of
    them, and nothing after the last document. *)
Definition resumesWith (rest : list jsstring) (post : list Event) : Prop :=
  match rest with
  | [] => post = []
  | next :: _ => exists post', post = processing next :: post'
  end.

(** The gate that [pre] leads to and [post] follows, the [n]-th await of
    the job, stands after the document [path] of the spine
    [done ++ path :: rest]: the documents started so far are those up to
    [path], the last events are the write-back of [path] and its progress
    report, and when the promise resolves the job goes on with the
    document after [path]. *)
Definition gateAfterDocument (getPausePromise : option (nat -> Settled))
    (onProgress : bool) (n : nat)
    (done : list jsstring) (path : jsstring) (rest : list jsstring)
    (pre post : list Event) : Prop :=
  started pre = done ++ [path] /\
  (exists pre' content pp,
     pre = pre' ++ WriteFile path content :: pp /\ progressPart onProgress path pp) /\
  (forall promise,
     getPausePromise = Some promise -> promise n = Resolves -> resumesWith rest post).

(** ** Chunks that follow one another *)

(** The chunk [c] could not take a block of text [t] as well: the
    character budget or the block-count cap would be passed, or the chunk
    has reached the budget already. *)
Definition closes (maxChars : Z) (maxParas : number) (c : Chunk) (t : jsstring) : Prop :=
  maxChars < charCount c + strlen t + 2 \/
  num_ge (ofZ (Z.of_nat (length (nodes c)))) maxParas = true \/
  maxChars <= charCount c.

(** [c2], the chunk after [c1], starts with a block [c1] had no room for. *)
Definition startsAfter (maxChars : Z) (maxParas : number) (c1 c2 : Chunk) : Prop :=
  exists t rest, texts c2 = t :: rest /\ closes maxChars maxParas c1 t.

(** Each chunk of [l] starts after the one before it. *)
Definition greedy (maxChars : Z) (maxParas : number) (l : list Chunk) : Prop :=
  forall pre c1 c2 post, l = pre ++ c1 :: c2 :: post -> startsAfter maxChars maxParas c1 c2.

(** The invariant of the chunking loop for that. *)
Record greedyInv (maxChars : Z) (maxParas : number) (st : list Chunk * Chunk) : Prop := {
  greedy_closed : greedy maxChars maxParas st.1;
  greedy_sound : length (nodes st.2) = length (texts st.2);
  greedy_open : forall pre c1, st.1 = pre ++ [c1] ->
    match texts st.2 with
    | [] => maxChars <= charCount c1
    | t :: _ => closes maxChars maxParas c1 t
    end
}.

(** The block count of [c] is below [q + 1]. *)
Definition underCap (q : Q) (c : Chunk) : Prop :=
  (inject_Z (Z.of_nat (length (nodes c))) < q + 1)%Q.

(** The one chunk that holds all of [filtered]. *)
Definition wholeChunk (filtered : list Block) : Chunk :=
  {| nodes := map node filtered; texts := map text filtered;
     charCount := charTotal (map text filtered) |}.

(** ** Matches and white space *)

(** The code units a match of [r] can hold. *)
Fixpoint unitsOf (r : regex) (c : N) : bool :=
  match r with
  | RChar p => p c
  | RSeq r1 r2 | RAlt r1 r2 => unitsOf r1 c || unitsOf r2 c
  | RPlus r1 | ROpt r1 => unitsOf r1 c
  | _ => false
  end.

(** No match of [r] is empty. *)
Fixpoint consuming (r : regex) : bool :=
  match r with
  | RChar _ => true
  | RSeq r1 r2 => consuming r1 || consuming r2
  | RAlt r1 r2 => consuming r1 && consuming r2
  | RPlus r1 => consuming r1
  | _ => false
  end.

(** The code units of [s] that are not white space, in order. *)
Definition inked (s : jsstring) : jsstring :=
  List.filter (fun c => negb (isSpace c)) s.

(** A white-space code unit right before a line feed, somewhere in [s]. *)
Fixpoint spaceBeforeNewline (s : jsstring) : bool :=
  match s with
  | [] => false
  | c :: s' =>
      match s' with
      | d :: _ => isSpace c && (d =? 10)%N
      | [] => false
      end || spaceBeforeNewline s'
  end.

(** Text the white-space steps of the helpers leave alone: no white space
    at either end and none before a line feed. *)
Definition tidy (s : jsstring) : bool :=
  negb (from_option isSpace false (head s)) &&
  negb (from_option isSpace false (last s)) &&
  negb (spaceBeforeNewline s).

(** The length of the match of [\s+\n] at the head of [s]: up to the last
    line feed of the white space [s] starts with, which is not its first
    code unit. *)
Fixpoint runEnd (s : jsstring) : option nat :=
  match s with
  | [] => None
  | c :: s' =>
      if isSpace c then
        match runEnd s' with
        | Some n => Some (S n)
        | None =>
            match s' with
            | d :: _ => if (d =? 10)%N then Some 2%nat else None
            | [] => None
            end
        end
      else None
  end.

(** The names of the tags [stripBlockTags] removes, in lower case. *)
Definition STRIPPED_TAGS : list jsstring :=
  [js "p"; js "div"; js "h1"; js "h2"; js "h3"; js "h4"; js "h5"; js "h6";
   js "li"; js "blockquote"; js "ul"; js "ol"].

(** ** The manifest as a map *)

(** [opfDir ? `${opfDir}/${href}` : href] *)
Definition fullPathOf (opfDir href : jsstring) : jsstring :=
  match opfDir with
  | [] => href
  | _ => opfDir ++ js "/" ++ href
  end.

(** The path an [item] element declares for [id]: it has that [id] and
    an [href], neither empty. *)
Definition declares (opfDir id : jsstring) (el : Node) : option jsstring :=
  match truthy (attr el (js "id")), truthy (attr el (js "href")) with
  | Some id', Some href => if decide (id' = id) then Some (fullPathOf opfDir href) else None
  | _, _ => None
  end.

(** The document an [itemref] element refers to. *)
Definition refersTo (manifest : gmap jsstring jsstring) (el : Node) : option jsstring :=
  match truthy (attr el (js "idref")) with
  | Some idref => manifest !! idref
  | None => None
  end.

(** The archive has what the resolution needs: a container pointer that
    names, in the [full-path] of its first [rootfile], a package document;
    none of the three is empty. *)
Definition resolvable (parse : jsstring -> list Markup) (z : Archive) : Prop :=
  exists c path opf,
    z !! CONTAINER_PATH = Some c /\ c <> [] /\
    attrFirst (selectTag (js "rootfile") (docRoot (load parse c))) (js "full-path") = Some path /\
    path <> [] /\
    z !! path = Some opf /\ opf <> [].

(** ** The events of a run *)

(** The requests among the events, in order. *)
Definition requestsOf (ev : list Event) : list Request :=
  omap (fun e => match e with Translate req => Some req | _ => None end) ev.

(** The request for the chunk at position [i]. *)
Definition requestFor (p : TranslateEpubParams) (chunks : list Chunk) (ic : nat * Chunk)
    : Request :=
  {| model := modelName p; messages := chunkMessages p chunks ic.1 ic.2 |}.

(** The service answers every call by a completion with a choice. *)
Definition answers (service : nat -> Request -> Reply) : Prop :=
  forall n req, exists m rest, service n req = Completion (m :: rest).

(** The reply to call [n] makes the job throw [e]: the call is rejected
    with [e], or its completion has no choice to read. *)
Definition failsWith (service : nat -> Request -> Reply) (n : nat) (req : Request)
    (e : Exception) : Prop :=
  service n req = Rejects e \/ (service n req = Completion [] /\ e = TypeError).

(** The progress report of a document, when the callback is given: [z] is
    the archive and [html] the body of the document. *)
Definition progressEvents (onProgress : bool) (spine : list jsstring) (path : jsstring)
    (z : Archive) (html : option jsstring) : list Event :=
  if onProgress then
    [OnProgress {| currentFile := path;
                   fileIndex := indexOf path spine + 1;
                   totalFiles := Z.of_nat (length spine);
                   status := js "Processed " ++ path;
                   translatedBlob := z;
                   htmlContent := html |}]
  else [].

(** Nothing to translate at [path]: no entry, an empty one, or a document
    without a block of text. *)
Definition blank (parse : jsstring -> list Markup) (z : Archive) (path : jsstring) : Prop :=
  z !! path = None \/ z !! path = Some [] \/
  exists content, z !! path = Some content /\ filteredBlocks (load parse content) = [].

(** Events of the exchange with the service only: status reports and
    requests. *)
Definition exchange (ev : list Event) : Prop :=
  Forall (fun e => match e with SetStatus _ | Translate _ => True | _ => False end) ev.

(** [Q pre e] holds of every event [e] of [ev], [pre] being the events
    before it. *)
Definition eachEvent (Q : list Event -> Event -> Prop) (ev : list Event) : Prop :=
  forall pre e post, ev = pre ++ e :: post -> Q pre e.

(** What holds of the writes and the progress reports of a job that
    started with the archive [z]: a write goes to a document of the spine
    that is in the archive; a progress report comes right after the write
    of its document, carries the archive as of that write, and counts the
    document within the spine. *)
Definition orderly (onProgress : bool) (spine : list jsstring) (z : Archive)
    (pre : list Event) (e : Event) : Prop :=
  match e with
  | WriteFile path _ => path ∈ spine /\ is_Some (replay z pre !! path)
  | OnProgress prog =>
      onProgress = true /\
      (exists pre' content, pre = pre' ++ [WriteFile (currentFile prog) content]) /\
      translatedBlob prog = replay z pre /\
      1 <= fileIndex prog <= totalFiles prog /\
      totalFiles prog = Z.of_nat (length spine) /\
      status prog = js "Processed " ++ currentFile prog
  | _ => True
  end.

(** The entries written, in order. *)
Definition writesOf (ev : list Event) : list jsstring :=
  omap (fun e => match e with WriteFile path _ => Some path | _ => None end) ev.

(** ** Outlines *)

(** What stands in a document, in document order: each element by its
    identity, name and attributes, each text node by its text. *)
Inductive Item :=
| ItemElement (id : DomElement) (name : jsstring) (attribs : list (jsstring * jsstring))
| ItemText (data : jsstring).

Fixpoint outline (n : Node) : list Item :=
  match n with
  | Element i nm a cs => ItemElement i nm a :: flat_map outline cs
  | Text d => [ItemText d]
  end.

(** The outline of [F] around the children of [el], the element [target]
    points to, and what it becomes when other children are put in their
    place. *)
Definition around (target : DomElement) (el : Node) (F : list Node) : Prop :=
  exists pre post,
    flat_map outline F = pre ++ flat_map outline (childrenOf el) ++ post /\
    forall new,
      flat_map outline (rewriteForest target (fun n => [withChildren new n]) F) =
      pre ++ flat_map outline new ++ post.

(** ** Slices *)

(** Slices of [size] elements, the last one of what is left. *)
Definition evenSlices {A} (size : Z) (chunks : list (list A)) : Prop :=
  forall k chunk, chunks !! k = Some chunk ->
    chunk <> [] /\ Z.of_nat (length chunk) <= size /\
    ((S k < length chunks)%nat -> Z.of_nat (length chunk) = size).

(** ** Examples *)

Definition sampleChapter : Document :=
  load XmlParser.parseXml
    (js "<body><h1>Title</h1><p>one</p><ul><li>item</li></ul></body>").

(** A book of one document with two paragraphs. *)
Definition sampleBook : Archive :=
  <[js "META-INF/container.xml" :=
      js "<container><rootfiles><rootfile full-path='content.opf'/></rootfiles></container>"]>
  (<[js "content.opf" :=
      js "<package><manifest><item id='c1' href='ch1.xhtml'/></manifest><spine><itemref idref='c1'/></spine></package>"]>
  (<[js "ch1.xhtml" := js "<html><body><p>one</p><p>two</p></body></html>"]> ∅)).

Definition sampleParams (mode : TranslationMode) : TranslateEpubParams :=
  {| chunkSize := ofZ 10; translationMode := mode; targetLanguage := js "French";
     modelName := js "gpt"; onProgress := true |}.

Definition sampleStart : JobState := {| zip := sampleBook; calls := 0; pauses := 0 |}.

Definition fullService : nat -> Request -> Reply :=
  fun _ _ => Completion [ {| parsed := Some [js "un"; []] |} ].

(** A book of two documents. *)
Definition sampleTwoChapters : Archive :=
  <[js "ch2.xhtml" := js "<html><body><p>three</p></body></html>"]>
  (<[js "content.opf" :=
      js "<package><manifest><item id='c1' href='ch1.xhtml'/><item id='c2' href='ch2.xhtml'/></manifest><spine><itemref idref='c1'/><itemref idref='c2'/></spine></package>"]>
   sampleBook).

Definition sampleTwoStart : JobState :=
  {| zip := sampleTwoChapters; calls := 0; pauses := 0 |}.

(** The parameters of the same job in the revision with the pause gate. *)
Definition samplePausedParams : WithPause.TranslateEpubParams :=
  {| WithPause.chunkSize := ofZ 10; WithPause.translationMode := bilingual;
     WithPause.targetLanguage := js "French"; WithPause.modelName := js "gpt";
     WithPause.onProgress := true |}.

(** * Properties *)

(** ** The chunker *)

Lemma charTotal_snoc ts t : charTotal (ts ++ [t]) = charTotal ts + (strlen t + 2).
Proof. induction ts as [|a ts IH]; simpl; lia. Qed.

Lemma charTotal_nonneg ts : 0 <= charTotal ts.
Proof. induction ts as [|a ts IH]; simpl; unfold strlen in *; lia. Qed.

Lemma charTotal_pos ts : ts <> [] -> 2 <= charTotal ts.
Proof.
  destruct ts as [|a ts]; [congruence|]. intros _. simpl.
  pose proof (charTotal_nonneg ts). unfold strlen. lia.
Qed.

Lemma chunkInv_init maxChars : chunkInv maxChars ([], emptyChunk).
Proof. split; simpl; [constructor | split; reflexivity | now left]. Qed.

Lemma soundChunk_push cur b : soundChunk cur -> soundChunk (pushBlock cur b).
Proof.
  intros [Hl Hc]. split; simpl.
  - rewrite !length_app, Hl. reflexivity.
  - rewrite charTotal_snoc, Hc. reflexivity.
Qed.

Lemma soundChunk_count_pos c : soundChunk c -> nodes c <> [] -> 2 <= charCount c.
Proof.
  intros [Hl Hc] Hne. rewrite Hc. apply charTotal_pos.
  intros E. rewrite E in Hl. destruct (nodes c); simpl in *; congruence.
Qed.

Lemma nodes_nonempty_length (c : Chunk) :
  (0 <? Z.of_nat (length (nodes c))) = true <-> nodes c <> [].
Proof.
  destruct (nodes c) as [|n ns]; simpl; split; intros H; done.
Qed.

(** Closing the chunk that holds just [b], or keeping it open. *)
Lemma chunkInv_fresh maxChars chunks b :
  Forall (fun c => nodes c <> [] /\ soundChunk c /\ sizedChunk maxChars c) chunks ->
  chunkInv maxChars
    (if maxChars <=? charCount (pushBlock emptyChunk b)
     then (chunks ++ [pushBlock emptyChunk b], emptyChunk)
     else (chunks, pushBlock emptyChunk b)).
Proof.
  intros Hcl.
  assert (Hs : soundChunk (pushBlock emptyChunk b)).
  { apply soundChunk_push. split; reflexivity. }
  destruct (Z.leb_spec maxChars (charCount (pushBlock emptyChunk b))) as [Hge|Hlt].
  - split; simpl; [| split; reflexivity | now left].
    apply Forall_app; split; [exact Hcl|]. constructor; [|constructor].
    split; [simpl; congruence|]. split; [exact Hs|].
    simpl in Hge.
    destruct (Z.eq_dec maxChars (strlen (text b) + 2)) as [E|NE].
    + left. simpl. lia.
    + right. exists (text b). split; [reflexivity | lia].
  - split; simpl; [exact Hcl | exact Hs | right; simpl in *; lia].
Qed.

Lemma chunkInv_step maxChars maxParas st b :
  chunkInv maxChars st -> chunkInv maxChars (chunkStep maxChars maxParas st b).
Proof.
  destruct st as [chunks cur]. intros [Hcl Hs Hop]. simpl in *.
  unfold chunkStep.
  set (byChars := (0 <? charCount cur) && (maxChars <? charCount cur + strlen (text b) + 2)).
  set (byCount := num_ge _ maxParas).
  destruct ((byChars || byCount) && (0 <? Z.of_nat (length (nodes cur)))) eqn:Hflush.
  - (* the open chunk is closed first *)
    apply andb_true_iff in Hflush as [_ Hne]. apply nodes_nonempty_length in Hne.
    apply chunkInv_fresh. apply Forall_app; split; [exact Hcl|].
    constructor; [|constructor]. split; [exact Hne|]. split; [exact Hs|].
    left. destruct Hop as [E|Hlt]; [congruence | lia].
  - destruct (nodes cur) as [|n ns] eqn:Hn.
    + (* nothing open: the block starts a chunk *)
      assert (Hcur : cur = emptyChunk).
      { destruct cur as [ns ts cc]; simpl in *. destruct Hs as [Hl Hc]; simpl in *.
        subst ns. destruct ts; simpl in *; [|congruence]. subst cc. reflexivity. }
      subst cur. apply chunkInv_fresh. exact Hcl.
    + (* the block joins the open chunk *)
      assert (Hne : nodes cur <> []) by (rewrite Hn; congruence).
      pose proof (soundChunk_count_pos cur Hs Hne) as Hpos.
      assert (Hfit : charCount cur + strlen (text b) + 2 <= maxChars).
      { apply andb_false_iff in Hflush as [Hf|Hf]; [|simpl in Hf; done].
        apply orb_false_iff in Hf as [Hf _]. subst byChars.
        apply andb_false_iff in Hf as [Hf|Hf]; lia. }
      pose proof (soundChunk_push cur b Hs) as Hs'. cbv beta iota zeta.
      destruct (Z.leb_spec maxChars (charCount cur + (strlen (text b) + 2))) as [Hge|Hlt].
      * split; simpl; [| split; reflexivity | now left].
        apply Forall_app; split; [exact Hcl|]. constructor; [|constructor].
        split; [simpl; rewrite Hn; simpl; congruence|]. split; [exact Hs'|].
        left. simpl. lia.
      * split; simpl; [exact Hcl | exact Hs' | right; simpl in *; lia].
Qed.

Lemma chunkInv_loop maxChars maxParas filtered st :
  chunkInv maxChars st -> chunkInv maxChars (chunkLoop maxChars maxParas filtered st).
Proof.
  revert st. induction filtered as [|b bs IH]; intros st H; simpl; [exact H|].
  apply IH. apply chunkInv_step. exact H.
Qed.

Lemma concat_snoc {A} (ls : list (list A)) l : concat (ls ++ [l]) = concat ls ++ l.
Proof. rewrite concat_app. simpl. rewrite app_nil_r. reflexivity. Qed.

Lemma held_step maxChars maxParas st b :
  heldNodes (chunkStep maxChars maxParas st b) = heldNodes st ++ [node b] /\
  heldTexts (chunkStep maxChars maxParas st b) = heldTexts st ++ [text b].
Proof.
  destruct st as [chunks cur]. unfold chunkStep, heldNodes, heldTexts.
  destruct ((_ || _) && _);
    destruct (maxChars <=? _); simpl;
    rewrite ?map_app, ?concat_app; simpl;
    rewrite ?app_nil_r, <- ?app_assoc; simpl; split; reflexivity.
Qed.

Lemma held_loop maxChars maxParas filtered st :
  heldNodes (chunkLoop maxChars maxParas filtered st) = heldNodes st ++ map node filtered /\
  heldTexts (chunkLoop maxChars maxParas filtered st) = heldTexts st ++ map text filtered.
Proof.
  revert st. induction filtered as [|b bs IH]; intros st; simpl.
  - rewrite !app_nil_r. split; reflexivity.
  - destruct (IH (chunkStep maxChars maxParas st b)) as [Hn Ht].
    destruct (held_step maxChars maxParas st b) as [Hn1 Ht1].
    rewrite Hn, Ht, Hn1, Ht1, <- !app_assoc. split; reflexivity.
Qed.

(** The produced chunks with the tail chunk pushed. *)
Lemma chunkWith_inv maxChars maxParas filtered :
  Forall (fun c => nodes c <> [] /\ soundChunk c /\ sizedChunk maxChars c)
         (chunkWith maxChars maxParas filtered).
Proof.
  unfold chunkWith.
  pose proof (chunkInv_loop maxChars maxParas filtered _ (chunkInv_init maxChars)) as H.
  destruct (chunkLoop maxChars maxParas filtered ([], emptyChunk)) as [chunks cur].
  destruct H as [Hcl Hs Hop]. simpl in *.
  destruct (0 <? Z.of_nat (length (nodes cur))) eqn:Hne; [|exact Hcl].
  apply nodes_nonempty_length in Hne.
  apply Forall_app; split; [exact Hcl|]. constructor; [|constructor].
  split; [exact Hne|]. split; [exact Hs|]. left. destruct Hop; [congruence|lia].
Qed.

Lemma chunkWith_held maxChars maxParas filtered :
  concat (map nodes (chunkWith maxChars maxParas filtered)) = map node filtered /\
  concat (map texts (chunkWith maxChars maxParas filtered)) = map text filtered.
Proof.
  unfold chunkWith.
  pose proof (held_loop maxChars maxParas filtered ([], emptyChunk)) as [Hn Ht].
  pose proof (chunkInv_loop maxChars maxParas filtered _ (chunkInv_init maxChars)) as Hinv.
  destruct (chunkLoop maxChars maxParas filtered ([], emptyChunk)) as [chunks cur].
  unfold heldNodes, heldTexts in *. simpl in *.
  destruct (0 <? Z.of_nat (length (nodes cur))) eqn:Hne.
  - rewrite !map_app. simpl. rewrite !concat_snoc. split; assumption.
  - assert (E : nodes cur = []) by (destruct (nodes cur); simpl in *; done).
    destruct Hinv as [_ [Hl _] _]. simpl in Hl. rewrite E in Hl.
    assert (E' : texts cur = []) by (destruct (texts cur); simpl in *; congruence).
    rewrite E, E', !app_nil_r in *. split; assumption.
Qed.

(** C1. Every chunk the chunker produces, for any list of filtered blocks,
    any character budget and any [chunkSize], has a character total (the
    sum over its blocks of the text length plus two) that is at most the
    budget, unless the chunk holds exactly one block whose own count
    (length plus two) exceeds the budget.  The stored [charCount] is that
    total. *)
Theorem chunk_within_budget_or_singleton :
  forall (maxChars : Z) (chunkSize : number) (filtered : list Block) (c : Chunk),
    c ∈ chunker maxChars chunkSize filtered ->
    charCount c = charTotal (texts c) /\
    length (nodes c) = length (texts c) /\
    (charTotal (texts c) <= maxChars \/
     exists t, texts c = [t] /\ maxChars < strlen t + 2).
Proof.
  intros maxChars chunkSize filtered c Hin.
  pose proof (chunkWith_inv maxChars (MAX_PARAS_PER_CHUNK chunkSize) filtered) as H.
  rewrite Forall_forall in H. destruct (H c Hin) as (_ & [Hl Hc] & Hsz).
  split; [exact Hc|]. split; [exact Hl|].
  destruct Hsz as [Hle|Hex]; [left; lia | right; exact Hex].
Qed.

Lemma chunk_within_budget_or_singleton_witness :
  let b := {| node := 0%nat; text := js "abc" |} in
  let c := {| nodes := [0%nat]; texts := [js "abc"]; charCount := 5 |} in
  c ∈ chunker 4 (ofZ 0) [b] /\
  (charCount c = charTotal (texts c) /\
   length (nodes c) = length (texts c) /\
   (charTotal (texts c) <= 4 \/ exists t, texts c = [t] /\ 4 < strlen t + 2)).
Proof.
  intros b c.
  assert (Hin : c ∈ chunker 4 (ofZ 0) [b]) by (vm_compute; left).
  split; [exact Hin|].
  exact (chunk_within_budget_or_singleton 4 (ofZ 0) [b] c Hin).
Defined.

(** C2. Concatenating the blocks of all produced chunks, in chunk order,
    gives back the input block sequence (nodes and texts alike), and no
    produced chunk is empty. *)
Theorem chunks_partition_input :
  forall (maxChars : Z) (chunkSize : number) (filtered : list Block),
    concat (map nodes (chunker maxChars chunkSize filtered)) = map node filtered /\
    concat (map texts (chunker maxChars chunkSize filtered)) = map text filtered /\
    Forall (fun c => nodes c <> [] /\ length (nodes c) = length (texts c))
           (chunker maxChars chunkSize filtered).
Proof.
  intros maxChars chunkSize filtered. unfold chunker.
  destruct (chunkWith_held maxChars (MAX_PARAS_PER_CHUNK chunkSize) filtered) as [Hn Ht].
  split; [exact Hn|]. split; [exact Ht|].
  eapply Forall_impl; [apply chunkWith_inv|].
  intros c (Hne & [Hl _] & _). split; assumption.
Qed.

(** ** Scenario 1 and the block-count cap *)

Lemma no_cap_never_exceeds n : num_ge (ofZ n) PosInfinity = false.
Proof. reflexivity. Qed.

Lemma chunkStep_no_cap maxChars st b :
  chunkStep maxChars PosInfinity st b = charStep maxChars st b.
Proof.
  destruct st as [chunks cur]. unfold chunkStep, charStep.
  rewrite no_cap_never_exceeds, orb_false_r. reflexivity.
Qed.

Lemma chunkWith_no_cap maxChars filtered :
  chunkWith maxChars PosInfinity filtered = chunkByCharsOnly maxChars filtered.
Proof.
  unfold chunkWith, chunkByCharsOnly, chunkLoop.
  generalize (@nil Chunk, emptyChunk).
  induction filtered as [|b bs IH]; intros st; simpl; [reflexivity|].
  rewrite chunkStep_no_cap. apply IH.
Qed.

(** C3 (as stated).  With paragraphs of 10, 4000 and 50 characters, budget
    4096 and no cap, the chunker does not produce the two chunks
    [p1,p2] (4012 characters) and [p3]: it produces one chunk. *)
Lemma scenario1_two_chunks_refuted :
  ~ (exists c1 c2,
       chunker 4096 (ofZ 0) [para 1 10; para 2 4000; para 3 50] = [c1; c2] /\
       nodes c1 = [1%nat; 2%nat] /\ charCount c1 = 4012 /\ nodes c2 = [3%nat]).
Proof.
  intros (c1 & c2 & H & _).
  apply (f_equal length) in H. vm_compute in H. discriminate H.
Qed.

(** C3 (amended).  Three blocks of 10, 4000 and 50 characters, budget 4096
    and no block-count cap give exactly one chunk holding the three blocks,
    with character total 4066. *)
Theorem scenario1_one_chunk :
  forall (chunkSize : number) (b1 b2 b3 : Block),
    MAX_PARAS_PER_CHUNK chunkSize = PosInfinity ->
    strlen (text b1) = 10 -> strlen (text b2) = 4000 -> strlen (text b3) = 50 ->
    chunker 4096 chunkSize [b1; b2; b3] =
      [ {| nodes := [node b1; node b2; node b3];
           texts := [text b1; text b2; text b3];
           charCount := 4066 |} ].
Proof.
  intros chunkSize b1 b2 b3 Hcap H1 H2 H3.
  unfold chunker. rewrite Hcap, chunkWith_no_cap.
  unfold chunkByCharsOnly, charStep. simpl.
  repeat (rewrite ?H1, ?H2, ?H3; simpl).
  unfold pushBlock. simpl. rewrite H1, H2, H3. reflexivity.
Qed.

Lemma scenario1_one_chunk_witness :
  chunker 4096 (ofZ 0) [para 1 10; para 2 4000; para 3 50] =
    [ {| nodes := [1%nat; 2%nat; 3%nat];
         texts := [text (para 1 10); text (para 2 4000); text (para 3 50)];
         charCount := 4066 |} ].
Proof.
  apply (scenario1_one_chunk (ofZ 0) (para 1 10) (para 2 4000) (para 3 50));
    vm_compute; reflexivity.
Defined.

(** C10.  A [chunkSize] that is not a positive finite number (zero,
    negative, NaN, either infinity) sets no block-count cap: the chunks are
    those of the packing by the 20000-character budget alone. *)
Theorem nonpositive_chunkSize_no_cap :
  forall (chunkSize : number) (filtered : list Block),
    Number_isFinite chunkSize && num_gt chunkSize (ofZ 0) = false ->
    MAX_PARAS_PER_CHUNK chunkSize = PosInfinity /\
    makeChunks chunkSize filtered = chunkByCharsOnly 20000 filtered.
Proof.
  intros chunkSize filtered H.
  assert (Hcap : MAX_PARAS_PER_CHUNK chunkSize = PosInfinity).
  { unfold MAX_PARAS_PER_CHUNK. rewrite H. reflexivity. }
  split; [exact Hcap|].
  unfold makeChunks, chunker, MAX_CHARS_PER_CHUNK. rewrite Hcap.
  apply chunkWith_no_cap.
Qed.

Lemma nonpositive_chunkSize_no_cap_witness :
  MAX_PARAS_PER_CHUNK (ofZ (-3)) = PosInfinity /\
  makeChunks (ofZ (-3)) [para 1 10; para 2 4000; para 3 50] =
    chunkByCharsOnly 20000 [para 1 10; para 2 4000; para 3 50].
Proof.
  apply (nonpositive_chunkSize_no_cap (ofZ (-3)) [para 1 10; para 2 4000; para 3 50]).
  reflexivity.
Defined.

(** ** The regular expressions *)

(** *** The repetition has steps enough *)

Lemma rmatch_ext {A} (r : regex) prev s (k1 k2 : option N -> jsstring -> option A) :
  (forall p s', k1 p s' = k2 p s') -> rmatch r prev s k1 = rmatch r prev s k2.
Proof.
  revert prev s k1 k2.
  induction r as [p|r1 IH1 r2 IH2|r1 IH1 r2 IH2|r1 IH1|r1 IH1| | | |];
    intros prev s k1 k2 H; cbn [rmatch].
  - destruct s as [|c s]; [reflexivity|]. rewrite H. reflexivity.
  - apply IH1. intros p s'. apply IH2. exact H.
  - rewrite (IH1 prev s k1 k2 H), (IH2 prev s k1 k2 H). reflexivity.
  - generalize (S (length s)). intros fuel. revert prev s.
    induction fuel as [|fuel IHf]; intros prev s; [reflexivity|].
    cbn [plusLoop]. apply IH1. intros p s'. rewrite H.
    destruct (length s' <? length s)%nat; [rewrite IHf|]; reflexivity.
  - rewrite (IH1 prev s k1 k2 H), H. reflexivity.
  - apply H.
  - rewrite H. reflexivity.
  - rewrite H. reflexivity.
  - rewrite H. reflexivity.
Qed.

(** Past the length of the input, the bound on the turns of a repetition
    does not matter. *)
Lemma plusLoop_fuel {A} (r : regex) (k : option N -> jsstring -> option A) fuel1 fuel2 prev s :
  (length s < fuel1)%nat -> (length s < fuel2)%nat ->
  plusLoop (rmatch r) k fuel1 prev s = plusLoop (rmatch r) k fuel2 prev s.
Proof.
  revert fuel2 prev s. induction fuel1 as [|fuel1 IH]; intros fuel2 prev s H1 H2; [lia|].
  destruct fuel2 as [|fuel2]; [lia|]. cbn [plusLoop].
  apply rmatch_ext. intros p s'.
  destruct (length s' <? length s)%nat eqn:E; [|reflexivity].
  apply Nat.ltb_lt in E. rewrite (IH fuel2 p s') by lia. reflexivity.
Qed.

(** *** Matching a literal *)

Lemma lastUnit_cons prev c w : lastUnit prev (c :: w) = lastUnit (Some c) w.
Proof.
  unfold lastUnit. destruct w as [|d w]; [reflexivity|].
  change (last (c :: d :: w)) with (last (d :: w)).
  destruct (last (d :: w)) eqn:E; [reflexivity|].
  apply last_None in E. discriminate E.
Qed.

Lemma rmatch_lit {A} (w rest : jsstring) prev (k : option N -> jsstring -> option A) :
  rmatch (lit w) prev (w ++ rest) k = k (lastUnit prev w) rest.
Proof.
  revert prev. induction w as [|c w IH]; intros prev; [reflexivity|].
  simpl. rewrite N.eqb_refl. rewrite IH, lastUnit_cons. reflexivity.
Qed.

(** A match somewhere makes [test] true. *)
Lemma testFrom_app r pre s prev n :
  matchLength r (lastUnit prev pre) s = Some n ->
  testFrom r prev (pre ++ s) = true.
Proof.
  revert prev. induction pre as [|c pre IH]; intros prev H.
  - simpl in *. unfold lastUnit in H. simpl in H.
    destruct s; simpl; rewrite H; reflexivity.
  - simpl. destruct (matchLength r prev (c :: pre ++ s)); [reflexivity|].
    apply IH. rewrite lastUnit_cons in H. exact H.
Qed.

(** ** The block extractor *)

(** *** The class attribute and the marker test *)

Lemma classNames_split tok s cur :
  tok ∈ classNames cur s ->
  exists pre post, cur ++ s = pre ++ tok ++ post /\ endsWithSpace pre /\ startsWithSpace post.
Proof.
  revert cur. induction s as [|c s IH]; intros cur Hin; simpl in Hin.
  - destruct cur as [|x cur]; simpl in Hin; [inversion Hin|].
    apply list_elem_of_singleton in Hin. subst tok.
    exists [], []. rewrite !app_nil_r. split; [reflexivity|]. split; left; reflexivity.
  - destruct (isAsciiSpace c) eqn:Hc.
    + apply elem_of_app in Hin as [Hin|Hin].
      * destruct cur as [|x cur]; simpl in Hin; [inversion Hin|].
        apply list_elem_of_singleton in Hin. subst tok.
        exists [], (c :: s). split; [reflexivity|]. split; [left; reflexivity|].
        right. exists c, s. split; [reflexivity|exact Hc].
      * destruct (IH [] Hin) as (pre & post & E & Hpre & Hpost). simpl in E.
        exists (cur ++ [c] ++ pre), post. split.
        { rewrite E, <- !app_assoc. reflexivity. }
        split; [|exact Hpost]. right.
        destruct Hpre as [->|(pre' & c' & -> & Hc')].
        -- exists cur, c. rewrite app_nil_r. split; [reflexivity|exact Hc].
        -- exists (cur ++ [c] ++ pre'), c'. rewrite <- !app_assoc. split; [reflexivity|exact Hc'].
    + destruct (IH (cur ++ [c]) Hin) as (pre & post & E & Hpre & Hpost).
      exists pre, post. rewrite <- app_assoc in E. split; [exact E|]. split; assumption.
Qed.

Lemma asciiSpace_not_word c : isAsciiSpace c = true -> isWordChar c = false.
Proof.
  unfold isAsciiSpace, isWordChar. intros H.
  repeat (apply orb_true_iff in H as [H|H]); apply N.eqb_eq in H; subst c; reflexivity.
Qed.

Lemma lastUnit_endsWithSpace pre : endsWithSpace pre -> isWordOpt (lastUnit None pre) = false.
Proof.
  intros [->|(pre' & c & -> & Hc)]; [reflexivity|].
  unfold lastUnit. rewrite last_snoc. simpl. apply asciiSpace_not_word. exact Hc.
Qed.

Lemma head_startsWithSpace post : startsWithSpace post -> isWordOpt (head post) = false.
Proof.
  intros [->|(c & post' & -> & Hc)]; [reflexivity|].
  simpl. apply asciiSpace_not_word. exact Hc.
Qed.

(** An element that bears the marker class fails the test of
    [selectLeafBlocks]. *)
Lemma marker_class_detected cls :
  BILINGUAL_CLASS ∈ classNames [] cls -> test re_bilingual cls = true.
Proof.
  intros Hin.
  destruct (classNames_split _ _ _ Hin) as (pre & post & E & Hpre & Hpost).
  simpl in E. subst cls. unfold test.
  assert (Hm : exists n, matchLength re_bilingual (lastUnit None pre) (BILINGUAL_CLASS ++ post) = Some n).
  { unfold matchLength, re_bilingual.
    cbn [rmatch]. rewrite (lastUnit_endsWithSpace pre Hpre).
    change (isWordOpt (head (BILINGUAL_CLASS ++ post))) with true.
    cbn [xorb]. rewrite rmatch_lit. cbn [rmatch].
    change (isWordOpt (lastUnit (lastUnit None pre) BILINGUAL_CLASS)) with true.
    rewrite (head_startsWithSpace post Hpost). cbn [xorb]. eexists. reflexivity. }
  destruct Hm as [n Hm]. eapply testFrom_app. exact Hm.
Qed.

(** What the two filters of [selectLeafBlocks] let through. *)
Lemma selectLeafBlocks_sound :
  forall (doc : Document) (el : Node),
    el ∈ selectLeafBlocks doc ->
    el ∈ elements (docRoot doc) /\
    isBlock el = true /\
    (forall d, d ∈ descendants el -> isBlock d = false) /\
    ~ hasClass el BILINGUAL_CLASS.
Proof.
  intros doc el Hin. unfold selectLeafBlocks in Hin.
  apply list_elem_of_In, filter_In in Hin as [Hall Hleaf].
  apply filter_In in Hall as [Hel Hblock].
  split; [apply list_elem_of_In; exact Hel|]. split; [exact Hblock|].
  destruct (test re_bilingual (default [] (attr el (js "class")))) eqn:Htest;
    [discriminate Hleaf|].
  split.
  - intros d Hd. apply Nat.eqb_eq in Hleaf.
    destruct (isBlock d) eqn:Hb; [|reflexivity].
    assert (Hd' : In d (List.filter isBlock (descendants el))).
    { apply filter_In. split; [apply list_elem_of_In; exact Hd|exact Hb]. }
    destruct (List.filter isBlock (descendants el)); [inversion Hd'|discriminate Hleaf].
  - intros Hcls. unfold hasClass in Hcls.
    apply marker_class_detected in Hcls. congruence.
Qed.

(** C4.  Every node the block extractor returns is an element of the
    document that matches the translatable-tag set, has no descendant that
    matches it, and does not bear the class [translated-bilingual]. *)
Theorem leaf_blocks_only :
  forall (doc : Document) (el : Node),
    el ∈ selectLeafBlocks doc ->
    el ∈ elements (docRoot doc) /\
    isBlock el = true /\
    (forall d, d ∈ descendants el -> isBlock d = false) /\
    ~ hasClass el BILINGUAL_CLASS.
Proof. exact selectLeafBlocks_sound. Qed.

Lemma leaf_blocks_only_witness :
  let el := Element 2%nat (js "p") [] [Text (js "one")] in
  el ∈ selectLeafBlocks sampleChapter /\
  (el ∈ elements (docRoot sampleChapter) /\
   isBlock el = true /\
   (forall d, d ∈ descendants el -> isBlock d = false) /\
   ~ hasClass el BILINGUAL_CLASS).
Proof.
  intros el.
  assert (Hin : el ∈ selectLeafBlocks sampleChapter) by (vm_compute; right; left).
  split; [exact Hin|].
  exact (leaf_blocks_only sampleChapter el Hin).
Defined.

(** ** The manifest resolution *)

Lemma truthy_None : truthy None = None.
Proof. reflexivity. Qed.

Lemma resolveSpine_malformed parse st :
  malformedArchive parse (zip st) ->
  exists msg, resolveSpine parse st = (Thrown (Error msg), st, []).
Proof.
  intros H. unfold resolveSpine, mbind, job_bind, bind, readFile.
  cbv beta iota. fold CONTAINER_PATH.
  destruct H as [H|[(c & Hc & Ha)|(c & path & Hc & Ha & Hp)]].
  - rewrite H. eexists. reflexivity.
  - rewrite Hc. destruct c as [|x c]; [eexists; reflexivity|].
    cbn [truthy]. rewrite Ha. eexists. reflexivity.
  - rewrite Hc. destruct c as [|x c]; [eexists; reflexivity|].
    cbn [truthy]. rewrite Ha.
    destruct path as [|y path]; [eexists; reflexivity|].
    cbn [truthy]. cbv beta iota. rewrite Hp. eexists. reflexivity.
Qed.

(** C6.  When the container pointer entry is absent, or its [rootfile]
    element has no [full-path] attribute, or the package document named by
    the attribute is absent, the job throws an [Error]; it has made no
    call but the two first status reports (no document was processed, no
    request sent, nothing written), and the archive is as it was. *)
Theorem malformed_archive_aborts :
  forall (parse : jsstring -> list Markup) (render : list Node -> jsstring)
         (service : nat -> Request -> Reply) (p : TranslateEpubParams) (st : JobState),
    malformedArchive parse (zip st) ->
    exists msg,
      translateEpub parse render service p st =
        (Thrown (Error msg), st,
         [SetStatus (js "Initializing..."); SetStatus (js "Unpacking EPUB...")]).
Proof.
  intros parse render service p st H.
  destruct (resolveSpine_malformed parse st H) as [msg Hr].
  exists msg. unfold translateEpub, mbind, job_bind, bind, setStatus, emit.
  rewrite Hr. reflexivity.
Qed.

Lemma malformed_archive_aborts_witness :
  exists msg,
    translateEpub XmlParser.parseXml XmlSerializer.renderXml
      (fun _ _ => Completion [])
      {| chunkSize := ofZ 0; translationMode := replace; targetLanguage := js "English";
         modelName := js "gpt"; onProgress := true |}
      {| zip := ∅; calls := 0; pauses := 0 |} =
      (Thrown (Error msg), {| zip := ∅; calls := 0; pauses := 0 |},
       [SetStatus (js "Initializing..."); SetStatus (js "Unpacking EPUB...")]).
Proof.
  apply malformed_archive_aborts. left. reflexivity.
Defined.

(** ** Reasoning about jobs *)

Lemma bind_inv {A B} (m : Job A) (f : A -> Job B) st r st' ev :
  (m ≫= f) st = (r, st', ev) ->
  (exists a st1 ev1 ev2,
     m st = (Returned a, st1, ev1) /\ f a st1 = (r, st', ev2) /\ ev = ev1 ++ ev2) \/
  (exists e, m st = (Thrown e, st', ev) /\ r = Thrown e) \/
  (m st = (Pending, st', ev) /\ r = Pending).
Proof.
  unfold mbind, job_bind, bind. destruct (m st) as [[[a|e|] st1] ev1].
  - destruct (f a st1) as [[r2 st2] ev2] eqn:Hf. intros [= <- <- <-].
    left. exists a, st1, ev1, ev2. auto.
  - intros [= <- <- <-]. right. left. exists e. auto.
  - intros [= <- <- <-]. right. right. auto.
Qed.

Lemma replay_app z ev1 ev2 : replay z (ev1 ++ ev2) = replay (replay z ev1) ev2.
Proof.
  revert z. induction ev1 as [|e ev1 IH]; intros z; [reflexivity|].
  destruct e; simpl; apply IH.
Qed.

Lemma replay_quiet z ev : quiet ev -> replay z ev = z.
Proof.
  induction 1 as [|e ev [Hw _] _ IH]; [reflexivity|].
  simpl. destruct e; try discriminate Hw; exact IH.
Qed.

Lemma tame_ret {A} (a : A) : tame (ret a).
Proof. intros st r st' ev [= <- <- <-]. split; [constructor|auto]. Qed.

Lemma tame_throw {A} e : tame (@throw A e).
Proof. intros st r st' ev [= <- <- <-]. split; [constructor|auto]. Qed.

Lemma tame_setStatus s : tame (setStatus s).
Proof.
  intros st r st' ev [= <- <- <-]. split; [|auto].
  constructor; [split; reflexivity|constructor].
Qed.

Lemma tame_bind {A B} (m : Job A) (f : A -> Job B) :
  tame m -> (forall a, tame (f a)) -> tame (m ≫= f).
Proof.
  intros Hm Hf st r st' ev H.
  apply bind_inv in H as [(a & st1 & ev1 & ev2 & H1 & H2 & ->)|[(e & H1 & ->)|[H1 ->]]].
  - destruct (Hm _ _ _ _ H1) as (Q1 & Z1 & P1).
    destruct (Hf a _ _ _ _ H2) as (Q2 & Z2 & P2).
    split; [apply Forall_app; split; assumption|]. split; congruence.
  - exact (Hm _ _ _ _ H1).
  - exact (Hm _ _ _ _ H1).
Qed.

Lemma tame_callService service req : tame (callService service req).
Proof.
  intros st r st' ev. unfold callService.
  destruct (service (calls st) req); intros [= <- <- <-];
    (split; [constructor; [split; reflexivity|constructor]|split; reflexivity]).
Qed.

Lemma tame_translatedParagraphsOf choices : tame (translatedParagraphsOf choices).
Proof. destruct choices; [apply tame_throw|apply tame_ret]. Qed.

Lemma tame_foldJob {A B} (l : list A) (body : B -> A -> Job B) b :
  (forall b x, tame (body b x)) -> tame (foldJob l body b).
Proof.
  intros Hb. revert b. induction l as [|x l IH]; intros b; simpl.
  - apply tame_ret.
  - apply tame_bind; [apply Hb|intros b'; apply IH].
Qed.

(** ** The pause gate *)

Lemma quiet_gateless ev : quiet ev -> gateless ev.
Proof. intros H. eapply Forall_impl; [exact H|]. intros e [_ He]. exact He. Qed.

Lemma gates_gateless ev : gateless ev -> gates ev = 0%nat.
Proof.
  unfold gates. induction 1 as [|e ev He _ IH]; [reflexivity|].
  simpl. rewrite He. exact IH.
Qed.

Lemma gates_app ev1 ev2 : gates (ev1 ++ ev2) = (gates ev1 + gates ev2)%nat.
Proof. unfold gates. rewrite List.filter_app, length_app. reflexivity. Qed.

(** A gate is not inside a gateless prefix. *)
Lemma gate_after_gateless g rest pre post :
  gateless g ->
  g ++ rest = pre ++ AwaitPause :: post ->
  exists pre2, pre = g ++ pre2 /\ rest = pre2 ++ AwaitPause :: post.
Proof.
  intros Hg. revert pre. induction Hg as [|e g He _ IH]; intros pre E; simpl in E.
  - exists pre. auto.
  - destruct pre as [|e' pre]; simpl in E.
    + injection E as -> _. discriminate He.
    + injection E as -> E. destruct (IH pre E) as (pre2 & -> & ->).
      exists pre2. auto.
Qed.

(** The documents a job starts on. *)
Lemma started_app ev1 ev2 : started (ev1 ++ ev2) = started ev1 ++ started ev2.
Proof. apply omap_app. Qed.

Lemma started_processing path : started [processing path] = [path].
Proof.
  unfold started, processing. cbn [omap list_omap startedDocument].
  rewrite bool_decide_eq_true_2 by (exists path; reflexivity). reflexivity.
Qed.

Lemma started_translating s : started [SetStatus (js "Translating chunk " ++ s)] = [].
Proof.
  unfold started. cbn [omap list_omap startedDocument].
  rewrite bool_decide_eq_false_2; [reflexivity|].
  intros [k E]. discriminate E.
Qed.

Lemma steady_ret {A} (a : A) : steady (ret a).
Proof. intros st r st' ev [= <- <- <-]. reflexivity. Qed.

Lemma steady_throw {A} e : steady (@throw A e).
Proof. intros st r st' ev [= <- <- <-]. reflexivity. Qed.

Lemma steady_bind {A B} (m : Job A) (f : A -> Job B) :
  steady m -> (forall a, steady (f a)) -> steady (m ≫= f).
Proof.
  intros Hm Hf st r st' ev H.
  apply bind_inv in H as [(a & st1 & ev1 & ev2 & H1 & H2 & ->)|[(e & H1 & ->)|[H1 ->]]].
  - rewrite started_app, (Hm _ _ _ _ H1), (Hf a _ _ _ _ H2). reflexivity.
  - exact (Hm _ _ _ _ H1).
  - exact (Hm _ _ _ _ H1).
Qed.

Lemma steady_callService service req : steady (callService service req).
Proof.
  intros st r st' ev. unfold callService.
  destruct (service (calls st) req); intros [= <- <- <-]; reflexivity.
Qed.

Lemma steady_translatedParagraphsOf choices : steady (translatedParagraphsOf choices).
Proof. destruct choices; [apply steady_throw|apply steady_ret]. Qed.

Lemma steady_foldJob {A B} (l : list A) (body : B -> A -> Job B) b :
  (forall b x, steady (body b x)) -> steady (foldJob l body b).
Proof.
  intros Hb. revert b. induction l as [|x l IH]; intros b; simpl.
  - apply steady_ret.
  - apply steady_bind; [apply Hb|intros b'; apply IH].
Qed.

Lemma gateless_snoc_gate g : ~ gateless (g ++ [AwaitPause]).
Proof.
  intros H. apply Forall_app in H as [_ H]. inversion H as [|e l He _]. discriminate He.
Qed.

Section Gate.
Variable parse : jsstring -> list Markup.
Variable render : list Node -> jsstring.
Variable service : nat -> Request -> Reply.
Variable getPausePromise : option (nat -> Settled).
Variable slices : number -> list DomElement -> option (list (list DomElement)).
Variable p : WithPause.TranslateEpubParams.

Lemma tame_translateChunk filePath total doc ic :
  tame (WithPause.translateChunk parse service p filePath total doc ic).
Proof.
  destruct ic as [i chunk]. unfold WithPause.translateChunk.
  apply tame_bind; [apply tame_setStatus|intros _].
  apply tame_bind; [apply tame_callService|intros choices].
  apply tame_bind; [apply tame_translatedParagraphsOf|intros tp].
  apply tame_ret.
Qed.

Lemma progressPart_quiet spine path doc st r st' ev :
  reportProgress render (WithPause.onProgress p) spine path doc st = (r, st', ev) ->
  r = Returned () /\ st' = st /\ progressPart (WithPause.onProgress p) path ev.
Proof.
  unfold reportProgress, progressPart. destruct (WithPause.onProgress p).
  - intros [= <- <- <-]. split; [reflexivity|]. split; [reflexivity|].
    eexists. split; reflexivity.
  - intros [= <- <- <-]. auto.
Qed.

Lemma pauseGate_inv st r st' ev :
  WithPause.pauseGate getPausePromise st = (r, st', ev) ->
  (getPausePromise = None /\ r = Returned () /\ st' = st /\ ev = []) \/
  (exists promise, getPausePromise = Some promise /\
     r = settle (promise (pauses st)) /\ zip st' = zip st /\
     pauses st' = S (pauses st) /\ ev = [AwaitPause]).
Proof.
  unfold WithPause.pauseGate. destruct getPausePromise as [promise|].
  - intros H. right. exists promise. split; [reflexivity|].
    destruct (promise (pauses st)); injection H as <- <- <-; auto.
  - intros [= <- <- <-]. left. auto.
Qed.

Lemma progressPart_not_write path pp z :
  progressPart (WithPause.onProgress p) path pp -> replay z pp = z /\ gateless pp.
Proof.
  unfold progressPart. destruct (WithPause.onProgress p).
  - intros (prog & -> & _). split; [reflexivity|]. constructor; [reflexivity|constructor].
  - intros ->. split; [reflexivity|constructor].
Qed.

Lemma processFile_turn spine path st r st' ev :
  WithPause.processFile parse render service getPausePromise slices p spine path st = (r, st', ev) -> turn getPausePromise (WithPause.onProgress p) path st r st' ev.
Proof.
  unfold WithPause.processFile. intros H.
  apply bind_inv in H as [(u & sa & eva & evb & Ha & H & ->)|[(e & Ha & _)|[Ha _]]];
    [|discriminate Ha|discriminate Ha].
  injection Ha as _ <- <-.
  change ([SetStatus (js "Processing: " ++ path)] ++ evb) with (processing path :: evb).
  apply bind_inv in H as [(fc & sb & evc & evd & Hb & H & ->)|[(e & Hb & _)|[Hb _]]];
    [|discriminate Hb|discriminate Hb].
  injection Hb as <- <- <-. cbn [app].
  destruct (zip st !! path) as [fileContent|].
  2:{ injection H as <- <- <-. apply turn_stop; [constructor|reflexivity|reflexivity]. }
  destruct (length _ =? 0)%nat.
  { injection H as <- <- <-. apply turn_stop; [constructor|reflexivity|reflexivity]. }
  destruct (slices _ _) as [chunks|].
  2:{ injection H as <- <- <-. apply turn_stop; [constructor|reflexivity|reflexivity]. }
  apply bind_inv in H as [(doc & sc & body & eve & Hc & H & ->)|[(e & Hc & ->)|[Hc ->]]];
    destruct (tame_foldJob _ _ _ (tame_translateChunk path (length chunks)) _ _ _ _ Hc)
      as (Hq & Hz & Hp);
    [|apply turn_stop; assumption..].
  apply bind_inv in H as [(u' & sd & evf & evg & Hd & H & ->)|[(e & Hd & _)|[Hd _]]];
    [|discriminate Hd|discriminate Hd].
  injection Hd as _ <- <-.
  apply bind_inv in H as [(u'' & se & pp & evh & He & H & ->)|[(e & He & ->)|[He ->]]];
    apply progressPart_quiet in He as (E & -> & Hpp); try discriminate E.
  apply pauseGate_inv in H as [(Hnone & -> & -> & ->)|(promise & Hsome & -> & Hz' & Hp' & ->)].
  - rewrite app_nil_r. cbn [app].
    apply turn_written; cbn [pauses zip]; [assumption..|congruence|congruence].
  - cbn [app pauses zip] in *. rewrite Hp.
    apply turn_gate; [assumption..|congruence|congruence].
Qed.

Lemma beforeGate_app g pre : beforeGate (WithPause.onProgress p) pre -> beforeGate (WithPause.onProgress p) (g ++ pre).
Proof.
  intros (pre' & path & content & pp & -> & Hpp).
  exists (g ++ pre'), path, content, pp. rewrite <- app_assoc. auto.
Qed.

(** What a turn leaves: the archive with its write, the promise count
    with its gate, and a gate, if any, as the last event. *)
Lemma turn_facts path st r st' ev :
  turn getPausePromise (WithPause.onProgress p) path st r st' ev ->
  zip st' = replay (zip st) ev /\
  pauses st' = (pauses st + gates ev)%nat /\
  (exists rest, ev = processing path :: rest) /\
  (gateless ev \/
   exists g promise,
     ev = g ++ [AwaitPause] /\ gateless g /\ beforeGate (WithPause.onProgress p) g /\
     getPausePromise = Some promise /\ r = settle (promise (pauses st))).
Proof.
  intros [r' st1 body Hq Hz Hp | st1 body content pp Hn Hq Hpp Hz Hp
         | promise st1 body content pp Hs Hq Hpp Hz Hp].
  - assert (Hg : gateless (processing path :: body)).
    { constructor; [reflexivity|apply quiet_gateless; exact Hq]. }
    split; [|split; [|split]].
    + unfold processing. cbn [replay].
      rewrite (replay_quiet _ body Hq). exact Hz.
    + rewrite gates_gateless by exact Hg. lia.
    + eexists. reflexivity.
    + left. exact Hg.
  - destruct (progressPart_not_write path pp (<[path:=content]> (zip st)) Hpp) as [Hr Hgl].
    assert (Hg : gateless (processing path :: body ++ WriteFile path content :: pp)).
    { constructor; [reflexivity|]. apply Forall_app. split; [apply quiet_gateless; exact Hq|].
      constructor; [reflexivity|exact Hgl]. }
    split; [|split; [|split]].
    + unfold processing. cbn [replay].
      rewrite replay_app, (replay_quiet _ body Hq). cbn [replay].
      rewrite Hr. exact Hz.
    + rewrite gates_gateless by exact Hg. lia.
    + eexists. reflexivity.
    + left. exact Hg.
  - destruct (progressPart_not_write path pp (<[path:=content]> (zip st)) Hpp) as [Hr Hgl].
    assert (Hg : gateless (processing path :: body ++ WriteFile path content :: pp)).
    { constructor; [reflexivity|]. apply Forall_app. split; [apply quiet_gateless; exact Hq|].
      constructor; [reflexivity|exact Hgl]. }
    assert (E : processing path :: body ++ WriteFile path content :: pp ++ [AwaitPause]
                = (processing path :: body ++ WriteFile path content :: pp) ++ [AwaitPause]).
    { cbn [app]. rewrite <- app_assoc. reflexivity. }
    rewrite E. split; [|split; [|split]].
    + rewrite replay_app. unfold processing. cbn [replay].
      rewrite replay_app, (replay_quiet _ body Hq). cbn [replay].
      rewrite Hr. exact Hz.
    + rewrite gates_app, gates_gateless by exact Hg. unfold gates. simpl. lia.
    + eexists. cbn [app]. reflexivity.
    + right. eexists _, promise. split; [reflexivity|]. split; [exact Hg|].
      split; [|auto].
      exists (processing path :: body), path, content, pp. auto.
Qed.

Lemma settle_returned s u : settle s = Returned u -> s = Resolves.
Proof. destruct s; [reflexivity|discriminate|discriminate]. Qed.

(** The loop over the spine. *)
Lemma loop_gates spine l st r st' ev :
  forEach l (WithPause.processFile parse render service getPausePromise slices p spine) st = (r, st', ev) ->
  zip st' = replay (zip st) ev /\
  pauses st' = (pauses st + gates ev)%nat /\
  afterGate ev /\
  gatesAtBoundaries getPausePromise (WithPause.onProgress p) (pauses st) ev.
Proof.
  revert st r st' ev. induction l as [|path l IH]; intros st r st' ev H.
  - injection H as <- <- <-. split; [reflexivity|]. split; [unfold gates; simpl; lia|].
    split; [left; reflexivity|]. intros pre post E. destruct pre; discriminate E.
  - cbn [forEach] in H.
    assert (Hsplit : exists r1 st1 ev1 ev2,
               turn getPausePromise (WithPause.onProgress p) path st r1 st1 ev1 /\ ev = ev1 ++ ev2 /\
               zip st' = replay (zip st1) ev2 /\
               pauses st' = (pauses st1 + gates ev2)%nat /\
               afterGate ev2 /\ gatesAtBoundaries getPausePromise (WithPause.onProgress p) (pauses st1) ev2 /\
               (ev2 = [] \/ exists u, r1 = Returned u)).
    { apply bind_inv in H as [(u & st1 & ev1 & ev2 & H1 & H2 & ->)|[(e & H1 & ->)|[H1 ->]]].
      - apply processFile_turn in H1. destruct (IH _ _ _ _ H2) as (Hz & Hp & Ha & Hg).
        exists (Returned u), st1, ev1, ev2.
        split; [exact H1|]. split; [reflexivity|]. split; [exact Hz|].
        split; [exact Hp|]. split; [exact Ha|]. split; [exact Hg|]. right. eauto.
      - apply processFile_turn in H1.
        exists (Thrown e), st', ev, []. rewrite app_nil_r.
        split; [exact H1|]. split; [reflexivity|]. split; [reflexivity|].
        split; [unfold gates; simpl; lia|]. split; [left; reflexivity|].
        split; [|left; reflexivity].
        intros pre post E. destruct pre; discriminate E.
      - apply processFile_turn in H1.
        exists Pending, st', ev, []. rewrite app_nil_r.
        split; [exact H1|]. split; [reflexivity|]. split; [reflexivity|].
        split; [unfold gates; simpl; lia|]. split; [left; reflexivity|].
        split; [|left; reflexivity].
        intros pre post E. destruct pre; discriminate E. }
    destruct Hsplit as (r1 & st1 & ev1 & ev2 & Hturn & -> & Hz & Hp & Ha & Hg & Hend).
    destruct (turn_facts _ _ _ _ _ Hturn) as (Hz1 & Hp1 & (rest & Hrest) & Hshape).
    split; [rewrite replay_app, <- Hz1; exact Hz|].
    split; [rewrite gates_app; lia|].
    split; [right; exists path, (rest ++ ev2); rewrite Hrest; reflexivity|].
    intros pre post E.
    destruct Hshape as [Hgl|(g & promise & -> & Hgl & Hbefore & Hsome & Hr1)].
    + destruct (gate_after_gateless _ _ _ _ Hgl E) as (pre2 & -> & E2).
      destruct (Hg _ _ E2) as (Hb & Haft & Hblock).
      split; [apply beforeGate_app; exact Hb|]. split; [exact Haft|].
      intros promise Hsome. rewrite gates_app, (gates_gateless _ Hgl).
      rewrite gates_gateless in Hp1 by exact Hgl.
      replace (pauses st + (0 + gates pre2))%nat with (pauses st1 + gates pre2)%nat by lia.
      apply Hblock. exact Hsome.
    + rewrite <- app_assoc in E. cbn [app] in E.
      destruct (gate_after_gateless _ _ _ _ Hgl E) as (pre2 & -> & E2).
      destruct pre2 as [|e pre2]; cbn [app] in E2.
      * injection E2 as E2. subst post. rewrite app_nil_r. split; [exact Hbefore|]. split; [exact Ha|].
        intros promise' Hsome' Hnot.
        destruct Hend as [->|[u Hu]]; [reflexivity|].
        rewrite Hsome in Hsome'. injection Hsome' as <-.
        rewrite gates_gateless in Hnot by exact Hgl. rewrite Nat.add_0_r in Hnot.
        rewrite Hu in Hr1. symmetry in Hr1. apply settle_returned in Hr1. contradiction.
      * injection E2 as <- E2. destruct (Hg _ _ E2) as (Hb & Haft & Hblock).
        split.
        { replace (g ++ AwaitPause :: pre2) with ((g ++ [AwaitPause]) ++ pre2)
            by (rewrite <- app_assoc; reflexivity).
          apply beforeGate_app. exact Hb. }
        split; [exact Haft|].
        intros promise' Hsome'.
        rewrite gates_app, (gates_gateless _ Hgl).
        rewrite gates_app, (gates_gateless _ Hgl) in Hp1.
        replace (pauses st + (0 + gates (AwaitPause :: pre2)))%nat
          with (pauses st1 + gates pre2)%nat by (unfold gates in *; simpl in *; lia).
        apply Hblock. exact Hsome'.
Qed.

Lemma resolveSpine_silent st r st' ev :
  resolveSpine parse st = (r, st', ev) -> st' = st /\ ev = [].
Proof.
  unfold resolveSpine, mbind, job_bind, bind, readFile, throw, ret. cbv beta iota.
  destruct (truthy (zip st !! js "META-INF/container.xml")) as [c|];
    [|intros [= <- <- <-]; auto].
  destruct (truthy (attrFirst _ _)) as [path|]; [|intros [= <- <- <-]; auto].
  destruct (truthy (zip st !! path)) as [opf|]; intros [= <- <- <-]; auto.
Qed.

Lemma job_gates st r st' ev :
  WithPause.translateEpub parse render service getPausePromise slices p st = (r, st', ev) ->
  zip st' = replay (zip st) ev /\ gatesAtBoundaries getPausePromise (WithPause.onProgress p) (pauses st) ev.
Proof.
  unfold WithPause.translateEpub. intros H.
  apply bind_inv in H as [(u & sa & eva & evb & Ha & H & ->)|[(e & Ha & _)|[Ha _]]];
    [|discriminate Ha|discriminate Ha].
  injection Ha as _ <- <-.
  apply bind_inv in H as [(u' & sb & evc & evd & Hb & H & ->)|[(e & Hb & _)|[Hb _]]];
    [|discriminate Hb|discriminate Hb].
  injection Hb as _ <- <-.
  assert (Hloop : exists sc, zip st' = zip sc /\ zip sc = replay (zip st) evd /\
                    gatesAtBoundaries getPausePromise (WithPause.onProgress p) (pauses st) evd).
  { apply bind_inv in H as [(spine & sc & eve & evf & Hc & H & ->)|[(e & Hc & ->)|[Hc ->]]];
      apply resolveSpine_silent in Hc as [-> ->].
    - cbn [app].
      apply bind_inv in H as [(u'' & sd & evg & evh & Hd & H & ->)|[(e & Hd & ->)|[Hd ->]]];
        destruct (loop_gates _ _ _ _ _ _ Hd) as (Hz & _ & _ & Hg).
      + injection H as _ <- <-. rewrite app_nil_r. exists sd. auto.
      + eexists. split; [reflexivity|]. auto.
      + eexists. split; [reflexivity|]. auto.
    - eexists. split; [reflexivity|]. split; [reflexivity|].
      intros pre post E. destruct pre; discriminate E.
    - eexists. split; [reflexivity|]. split; [reflexivity|].
      intros pre post E. destruct pre; discriminate E. }
  destruct Hloop as (sc & Hz1 & Hz2 & Hg).
  split; [rewrite Hz1, Hz2; reflexivity|].
  intros pre post E.
  assert (Hgl : gateless [SetStatus (js "Initializing..."); SetStatus (js "Unpacking EPUB...")]).
  { repeat constructor. }
  change ([SetStatus (js "Initializing...")] ++ [SetStatus (js "Unpacking EPUB...")] ++ evd)
    with ([SetStatus (js "Initializing..."); SetStatus (js "Unpacking EPUB...")] ++ evd) in E.
  destruct (gate_after_gateless _ _ _ _ Hgl E) as (pre2 & -> & E2).
  destruct (Hg _ _ E2) as (Hb & Haft & Hblock).
  split; [apply beforeGate_app; exact Hb|]. split; [exact Haft|].
  intros promise Hsome. rewrite gates_app, (gates_gateless _ Hgl). apply Hblock. exact Hsome.
Qed.
(** *** Where a gate stands in the spine *)

Lemma steady_translateChunk filePath total doc ic :
  steady (WithPause.translateChunk parse service p filePath total doc ic).
Proof.
  destruct ic as [i chunk]. unfold WithPause.translateChunk.
  apply steady_bind.
  { intros st r st' ev [= <- <- <-]. apply started_translating. }
  intros _. apply steady_bind; [apply steady_callService|intros choices].
  apply steady_bind; [apply steady_translatedParagraphsOf|intros tp].
  apply steady_ret.
Qed.

Lemma steady_reportProgress spine path doc :
  steady (reportProgress render (WithPause.onProgress p) spine path doc).
Proof.
  unfold reportProgress. destruct (WithPause.onProgress p); [|apply steady_ret].
  intros st r st' ev [= <- <- <-]. reflexivity.
Qed.

Lemma steady_pauseGate : steady (WithPause.pauseGate getPausePromise).
Proof.
  intros st r st' ev H.
  apply pauseGate_inv in H as [(_ & _ & _ & ->)|(promise & _ & _ & _ & _ & ->)]; reflexivity.
Qed.

(** A turn of the loop starts on its own document and on no other. *)
Lemma processFile_started spine path st r st' ev :
  WithPause.processFile parse render service getPausePromise slices p spine path st
    = (r, st', ev) ->
  started ev = [path].
Proof.
  unfold WithPause.processFile. intros H.
  apply bind_inv in H as [(u & sa & eva & evb & Ha & H & ->)|[(e & Ha & _)|[Ha _]]];
    [|discriminate Ha|discriminate Ha].
  injection Ha as _ <- <-.
  change (started ([processing path] ++ evb) = [path]).
  rewrite started_app, started_processing.
  enough (Hs : started evb = []) by (rewrite Hs; reflexivity).
  revert H. generalize st r st' evb. clear. intros st r st' ev. revert st r st' ev.
  apply steady_bind; [intros st r st' ev [= <- <- <-]; reflexivity|intros fileContent].
  destruct fileContent as [fileContent|]; [|apply steady_throw].
  destruct (length _ =? 0)%nat; [apply steady_ret|].
  destruct (slices _ _) as [chunks|]; [|intros st r st' ev [= <- <- <-]; reflexivity].
  apply steady_bind; [apply steady_foldJob; intros b x; apply steady_translateChunk|].
  intros content'. apply steady_bind; [intros st r st' ev [= <- <- <-]; reflexivity|].
  intros _. apply steady_bind; [apply steady_reportProgress|intros _; apply steady_pauseGate].
Qed.

(** The events of a turn have no gate, or end with the gate that follows
    the write-back of the turn's own document. *)
Lemma turn_shape path st r st' ev :
  turn getPausePromise (WithPause.onProgress p) path st r st' ev ->
  gateless ev \/
  exists promise g content pp,
    ev = (g ++ WriteFile path content :: pp) ++ [AwaitPause] /\
    gateless (g ++ WriteFile path content :: pp) /\
    progressPart (WithPause.onProgress p) path pp /\
    getPausePromise = Some promise /\ r = settle (promise (pauses st)).
Proof.
  intros [r' st1 body Hq Hz Hp | st1 body content pp Hn Hq Hpp Hz Hp
         | promise st1 body content pp Hs Hq Hpp Hz Hp].
  - left. constructor; [reflexivity|apply quiet_gateless; exact Hq].
  - left. destruct (progressPart_not_write path pp (zip st) Hpp) as [_ Hgl].
    constructor; [reflexivity|]. apply Forall_app. split; [apply quiet_gateless; exact Hq|].
    constructor; [reflexivity|exact Hgl].
  - right. destruct (progressPart_not_write path pp (zip st) Hpp) as [_ Hgl].
    exists promise, (processing path :: body), content, pp.
    split; [cbn [app]; rewrite <- !app_assoc; reflexivity|].
    split; [|auto].
    constructor; [reflexivity|]. apply Forall_app. split; [apply quiet_gateless; exact Hq|].
    constructor; [reflexivity|exact Hgl].
Qed.

(** The loop over [l] starts with the first document of [l]. *)
Lemma loop_starts spine l st r st' ev :
  forEach l (WithPause.processFile parse render service getPausePromise slices p spine) st
    = (r, st', ev) ->
  resumesWith l ev.
Proof.
  destruct l as [|next l]; cbn [forEach resumesWith]; [intros [= <- <- <-]; reflexivity|].
  intros H.
  apply bind_inv in H as [(u & st1 & ev1 & ev2 & H1 & H2 & ->)|[(e & H1 & ->)|[H1 ->]]];
    apply processFile_turn in H1;
    destruct (turn_facts _ _ _ _ _ H1) as (_ & _ & (rest & ->) & _).
  - exists (rest ++ ev2). reflexivity.
  - exists rest. reflexivity.
  - exists rest. reflexivity.
Qed.

Lemma loop_resumes spine l st r st' ev :
  forEach l (WithPause.processFile parse render service getPausePromise slices p spine) st
    = (r, st', ev) ->
  forall pre post,
    ev = pre ++ AwaitPause :: post ->
    exists done path rest,
      l = done ++ path :: rest /\
      gateAfterDocument getPausePromise (WithPause.onProgress p) (pauses st + gates pre)
        done path rest pre post.
Proof.
  revert st r st' ev. induction l as [|path l IH]; intros st r st' ev H pre post E.
  { injection H as <- <- <-. destruct pre; discriminate E. }
  cbn [forEach] in H.
  assert (Hsplit : exists r1 st1 ev1 ev2,
             WithPause.processFile parse render service getPausePromise slices p spine path st
               = (r1, st1, ev1) /\
             ev = ev1 ++ ev2 /\
             (forall pre2 post2, ev2 = pre2 ++ AwaitPause :: post2 ->
                exists done path' rest,
                  l = done ++ path' :: rest /\
                  gateAfterDocument getPausePromise (WithPause.onProgress p)
                    (pauses st1 + gates pre2) done path' rest pre2 post2) /\
             (forall u, r1 = Returned u -> resumesWith l ev2)).
  { apply bind_inv in H as [(u & st1 & ev1 & ev2 & H1 & H2 & ->)|[(e & H1 & ->)|[H1 ->]]].
    - exists (Returned u), st1, ev1, ev2. split; [exact H1|]. split; [reflexivity|].
      split; [exact (IH _ _ _ _ H2)|]. intros _ _. exact (loop_starts _ _ _ _ _ _ H2).
    - exists (Thrown e), st', ev, []. rewrite app_nil_r. split; [exact H1|].
      split; [reflexivity|]. split; [|discriminate].
      intros pre2 post2 E2. destruct pre2; discriminate E2.
    - exists Pending, st', ev, []. rewrite app_nil_r. split; [exact H1|].
      split; [reflexivity|]. split; [|discriminate].
      intros pre2 post2 E2. destruct pre2; discriminate E2. }
  destruct Hsplit as (r1 & st1 & ev1 & ev2 & H1 & -> & Hlater & Hnext).
  pose proof (processFile_started _ _ _ _ _ _ H1) as Hstarted.
  apply processFile_turn in H1.
  destruct (turn_facts _ _ _ _ _ H1) as (_ & Hp1 & _ & _).
  assert (Hin : forall pre2,
            ev2 = pre2 ++ AwaitPause :: post -> pre = ev1 ++ pre2 ->
            exists done path' rest,
              path :: l = done ++ path' :: rest /\
              gateAfterDocument getPausePromise (WithPause.onProgress p)
                (pauses st + gates pre) done path' rest pre post).
  { intros pre2 E2 ->.
    destruct (Hlater _ _ E2) as (done & path' & rest & -> & Hs & (pre' & content & pp & -> & Hpp) & Hres).
    exists (path :: done), path', rest. split; [reflexivity|].
    split; [rewrite started_app, Hstarted, Hs; reflexivity|].
    split.
    - exists (ev1 ++ pre'), content, pp. rewrite <- app_assoc. auto.
    - intros promise Hsome Hr. apply (Hres promise Hsome).
      rewrite gates_app in Hr. rewrite Hp1.
      replace (pauses st + gates ev1 + gates (pre' ++ WriteFile path' content :: pp))%nat
        with (pauses st + (gates ev1 + gates (pre' ++ WriteFile path' content :: pp)))%nat
        by lia.
      exact Hr. }
  destruct (turn_shape _ _ _ _ _ H1)
    as [Hgl|(promise & g & content & pp & -> & Hgl & Hpp & Hsome & Hr1)].
  - destruct (gate_after_gateless _ _ _ _ Hgl E) as (pre2 & -> & E2).
    apply (Hin pre2 E2). reflexivity.
  - rewrite <- app_assoc in E. cbn [app] in E.
    destruct (gate_after_gateless _ _ _ _ Hgl E) as (pre2 & -> & E2).
    destruct pre2 as [|e pre2]; cbn [app] in E2.
    + injection E2 as E2. subst post. rewrite app_nil_r.
      exists [], path, l. split; [reflexivity|].
      rewrite started_app in Hstarted.
      change (started [AwaitPause]) with (@nil jsstring) in Hstarted.
      rewrite app_nil_r in Hstarted.
      split; [exact Hstarted|]. split; [exists g, content, pp; auto|].
      intros promise' Hsome' Hres.
      rewrite Hsome in Hsome'. injection Hsome' as <-.
      rewrite gates_gateless in Hres by exact Hgl. rewrite Nat.add_0_r in Hres.
      rewrite Hres in Hr1. exact (Hnext () Hr1).
    + injection E2 as <- E2.
      apply (Hin pre2 E2).
      rewrite <- (app_assoc (g ++ WriteFile path content :: pp) [AwaitPause] pre2).
      reflexivity.
Qed.

Lemma job_resumes st r st' ev :
  WithPause.translateEpub parse render service getPausePromise slices p st = (r, st', ev) ->
  forall pre post,
    ev = pre ++ AwaitPause :: post ->
    exists spine done path rest,
      resolveSpine parse st = (Returned spine, st, []) /\
      spine = done ++ path :: rest /\
      gateAfterDocument getPausePromise (WithPause.onProgress p) (pauses st + gates pre)
        done path rest pre post.
Proof.
  unfold WithPause.translateEpub. intros H pre post E.
  apply bind_inv in H as [(u & sa & eva & evb & Ha & H & ->)|[(e & Ha & _)|[Ha _]]];
    [|discriminate Ha|discriminate Ha].
  injection Ha as _ <- <-.
  apply bind_inv in H as [(u' & sb & evc & evd & Hb & H & ->)|[(e & Hb & _)|[Hb _]]];
    [|discriminate Hb|discriminate Hb].
  injection Hb as _ <- <-.
  assert (Hgl : gateless [SetStatus (js "Initializing..."); SetStatus (js "Unpacking EPUB...")]).
  { repeat constructor. }
  change ([SetStatus (js "Initializing...")] ++ [SetStatus (js "Unpacking EPUB...")] ++ evd)
    with ([SetStatus (js "Initializing..."); SetStatus (js "Unpacking EPUB...")] ++ evd) in E.
  destruct (gate_after_gateless _ _ _ _ Hgl E) as (pre2 & -> & E2).
  assert (Hloop : exists spine sd r' evg,
            resolveSpine parse st = (Returned spine, st, []) /\
            forEach spine
              (WithPause.processFile parse render service getPausePromise slices p spine) st
              = (r', sd, evg) /\ evd = evg).
  { apply bind_inv in H as [(spine & sc & eve & evf & Hc & H & ->)|[(e & Hc & ->)|[Hc ->]]];
      pose proof (resolveSpine_silent _ _ _ _ Hc) as [-> ->];
      [|destruct pre2; discriminate E2..].
    cbn [app].
    apply bind_inv in H as [(u'' & sd & evg & evh & Hd & H & ->)|[(e & Hd & ->)|[Hd ->]]].
    - injection H as _ _ <-. rewrite app_nil_r. eauto 10.
    - eauto 10.
    - eauto 10. }
  destruct Hloop as (spine & sd & r' & evg & Hspine & Hd & ->).
  destruct (loop_resumes _ _ _ _ _ _ Hd _ _ E2)
    as (done & path & rest & -> & Hs & (pre' & content & pp & -> & Hpp) & Hres).
  exists (done ++ path :: rest), done, path, rest. split; [exact Hspine|].
  split; [reflexivity|]. split; [|split].
  - rewrite started_app, Hs. reflexivity.
  - exists ([SetStatus (js "Initializing..."); SetStatus (js "Unpacking EPUB...")] ++ pre'),
      content, pp.
    rewrite <- app_assoc. auto.
  - intros promise Hsome Hr. apply (Hres promise Hsome).
    rewrite gates_app, (gates_gateless _ Hgl) in Hr. exact Hr.
Qed.
End Gate.

(** C9.  In any run of the job, the archive is what the logged writes made
    of it, and every await of the pause promise stands at a document
    boundary: it comes right after the write-back of a document and its
    progress report (never after a chunk request); that document is one
    of the spine, and the documents started so far are the spine up to
    it; when the promise resolves the job goes on with the document that
    follows it in the spine, and ends if it was the last; unless the
    promise resolves nothing follows at all, so nothing is written while
    the job is paused. *)
Theorem pause_gate_only_between_documents :
  forall (parse : jsstring -> list Markup) (render : list Node -> jsstring)
         (service : nat -> Request -> Reply)
         (getPausePromise : option (nat -> Settled))
         (slices : number -> list DomElement -> option (list (list DomElement)))
         (p : WithPause.TranslateEpubParams) (st st' : JobState) (r : Outcome Archive)
         (ev : list Event),
    WithPause.translateEpub parse render service getPausePromise slices p st = (r, st', ev) ->
    zip st' = replay (zip st) ev /\
    forall pre post,
      ev = pre ++ AwaitPause :: post ->
      beforeGate (WithPause.onProgress p) pre /\
      afterGate post /\
      (forall promise,
         getPausePromise = Some promise ->
         promise (pauses st + gates pre)%nat <> Resolves -> post = []) /\
      exists spine done path rest,
        resolveSpine parse st = (Returned spine, st, []) /\
        spine = done ++ path :: rest /\
        started pre = done ++ [path] /\
        (exists pre' content pp,
           pre = pre' ++ WriteFile path content :: pp /\
           progressPart (WithPause.onProgress p) path pp) /\
        (forall promise,
           getPausePromise = Some promise ->
           promise (pauses st + gates pre)%nat = Resolves ->
           match rest with
           | [] => post = []
           | next :: _ => exists post', post = processing next :: post'
           end).
Proof.
  intros parse render service getPausePromise slices p st st' r ev H.
  destruct (job_gates parse render service getPausePromise slices p st r st' ev H)
    as [Hzip Hgates].
  split; [exact Hzip|]. intros pre post E.
  destruct (Hgates pre post E) as (Hbefore & Hafter & Hblocked).
  split; [exact Hbefore|]. split; [exact Hafter|]. split; [exact Hblocked|].
  destruct (job_resumes parse render service getPausePromise slices p st r st' ev H pre post E)
    as (spine & done & path & rest & Hspine & Hsplit & Hstarted & Hwrite & Hresume).
  exists spine, done, path, rest. auto.
Qed.

(** The run of the book of two documents whose first promise resolves and
    whose second stays pending: the first gate is the eighth event, after
    the write-back and the progress report of the first document, and the
    second document follows it; the second gate is the last event. *)
Lemma pause_gate_only_between_documents_witness :
  let getPausePromise :=
    Some (fun n : nat => if (n =? 0)%nat then Resolves else StaysPending) in
  let run :=
    WithPause.translateEpub XmlParser.parseXml XmlSerializer.renderXml fullService
      getPausePromise (fun _ paragraphs => Some [paragraphs])
      samplePausedParams sampleTwoStart in
  let pre := take 7 run.2 in
  let post := drop 8 run.2 in
  run.2 = pre ++ AwaitPause :: post /\
  head post = Some (processing (js "ch2.xhtml")) /\
  last post = Some AwaitPause /\
  run.1.1 = Pending /\
  zip run.1.2 = replay (zip sampleTwoStart) run.2 /\
  beforeGate true pre /\
  afterGate post /\
  (forall promise,
     getPausePromise = Some promise ->
     promise (pauses sampleTwoStart + gates pre)%nat <> Resolves -> post = []) /\
  exists spine done path rest,
    resolveSpine XmlParser.parseXml sampleTwoStart = (Returned spine, sampleTwoStart, []) /\
    spine = done ++ path :: rest /\
    started pre = done ++ [path] /\
    (exists pre' content pp,
       pre = pre' ++ WriteFile path content :: pp /\ progressPart true path pp) /\
    (forall promise,
       getPausePromise = Some promise ->
       promise (pauses sampleTwoStart + gates pre)%nat = Resolves ->
       match rest with
       | [] => post = []
       | next :: _ => exists post', post = processing next :: post'
       end).
Proof.
  intros getPausePromise run pre post.
  assert (Hev : run.2 = pre ++ AwaitPause :: post) by (vm_compute; reflexivity).
  split; [exact Hev|]. split; [vm_compute; reflexivity|].
  split; [vm_compute; reflexivity|]. split; [vm_compute; reflexivity|].
  assert (Hrun : WithPause.translateEpub XmlParser.parseXml XmlSerializer.renderXml
                   fullService getPausePromise (fun _ paragraphs => Some [paragraphs])
                   samplePausedParams sampleTwoStart = (run.1.1, run.1.2, run.2)).
  { subst run. destruct (WithPause.translateEpub _ _ _ _ _ _ _) as [[r st'] ev]. reflexivity. }
  destruct (pause_gate_only_between_documents XmlParser.parseXml XmlSerializer.renderXml
              fullService getPausePromise (fun _ paragraphs => Some [paragraphs])
              samplePausedParams sampleTwoStart run.1.2 run.1.1 run.2 Hrun)
    as [Hzip Hgates].
  split; [exact Hzip|]. exact (Hgates pre post Hev).
Defined.

(** ** Reasoning about document trees *)

Lemma Tree_ind' {I} (P : Tree I -> Prop) :
  (forall d, P (Text d)) ->
  (forall i nm a cs, Forall P cs -> P (Element i nm a cs)) ->
  forall t, P t.
Proof.
  intros HText HElem. fix IH 1. intros [i nm a cs|d]; [|apply HText].
  apply HElem. induction cs as [|c cs IHcs]; constructor; [apply IH|exact IHcs].
Qed.

Lemma elements_app {I} (F1 F2 : list (Tree I)) :
  elements (F1 ++ F2) = elements F1 ++ elements F2.
Proof. unfold elements. apply flat_map_app. Qed.

Lemma elements_cons {I} (n : Tree I) F : elements (n :: F) = subElements n ++ elements F.
Proof. reflexivity. Qed.

Lemma head_app_filter {A} (f : A -> bool) l1 l2 :
  head (List.filter f (l1 ++ l2)) =
  match head (List.filter f l1) with
  | Some x => Some x
  | None => head (List.filter f l2)
  end.
Proof.
  rewrite List.filter_app. destruct (List.filter f l1); reflexivity.
Qed.

Lemma findElement_app F1 F2 id :
  findElement (F1 ++ F2) id =
  match findElement F1 id with
  | Some n => Some n
  | None => findElement F2 id
  end.
Proof. unfold findElement. rewrite elements_app. apply head_app_filter. Qed.

Lemma findElement_cons n F id :
  findElement (n :: F) id =
  match findElement [n] id with
  | Some x => Some x
  | None => findElement F id
  end.
Proof. apply (findElement_app [n] F). Qed.

Lemma findElement_element i nm a cs id :
  findElement [Element i nm a cs] id =
  if decide (i = id) then Some (Element i nm a cs) else findElement cs id.
Proof.
  unfold findElement, elements. simpl. rewrite app_nil_r.
  destruct (decide (i = id)) as [E|E].
  - rewrite bool_decide_eq_true_2 by exact E. reflexivity.
  - rewrite bool_decide_eq_false_2 by exact E. reflexivity.
Qed.

Lemma findElement_text d id : findElement [Text d] id = None.
Proof. reflexivity. Qed.

Lemma findElement_hasId F id n : findElement F id = Some n -> hasId id n = true.
Proof.
  unfold findElement. intros H.
  assert (Hin : In n (List.filter (hasId id) (elements F))).
  { destruct (List.filter (hasId id) (elements F)); [discriminate H|].
    injection H as ->. left. reflexivity. }
  apply filter_In in Hin as [_ H']. exact H'.
Qed.

Lemma findElement_In F id n : findElement F id = Some n -> In n (elements F).
Proof.
  unfold findElement. intros H.
  assert (Hin : In n (List.filter (hasId id) (elements F))).
  { destruct (List.filter (hasId id) (elements F)); [discriminate H|].
    injection H as ->. left. reflexivity. }
  apply filter_In in Hin as [H' _]. exact H'.
Qed.

(** ** Rewriting an element in place *)

Section InPlace.
Variable target : DomElement.
Variable g : Node -> Node.
Hypothesis g_keeps_id : forall n, hasId target n = true -> hasId target (g n) = true.

Lemma hasId_element n id : hasId id n = true -> exists nm a cs, n = Element id nm a cs.
Proof.
  destruct n as [i nm a cs|d]; [|discriminate]. simpl.
  intros H. apply bool_decide_eq_true in H. subst i. eauto.
Qed.

Lemma findElement_rewriteNode n :
  findElement (rewriteNode target (fun x => [g x]) n) target = g <$> findElement [n] target.
Proof.
  induction n as [d|i nm a cs IH] using Tree_ind'; [reflexivity|].
  cbn [rewriteNode]. rewrite findElement_element.
  destruct (decide (i = target)) as [->|Hne].
  - cbn [fmap option_fmap option_map].
    assert (Hid : hasId target (g (Element target nm a cs)) = true).
    { apply g_keeps_id. simpl. apply bool_decide_eq_true. reflexivity. }
    apply hasId_element in Hid as (nm' & a' & cs' & ->).
    rewrite findElement_element. destruct (decide (target = target)); [reflexivity|congruence].
  - rewrite findElement_element. destruct (decide (i = target)); [congruence|].
    clear Hne n. induction IH as [|c cs Hc _ IHcs]; [reflexivity|].
    cbn [flat_map]. rewrite findElement_app, Hc, IHcs, (findElement_cons c cs).
    destruct (findElement [c] target); reflexivity.
Qed.

Lemma findElement_rewriteForest F :
  findElement (rewriteForest target (fun x => [g x]) F) target = g <$> findElement F target.
Proof.
  induction F as [|n F IH]; [reflexivity|].
  unfold rewriteForest. cbn [flat_map]. fold (rewriteForest target (fun x => [g x]) F).
  rewrite findElement_app, findElement_rewriteNode, IH, (findElement_cons n F).
  destruct (findElement [n] target); reflexivity.
Qed.
End InPlace.

Section ExampleParser.
Import XmlParser.

(** ** The example parser obeys the parser laws *)

Lemma tokenize_app st s rest :
  tokenize st (s ++ rest) = (tokenizerRun st s).2 ++ tokenize (tokenizerRun st s).1 rest.
Proof.
  revert st. induction s as [|c s IH]; intros st; [reflexivity|].
  simpl. destruct (step st c) as [st' out]. rewrite IH.
  destruct (tokenizerRun st' s) as [st'' out']. simpl. rewrite app_assoc. reflexivity.
Qed.

Lemma tokenizerRun_plain s acc : isPlain s = true -> tokenizerRun (SText acc) s = (SText (acc ++ s), []).
Proof.
  revert acc. induction s as [|c s IH]; intros acc H.
  - rewrite app_nil_r. reflexivity.
  - simpl in H. apply andb_true_iff in H as [Hc Hs].
    apply negb_true_iff, orb_false_iff in Hc as [Hc _].
    simpl. rewrite Hc, (IH _ Hs), <- app_assoc. reflexivity.
Qed.

Lemma build_text s : build (textToken s) [] [] = textNodes s.
Proof. destruct s; reflexivity. Qed.

Lemma parseXml_plain s : isPlain s = true -> parseXml s = textNodes s.
Proof.
  intros H. unfold parseXml.
  rewrite <- (app_nil_r s) at 1. rewrite tokenize_app, (tokenizerRun_plain s [] H).
  simpl. apply build_text.
Qed.

Lemma parseXml_wrapped (opening closing : jsstring) tag attrs s :
  tokenizerRun (SText []) opening = (SText [], [TkOpen tag attrs]) ->
  (forall acc, tokenize (SText acc) closing = textToken acc ++ [TkClose tag]) ->
  isPlain s = true ->
  parseXml (opening ++ s ++ closing) = [Element () tag attrs (textNodes s)].
Proof.
  intros Hopen Hclose H. unfold parseXml.
  rewrite tokenize_app, Hopen. cbn [fst snd].
  rewrite tokenize_app, (tokenizerRun_plain s [] H). cbn [fst snd app].
  rewrite Hclose.
  destruct s as [|c s]; simpl.
  - destruct (decide (tag = tag)); [reflexivity|congruence].
  - destruct (decide (tag = tag)); [reflexivity|congruence].
Qed.

Lemma parseXml_laws : ParserLaws parseXml.
Proof.
  split; [exact parseXml_plain|].
  intros tag s [->| ->] H.
  - apply (parseXml_wrapped
             (js "<" ++ js "div" ++ js " class=" ++ [34%N] ++ BILINGUAL_CLASS ++ [34%N] ++ js ">")
             (js "</" ++ js "div" ++ js ">") (js "div") [(js "class", BILINGUAL_CLASS)] s);
      [vm_compute; reflexivity | intros acc; destruct acc; reflexivity | exact H].
  - apply (parseXml_wrapped
             (js "<" ++ js "p" ++ js " class=" ++ [34%N] ++ BILINGUAL_CLASS ++ [34%N] ++ js ">")
             (js "</" ++ js "p" ++ js ">") (js "p") [(js "class", BILINGUAL_CLASS)] s);
      [vm_compute; reflexivity | intros acc; destruct acc; reflexivity | exact H].
Qed.

End ExampleParser.

(** ** The applier *)

Lemma adopt_textNodes next s : adopt next (textNodes s) = (textNodes s, next).
Proof. destruct s; reflexivity. Qed.

Lemma textContent_textNodes {I} s : flat_map (@textContent I) (textNodes s) = s.
Proof. destruct s; [reflexivity|]. simpl. rewrite app_nil_r. reflexivity. Qed.

Lemma withChildren_keeps_id cs id n : hasId id n = true -> hasId id (withChildren cs n) = true.
Proof. destruct n; simpl; auto. Qed.

(** [html()] on a referenced element replaces its children. *)
Lemma getElement_setHtml parse doc node html el :
  getElement doc node = Some el ->
  getElement (setHtml parse doc node html) node =
    Some (withChildren (makeDom parse doc html).1 el).
Proof.
  unfold getElement, setHtml. intros H.
  destruct (makeDom parse doc html) as [new next]. cbn [docRoot detached fst].
  rewrite findElement_app in H.
  rewrite !findElement_app.
  rewrite !(findElement_rewriteForest node (withChildren new) (withChildren_keeps_id new node)).
  destruct (findElement (docRoot doc) node); [injection H as ->; reflexivity|].
  rewrite H. reflexivity.
Qed.

(** C8 (as stated).  Replacing the content of a paragraph by the result
    [<b>x</b>]: the stripped result is [<b>x</b>], the text content of the
    block is [x]. *)
Lemma replace_text_differs_from_stripped :
  let doc := load XmlParser.parseXml (js "<body><p>one</p></body>") in
  let result := js "<b>x</b>" in
  stripBlockTags result = js "<b>x</b>" /\
  from_option textContent [] (getElement (replaceBlock XmlParser.parseXml doc 1 result) 1%nat)
    = js "x" /\
  from_option textContent [] (getElement (replaceBlock XmlParser.parseXml doc 1 result) 1%nat)
    <> stripBlockTags result.
Proof.
  split; [vm_compute; reflexivity|]. split; [vm_compute; reflexivity|].
  vm_compute. discriminate.
Qed.

(** C8 (amended).  In replace mode, for every element a reference points
    to and every result whose stripped form is plain text, the element
    keeps its name and has, after the replacement, the stripped result as
    its only child (no child when it is empty): its text content is the
    stripped result, once. *)
Theorem replace_sets_plain_text :
  forall (parse : jsstring -> list Markup) (doc : Document) (node : DomElement)
         (el : Node) (translated : jsstring),
    (forall s, isPlain s = true -> parse s = textNodes s) ->
    getElement doc node = Some el ->
    isPlain (stripBlockTags translated) = true ->
    exists el',
      getElement (replaceBlock parse doc node translated) node = Some el' /\
      nameOf el' = nameOf el /\
      childrenOf el' = textNodes (stripBlockTags translated) /\
      textContent el' = stripBlockTags translated.
Proof.
  intros parse doc node el translated Hparse Hel Hplain.
  unfold replaceBlock. rewrite (getElement_setHtml parse doc node _ el Hel).
  unfold makeDom. rewrite (Hparse _ Hplain), adopt_textNodes. cbn [fst].
  eexists. split; [reflexivity|].
  pose proof (findElement_hasId _ _ _ Hel) as Hid.
  apply hasId_element in Hid as (nm & a & cs & ->). cbn [withChildren nameOf childrenOf textContent].
  split; [reflexivity|]. split; [reflexivity|]. apply textContent_textNodes.
Qed.

Lemma replace_sets_plain_text_witness :
  exists el',
    getElement (replaceBlock XmlParser.parseXml sampleChapter 2 (js "<p>un</p>")) 2 = Some el' /\
    nameOf el' = nameOf (Element 2%nat (js "p") [] [Text (js "one")]) /\
    childrenOf el' = textNodes (stripBlockTags (js "<p>un</p>")) /\
    textContent el' = stripBlockTags (js "<p>un</p>").
Proof.
  apply (replace_sets_plain_text XmlParser.parseXml sampleChapter 2
           (Element 2%nat (js "p") [] [Text (js "one")]) (js "<p>un</p>")).
  - exact parseXml_plain.
  - vm_compute. reflexivity.
  - vm_compute. reflexivity.
Defined.

(** ** Bilingual insertion *)



Section After.
Variable target : DomElement.
Variable W : Node.
Variable rest : list Node.


End After.

(** ** The elements of a rewritten tree *)

Lemma elements_flat_map (g : Node -> list Node) (l : list Node) n :
  In n (elements (flat_map g l)) -> exists c, In c l /\ In n (elements (g c)).
Proof.
  induction l as [|c l IH]; [intros []|].
  cbn [flat_map]. rewrite elements_app. intros H. apply in_app_or in H as [H|H].
  - exists c. split; [left; reflexivity|exact H].
  - destruct (IH H) as (c' & Hc' & Hn). exists c'. split; [right; exact Hc'|exact Hn].
Qed.

Lemma subElements_child i nm a cs (c m : Node) :
  In c cs -> In m (subElements c) -> In m (subElements (Element i nm a cs)).
Proof.
  intros Hc Hm. simpl. right. apply in_flat_map. exists c. auto.
Qed.

Section Origin.
Variable target : DomElement.
Variable f : Node -> list Node.
Variable new : list Node.

(** What [f] gives is the element itself, by identity, or new. *)
Hypothesis f_origin : forall x n,
  In n (elements (f x)) ->
  (exists m, In m (subElements x) /\ idOf m = idOf n) \/ In n (elements new).

Lemma rewriteNode_origin x n :
  In n (elements (rewriteNode target f x)) ->
  (exists m, In m (subElements x) /\ idOf m = idOf n) \/ In n (elements new).
Proof.
  revert n. induction x as [d|i nm a cs IH] using Tree_ind'; intros n H; [destruct H|].
  cbn [rewriteNode] in H. destruct (decide (i = target)) as [->|Hne].
  - apply f_origin. exact H.
  - rewrite elements_cons in H. cbn [subElements elements flat_map] in H.
    rewrite app_nil_r in H. destruct H as [<-|H].
    + left. exists (Element i nm a cs). split; [left; reflexivity|reflexivity].
    + apply elements_flat_map in H as (c & Hc & Hn).
      rewrite Forall_forall in IH.
      destruct (IH c (proj2 (list_elem_of_In _ _) Hc) n Hn) as [(m & Hm & E)|Hnew];
        [left|right; exact Hnew].
      exists m. split; [eapply subElements_child; eassumption|exact E].
Qed.

Lemma rewriteForest_origin F n :
  In n (elements (rewriteForest target f F)) ->
  (exists m, In m (elements F) /\ idOf m = idOf n) \/ In n (elements new).
Proof.
  intros H. apply elements_flat_map in H as (c & Hc & Hn).
  destruct (rewriteNode_origin c n Hn) as [(m & Hm & E)|Hnew]; [left|right; exact Hnew].
  exists m. split; [|exact E]. apply in_flat_map. exists c. auto.
Qed.
End Origin.

Lemma after_origin new x n :
  In n (elements (x :: new)) ->
  (exists m, In m (subElements x) /\ idOf m = idOf n) \/ In n (elements new).
Proof.
  rewrite elements_cons. intros H. apply in_app_or in H as [H|H]; [left|right; exact H].
  exists n. auto.
Qed.

Lemma append_origin new x n :
  In n (elements [withChildren (childrenOf x ++ new) x]) ->
  (exists m, In m (subElements x) /\ idOf m = idOf n) \/ In n (elements new).
Proof.
  destruct x as [i nm a cs|d]; [|intros []].
  cbn [withChildren childrenOf elements flat_map subElements]. rewrite app_nil_r.
  intros [<-|H].
  - left. exists (Element i nm a cs). split; [left; reflexivity|reflexivity].
  - fold (elements (cs ++ new)) in H. rewrite elements_app in H.
    apply in_app_or in H as [H|H]; [left|right; exact H].
    exists n. split; [right; exact H|reflexivity].
Qed.

(** ** Finding an element by its identity *)

Lemma head_filter_unique {A} (f : A -> bool) (l : list A) x :
  In x l -> f x = true -> (forall y, In y l -> f y = true -> y = x) ->
  head (List.filter f l) = Some x.
Proof.
  induction l as [|a l IH]; intros Hin Hx Hu; [destruct Hin|].
  simpl. destruct (f a) eqn:Ha.
  - simpl. f_equal. apply Hu; [left; reflexivity|exact Ha].
  - destruct Hin as [->|Hin]; [congruence|].
    apply IH; [exact Hin|exact Hx|]. intros y Hy. apply Hu. right. exact Hy.
Qed.

Lemma NoDup_map_inj {A B} (g : A -> B) (l : list A) x y :
  NoDup (map g l) -> In x l -> In y l -> g x = g y -> x = y.
Proof.
  induction l as [|a l IH]; intros Hnd Hx Hy E; [destruct Hx|].
  simpl in Hnd. apply NoDup_cons in Hnd as [Hna Hnd].
  destruct Hx as [->|Hx], Hy as [->|Hy].
  - reflexivity.
  - exfalso. apply Hna. rewrite E. apply list_elem_of_In, in_map. exact Hy.
  - exfalso. apply Hna. rewrite <- E. apply list_elem_of_In, in_map. exact Hx.
  - apply IH; assumption.
Qed.

Lemma hasId_idOf id n : hasId id n = true <-> idOf n = Some id.
Proof.
  destruct n as [i nm a cs|d]; simpl; [|split; discriminate].
  rewrite bool_decide_eq_true. split; [intros ->; reflexivity|intros [= ->]; reflexivity].
Qed.

Lemma findElement_unique F el id :
  NoDup (map idOf (elements F)) -> In el (elements F) -> idOf el = Some id ->
  findElement F id = Some el.
Proof.
  intros Hnd Hin Hid. apply head_filter_unique; [exact Hin|apply hasId_idOf; exact Hid|].
  intros y Hy Hy'. apply hasId_idOf in Hy'.
  apply (NoDup_map_inj idOf (elements F)); [exact Hnd|exact Hy|exact Hin|congruence].
Qed.

(** ** Identities in a loaded document *)

Lemma adoptNode_element next u nm a cs :
  adoptNode next (Element u nm a cs) =
    (Element next nm a (adopt (S next) cs).1, (adopt (S next) cs).2).
Proof.
  cbn [adoptNode].
  assert (E : forall n l,
    (fix adoptAll (next0 : DomElement) (l0 : list Markup) {struct l0} : list Node * DomElement :=
       match l0 with
       | [] => ([], next0)
       | m' :: l' =>
           let '(n0, nx) := adoptNode next0 m' in
           let '(ns, nx') := adoptAll nx l' in (n0 :: ns, nx')
       end) n l = adopt n l).
  { intros n l. revert n. induction l as [|m l IH]; intros n; [reflexivity|].
    cbn [adopt]. destruct (adoptNode n m) as [x nx]. rewrite IH. reflexivity. }
  rewrite E. destruct (adopt (S next) cs). reflexivity.
Qed.

Lemma ids_app F1 F2 : ids (F1 ++ F2) = ids F1 ++ ids F2.
Proof. unfold ids. rewrite elements_app, map_app. reflexivity. Qed.

Lemma ids_element i nm a cs : ids [Element i nm a cs] = Some i :: ids cs.
Proof. unfold ids, elements. simpl. rewrite app_nil_r. reflexivity. Qed.

Lemma adoptNode_ids m next :
  (next <= (adoptNode next m).2)%nat /\
  ids [(adoptNode next m).1] = map Some (seq next ((adoptNode next m).2 - next)).
Proof.
  revert next. induction m as [d|u nm a cs IH] using Tree_ind'; intros next.
  - simpl. rewrite Nat.sub_diag. split; [lia|reflexivity].
  - rewrite adoptNode_element. cbn [fst snd]. rewrite ids_element.
    assert (H : (S next <= (adopt (S next) cs).2)%nat /\
                ids (adopt (S next) cs).1 =
                  map Some (seq (S next) ((adopt (S next) cs).2 - S next))).
    { generalize (S next). clear next.
      induction IH as [|c cs Hc _ IHcs]; intros n.
      - simpl. rewrite Nat.sub_diag. split; [lia|reflexivity].
      - cbn [adopt]. destruct (Hc n) as [Hle Hids].
        destruct (adoptNode n c) as [x nx]. cbn [fst snd] in *.
        destruct (IHcs nx) as [Hle' Hids'].
        destruct (adopt nx cs) as [xs nx']. cbn [fst snd] in *.
        split; [lia|].
        change (x :: xs) with ([x] ++ xs). rewrite ids_app, Hids, Hids'.
        replace (nx' - n)%nat with ((nx - n) + (nx' - nx))%nat by lia.
        rewrite seq_app, map_app. replace (n + (nx - n))%nat with nx by lia. reflexivity. }
    destruct H as [Hle Hids]. split; [lia|].
    rewrite Hids. replace ((adopt (S next) cs).2 - next)%nat
      with (S ((adopt (S next) cs).2 - S next)) by lia.
    reflexivity.
Qed.

Lemma adopt_ids l next :
  (next <= (adopt next l).2)%nat /\
  ids (adopt next l).1 = map Some (seq next ((adopt next l).2 - next)).
Proof.
  revert next. induction l as [|m l IH]; intros n.
  - simpl. rewrite Nat.sub_diag. split; [lia|reflexivity].
  - cbn [adopt]. destruct (adoptNode_ids m n) as [Hle Hids].
    destruct (adoptNode n m) as [x nx]. cbn [fst snd] in *.
    destruct (IH nx) as [Hle' Hids'].
    destruct (adopt nx l) as [xs nx']. cbn [fst snd] in *.
    split; [lia|].
    change (x :: xs) with ([x] ++ xs). rewrite ids_app, Hids, Hids'.
    replace (nx' - n)%nat with ((nx - n) + (nx' - nx))%nat by lia.
    rewrite seq_app, map_app. replace (n + (nx - n))%nat with nx by lia. reflexivity.
Qed.

(** A document as loaded is well formed. *)
Lemma load_wf parse content : wfDocument (load parse content).
Proof.
  unfold load. destruct (adopt_ids (parse content) 0) as [_ Hids].
  destruct (adopt 0 (parse content)) as [ns next]. cbn [fst snd] in Hids.
  rewrite Nat.sub_0_r in Hids. unfold ids in Hids.
  split; cbn [docRoot nextId].
  - rewrite Hids. apply NoDup_fmap_2; [intros x y [= ->]; reflexivity|]. apply NoDup_seq.
  - apply Forall_forall. intros n Hn i Hi.
    assert (Hin : Some i ∈ map idOf (elements ns)).
    { rewrite <- Hi. apply list_elem_of_fmap_2. exact Hn. }
    rewrite Hids in Hin. apply list_elem_of_fmap in Hin as (j & [= ->] & Hj).
    apply elem_of_seq in Hj. lia.
Qed.

(** ** Well-formedness is kept by the applier *)

Lemma ids_some F o : o ∈ ids F -> exists i, o = Some i.
Proof.
  unfold ids. intros H. apply list_elem_of_fmap in H as (n & -> & Hn).
  apply list_elem_of_In in Hn. unfold elements in Hn. apply in_flat_map in Hn as (x & _ & Hx).
  clear F. revert n Hx. induction x as [d|i nm a cs IH] using Tree_ind'; intros n Hx; [destruct Hx|].
  destruct Hx as [<-|Hx]; [eexists; reflexivity|].
  apply in_flat_map in Hx as (c & Hc & Hn). rewrite Forall_forall in IH.
  apply (IH c); [apply list_elem_of_In; exact Hc|exact Hn].
Qed.

Lemma ids_cons x F : ids (x :: F) = ids [x] ++ ids F.
Proof. apply (ids_app [x] F). Qed.

Lemma ids_text d : ids [Text d] = [].
Proof. reflexivity. Qed.

Section Fresh.
Variable target : DomElement.
Variable f : Node -> list Node.
Variable new : list Node.
Variable N : nat.

Hypothesis new_fresh : idsFrom N (ids new).

(** What [f] makes of the target: its identities are those of the
    target and of the new nodes, no one twice. *)
Hypothesis f_fresh : forall x,
  hasId target x = true -> NoDup (ids [x]) -> idsBelow N (ids [x]) ->
  NoDup (ids (f x)) /\ (forall o, o ∈ ids (f x) -> o ∈ ids [x] \/ o ∈ ids new).

Lemma old_not_new o F : idsBelow N (ids F) -> o ∈ ids F -> o ∈ ids new -> False.
Proof.
  intros Hb Ho Hn. destruct (ids_some _ _ Ho) as [i ->].
  specialize (Hb i Ho). specialize (new_fresh i Hn). lia.
Qed.

Lemma keeps_forest cs :
  Forall (fun c => NoDup (ids [c]) -> idsBelow N (ids [c]) -> keeps new target [c] (rewriteNode target f c)) cs ->
  NoDup (ids cs) -> idsBelow N (ids cs) ->
  keeps new target cs (flat_map (rewriteNode target f) cs).
Proof.
  induction 1 as [|c cs Hc _ IH]; intros Hnd Hb.
  - split; [constructor|]. split; [intros o Ho; inversion Ho|reflexivity].
  - rewrite ids_cons in Hnd, Hb. apply NoDup_app in Hnd as (Hnd1 & Hdisj & Hnd2).
    assert (Hb1 : idsBelow N (ids [c])) by (intros i Hi; apply Hb, elem_of_app; auto).
    assert (Hb2 : idsBelow N (ids cs)) by (intros i Hi; apply Hb, elem_of_app; auto).
    destruct (Hc Hnd1 Hb1) as (K1 & K2 & K3).
    destruct (IH Hnd2 Hb2) as (L1 & L2 & L3).
    cbn [flat_map].
    assert (Horigin : forall o, o ∈ ids (rewriteNode target f c ++ flat_map (rewriteNode target f) cs) ->
                         o ∈ ids (c :: cs) \/ o ∈ ids new).
    { intros o Ho. rewrite ids_app in Ho. rewrite ids_cons.
      apply elem_of_app in Ho as [Ho|Ho].
      - destruct (K2 o Ho); [left; apply elem_of_app|]; auto.
      - destruct (L2 o Ho); [left; apply elem_of_app|]; auto. }
    assert (Hsame : Some target ∉ ids (c :: cs) ->
                    rewriteNode target f c ++ flat_map (rewriteNode target f) cs = c :: cs).
    { intros Hnot. rewrite ids_cons in Hnot.
      rewrite K3, L3; [reflexivity| |]; intros Hin; apply Hnot, elem_of_app; auto. }
    split; [|split; [exact Horigin|exact Hsame]].
    rewrite ids_app.
    destruct (decide (Some target ∈ ids [c])) as [Hin|Hnin].
    + (* the target is below [c]: the rest is as it was *)
      assert (Hrest : flat_map (rewriteNode target f) cs = cs).
      { apply L3. intros Hin'. exact (Hdisj _ Hin Hin'). }
      rewrite Hrest. apply NoDup_app. split; [exact K1|]. split; [|exact Hnd2].
      intros o Ho Ho'. destruct (K2 o Ho) as [Hold|Hnew].
      * exact (Hdisj _ Hold Ho').
      * exact (old_not_new o cs Hb2 Ho' Hnew).
    + rewrite (K3 Hnin). apply NoDup_app. split; [exact Hnd1|]. split; [|exact L1].
      intros o Ho Ho'. destruct (L2 o Ho') as [Hold|Hnew].
      * exact (Hdisj _ Ho Hold).
      * exact (old_not_new o [c] Hb1 Ho Hnew).
Qed.

Lemma keeps_node x :
  NoDup (ids [x]) -> idsBelow N (ids [x]) -> keeps new target [x] (rewriteNode target f x).
Proof.
  induction x as [d|i nm a cs IH] using Tree_ind'; intros Hnd Hb.
  - split; [constructor|]. split; [intros o Ho; inversion Ho|reflexivity].
  - cbn [rewriteNode]. destruct (decide (i = target)) as [->|Hne].
    + assert (Hid : hasId target (Element target nm a cs) = true).
      { simpl. apply bool_decide_eq_true. reflexivity. }
      destruct (f_fresh _ Hid Hnd Hb) as [F1 F2].
      split; [exact F1|]. split; [exact F2|].
      intros Hnot. exfalso. apply Hnot. rewrite ids_element. left.
    + rewrite ids_element in Hnd, Hb. apply NoDup_cons in Hnd as [Hi Hnd].
      assert (Hb' : idsBelow N (ids cs)) by (intros j Hj; apply Hb; right; exact Hj).
      destruct (keeps_forest cs IH Hnd Hb') as (K1 & K2 & K3).
      split; [|split].
      * rewrite ids_element. apply NoDup_cons. split; [|exact K1].
        intros Hin. destruct (K2 _ Hin) as [Hold|Hnew]; [exact (Hi Hold)|].
        specialize (new_fresh i Hnew). specialize (Hb i (list_elem_of_here _ _)). lia.
      * intros o Ho. rewrite ids_element in Ho. rewrite ids_element.
        apply elem_of_cons in Ho as [->|Ho]; [left; left|].
        destruct (K2 o Ho); [left; right|right]; assumption.
      * intros Hnot. rewrite ids_element in Hnot. rewrite K3; [reflexivity|].
        intros Hin. apply Hnot. right. exact Hin.
Qed.

Lemma keeps_rewriteForest F :
  NoDup (ids F) -> idsBelow N (ids F) -> keeps new target F (rewriteForest target f F).
Proof.
  intros Hnd Hb. apply keeps_forest; [|exact Hnd|exact Hb].
  apply Forall_forall. intros c _. apply keeps_node.
Qed.
End Fresh.

Lemma wfDocument_ids doc :
  wfDocument doc <-> NoDup (ids (docRoot doc)) /\ idsBelow (nextId doc) (ids (docRoot doc)).
Proof.
  unfold wfDocument, ids, idsBelow. split; intros [Hnd Hb]; (split; [exact Hnd|]).
  - intros i Hi. apply list_elem_of_fmap in Hi as (n & E & Hn).
    rewrite Forall_forall in Hb. apply (Hb n Hn). symmetry. exact E.
  - apply Forall_forall. intros n Hn i Hi. apply (Hb i).
    apply list_elem_of_fmap. exists n. split; [symmetry; exact Hi|exact Hn].
Qed.

(** The nodes made of a markup string have identities of their own, from
    the next one of the document on. *)
Lemma makeDom_fresh parse doc html :
  NoDup (ids (makeDom parse doc html).1) /\
  idsFrom (nextId doc) (ids (makeDom parse doc html).1) /\
  idsBelow (makeDom parse doc html).2 (ids (makeDom parse doc html).1) /\
  (nextId doc <= (makeDom parse doc html).2)%nat.
Proof.
  unfold makeDom. destruct (adopt_ids (parse html) (nextId doc)) as [Hle Hids].
  rewrite Hids. split; [|split; [|split; [|exact Hle]]].
  - apply NoDup_fmap_2; [intros x y [= ->]; reflexivity|apply NoDup_seq].
  - intros i Hi. apply list_elem_of_fmap in Hi as (j & [= ->] & Hj).
    apply elem_of_seq in Hj. lia.
  - intros i Hi. apply list_elem_of_fmap in Hi as (j & [= ->] & Hj).
    apply elem_of_seq in Hj. lia.
Qed.

Section Kept.
Variable N : nat.
Variable new : list Node.
Hypothesis new_nodup : NoDup (ids new).
Hypothesis new_fresh : idsFrom N (ids new).

Lemma fresh_disjoint x o : idsBelow N (ids [x]) -> o ∈ ids [x] -> o ∈ ids new -> False.
Proof. intros Hb. apply (old_not_new new N new_fresh o [x] Hb). Qed.

Lemma after_fresh x :
  NoDup (ids [x]) -> idsBelow N (ids [x]) ->
  NoDup (ids (x :: new)) /\ (forall o, o ∈ ids (x :: new) -> o ∈ ids [x] \/ o ∈ ids new).
Proof.
  intros Hnd Hb. rewrite ids_cons. split.
  - apply NoDup_app. split; [exact Hnd|]. split; [|exact new_nodup].
    intros o Ho Ho'. exact (fresh_disjoint x o Hb Ho Ho').
  - intros o Ho. apply elem_of_app in Ho. exact Ho.
Qed.

Lemma append_fresh x :
  NoDup (ids [x]) -> idsBelow N (ids [x]) ->
  NoDup (ids [withChildren (childrenOf x ++ new) x]) /\
  (forall o, o ∈ ids [withChildren (childrenOf x ++ new) x] -> o ∈ ids [x] \/ o ∈ ids new).
Proof.
  intros Hnd Hb. destruct x as [i nm a cs|d].
  - cbn [withChildren childrenOf]. rewrite ids_element, ids_app.
    change (Some i :: ids cs ++ ids new) with ((Some i :: ids cs) ++ ids new).
    rewrite <- (ids_element i nm a cs). split.
    + apply NoDup_app. split; [exact Hnd|]. split; [|exact new_nodup].
      intros o Ho Ho'. exact (fresh_disjoint _ o Hb Ho Ho').
    + intros o Ho. apply elem_of_app in Ho. exact Ho.
  - split; [constructor|]. intros o Ho. inversion Ho.
Qed.

Lemma html_fresh x :
  NoDup (ids [x]) -> idsBelow N (ids [x]) ->
  NoDup (ids [withChildren new x]) /\
  (forall o, o ∈ ids [withChildren new x] -> o ∈ ids [x] \/ o ∈ ids new).
Proof.
  intros Hnd Hb. destruct x as [i nm a cs|d].
  - cbn [withChildren]. rewrite !ids_element. split.
    + apply NoDup_cons. split; [|exact new_nodup].
      intros Hin. apply (fresh_disjoint (Element i nm a cs) (Some i) Hb); [|exact Hin].
      rewrite ids_element. left.
    + intros o Ho. apply elem_of_cons in Ho as [->|Ho]; [left; left|right; exact Ho].
  - split; [constructor|]. intros o Ho. inversion Ho.
Qed.
End Kept.

(** A rewriting that only adds the nodes of [makeDom] keeps the document
    well formed. *)
Lemma rewrite_wf parse doc node html (f : list Node -> Node -> list Node) det :
  (forall new x,
     NoDup (ids new) -> idsFrom (nextId doc) (ids new) ->
     NoDup (ids [x]) -> idsBelow (nextId doc) (ids [x]) ->
     NoDup (ids (f new x)) /\ (forall o, o ∈ ids (f new x) -> o ∈ ids [x] \/ o ∈ ids new)) ->
  wfDocument doc ->
  wfDocument {| docRoot := rewriteForest node (f (makeDom parse doc html).1) (docRoot doc);
                detached := det;
                nextId := (makeDom parse doc html).2 |}.
Proof.
  intros Hf Hwf. apply wfDocument_ids in Hwf as [Hnd Hb]. apply wfDocument_ids.
  destruct (makeDom_fresh parse doc html) as (Hnew & Hfrom & Hbelow & Hle).
  cbn [docRoot nextId].
  destruct (keeps_rewriteForest node (f (makeDom parse doc html).1) (makeDom parse doc html).1
              (nextId doc) Hfrom
              (fun x _ => Hf _ x Hnew Hfrom) (docRoot doc) Hnd Hb) as (K1 & K2 & _).
  split; [exact K1|]. intros i Hi. destruct (K2 _ Hi) as [Hold|Hn].
  - specialize (Hb i Hold). lia.
  - exact (Hbelow i Hn).
Qed.

Lemma after_wf parse doc node html : wfDocument doc -> wfDocument (after parse doc node html).
Proof.
  intros Hwf. unfold after.
  pose proof (rewrite_wf parse doc node html (fun new x => x :: new)
                (map (rewriteBelow node (fun n => n :: (makeDom parse doc html).1)) (detached doc))
                (fun new x Hn Hf => after_fresh (nextId doc) new Hn Hf x) Hwf) as H.
  destruct (makeDom parse doc html) as [new next]. exact H.
Qed.

Lemma append_wf parse doc node html : wfDocument doc -> wfDocument (append parse doc node html).
Proof.
  intros Hwf. unfold append.
  pose proof (rewrite_wf parse doc node html
                (fun new x => [withChildren (childrenOf x ++ new) x])
                (rewriteForest node
                   (fun n => [withChildren (childrenOf n ++ (makeDom parse doc html).1) n])
                   (detached doc))
                (fun new x Hn Hf => append_fresh (nextId doc) new Hn Hf x) Hwf) as H.
  destruct (makeDom parse doc html) as [new next]. exact H.
Qed.

Lemma setHtml_wf parse doc node html : wfDocument doc -> wfDocument (setHtml parse doc node html).
Proof.
  intros Hwf. unfold setHtml.
  pose proof (rewrite_wf parse doc node html (fun new x => [withChildren new x])
                (rewriteForest node (fun n => [withChildren (makeDom parse doc html).1 n])
                   (detached doc) ++ from_option childrenOf [] (getElement doc node))
                (fun new x Hn Hf => html_fresh (nextId doc) new Hn Hf x) Hwf) as H.
  destruct (makeDom parse doc html) as [new next]. exact H.
Qed.

(** Both modes of the applier keep the document well formed, whatever the
    translated string. *)
Lemma insertBilingual_wf parse doc node translated :
  wfDocument doc -> wfDocument (insertBilingual parse doc node translated).
Proof.
  intros Hwf. unfold insertBilingual.
  destruct (bool_decide _); [apply append_wf; exact Hwf|].
  destruct (bool_decide _); [apply append_wf; exact Hwf|].
  destruct (test _ _); apply after_wf; exact Hwf.
Qed.

Lemma replaceBlock_wf parse doc node translated :
  wfDocument doc -> wfDocument (replaceBlock parse doc node translated).
Proof. apply setHtml_wf. Qed.

Lemma applyFrom_wf parse mode translated j nodes doc :
  wfDocument doc -> wfDocument (applyFrom parse mode translated j nodes doc).
Proof.
  revert j doc. induction nodes as [|node rest IH]; intros j doc Hwf; [exact Hwf|].
  cbn [applyFrom]. apply IH.
  destruct mode; [apply replaceBlock_wf|apply insertBilingual_wf]; exact Hwf.
Qed.


Lemma makeDom_bilingual parse doc tag safe :
  ParserLaws parse -> tag = js "div" \/ tag = js "p" -> isPlain safe = true ->
  makeDom parse doc (bilingualMarkup tag safe) =
    ([artifact (nextId doc) tag safe], S (nextId doc)).
Proof.
  intros [_ Hlaw] Htag Hplain. unfold makeDom. rewrite (Hlaw tag safe Htag Hplain).
  unfold artifact. destruct safe; reflexivity.
Qed.

Lemma artifact_hasClass id tag safe : hasClass (artifact id tag safe) BILINGUAL_CLASS.
Proof. unfold hasClass. vm_compute. left. Qed.

Lemma elements_artifact id tag safe :
  elements [artifact id tag safe] = [artifact id tag safe].
Proof. unfold artifact. destruct safe; reflexivity. Qed.

Lemma artifactTag_cases name : artifactTag name = js "div" \/ artifactTag name = js "p".
Proof.
  unfold artifactTag. destruct (bool_decide (name = js "li")); [left; reflexivity|].
  destruct (bool_decide (name = js "blockquote")); [right; reflexivity|].
  destruct (test re_heading name); [left|right]; reflexivity.
Qed.

(** The branch [insertBilingual] takes for a block. *)
Lemma insertBilingual_block parse doc node el translated :
  getElement doc node = Some el -> isBlock el = true ->
  insertBilingual parse doc node translated =
    (if goesInside (nameOf el) then append else after) parse doc node
      (bilingualMarkup (artifactTag (nameOf el)) (stripBlockTags translated)).
Proof.
  intros Hget Hblock. unfold insertBilingual. rewrite Hget.
  destruct el as [i nm a cs|d]; [|discriminate Hblock].
  cbn [isBlock nameOf] in *. apply bool_decide_eq_true in Hblock.
  unfold BLOCK_SELECTOR in Hblock.
  repeat (apply elem_of_cons in Hblock as [->|Hblock]); [reflexivity..|].
  inversion Hblock.
Qed.

(** C7.  A heading and the translated string [<p class='x'>evil</p>].
    The stripping takes [<p>] and [</p>] out of [<p>evil</p>], but here it
    removes the closing tag only: the opening tag has an attribute.  What
    is inserted after the heading is the marked [div] with a paragraph in
    it; the paragraph is new (its identity is not one of the document
    before), it does not carry the marker class, and the block extractor,
    run on the mutated document, selects it. *)
Theorem bilingual_markup_reselected :
  let doc := load XmlParser.parseXml (js "<body><h1>T</h1></body>") in
  let translated := js "<p class='x'>evil</p>" in
  let doc' := insertBilingual XmlParser.parseXml doc 1 translated in
  let heading := Element 1%nat (js "h1") [] [Text (js "T")] in
  let paragraph := Element 3%nat (js "p") [(js "class", js "x")] [Text (js "evil")] in
  let inserted := Element 2%nat (js "div") [(js "class", BILINGUAL_CLASS)] [paragraph] in
  selectLeafBlocks doc = [heading] /\
  nextId doc = 2%nat /\
  stripBlockTags (js "<p>evil</p>") = js "evil" /\
  stripBlockTags translated = js "<p class='x'>evil" /\
  docRoot doc' = [Element 0%nat (js "body") [] [heading; inserted]] /\
  ~ hasClass paragraph BILINGUAL_CLASS /\
  selectLeafBlocks doc' = [heading; paragraph].
Proof.
  intros doc translated doc' heading paragraph inserted.
  repeat (split; [vm_compute; reflexivity|]).
  split; [|vm_compute; reflexivity].
  intros H. vm_compute in H. inversion H as [|x y l H']. inversion H'.
Qed.

(** ** A result shorter than the chunk *)






Section Padded.
Variable parse : jsstring -> list Markup.
Variable render : list Node -> jsstring.
Variable service : nat -> Request -> Reply.
Variable pad : nat -> Request -> nat.
Variable p : TranslateEpubParams.



End Padded.




(** * Further properties *)

(** ** The block-count cap *)

Lemma cap_positive q : (0 < q)%Q -> MAX_PARAS_PER_CHUNK (Finite q) = Finite q.
Proof.
  intros Hq. unfold MAX_PARAS_PER_CHUNK, num_gt, ofZ, num_lt. cbn [Number_isFinite andb].
  destruct (Qle_bool q (inject_Z 0)) eqn:E; [|reflexivity].
  apply Qle_bool_iff in E. change (inject_Z 0) with 0%Q in E. lra.
Qed.

Lemma underCap_one q b : (0 < q)%Q -> underCap q (pushBlock emptyChunk b).
Proof.
  intros Hq. unfold underCap. cbn [nodes pushBlock emptyChunk app length Z.of_nat].
  change (inject_Z (Z.of_nat 1)) with 1%Q. lra.
Qed.

Lemma underCap_push q cur b :
  num_ge (ofZ (Z.of_nat (length (nodes cur)))) (Finite q) = false ->
  underCap q (pushBlock cur b).
Proof.
  unfold num_ge, num_le, ofZ, underCap. intros H. cbn [nodes pushBlock].
  rewrite length_app. cbn [length]. rewrite Nat2Z.inj_add, inject_Z_plus.
  change (inject_Z (Z.of_nat 1)) with 1%Q.
  assert (~ (q <= inject_Z (Z.of_nat (length (nodes cur))))%Q) as Hn.
  { intros Hle. apply Qle_bool_iff in Hle. congruence. }
  lra.
Qed.

Lemma underCap_step maxChars q st b :
  (0 < q)%Q ->
  Forall (underCap q) st.1 /\ (nodes st.2 = [] \/ underCap q st.2) ->
  Forall (underCap q) (chunkStep maxChars (Finite q) st b).1 /\
  (nodes (chunkStep maxChars (Finite q) st b).2 = [] \/
   underCap q (chunkStep maxChars (Finite q) st b).2).
Proof.
  intros Hq. destruct st as [chunks cur]. cbn [fst snd]. intros [Hcl Hcur].
  unfold chunkStep.
  destruct (num_ge (ofZ (Z.of_nat (length (nodes cur)))) (Finite q)) eqn:Hcount.
  - rewrite orb_true_r. cbn [andb].
    destruct (0 <? Z.of_nat (length (nodes cur))) eqn:Hne.
    + assert (Hc : underCap q cur).
      { destruct Hcur as [E|Hc]; [|exact Hc]. rewrite E in Hne. discriminate Hne. }
      destruct (maxChars <=? _); cbn [fst snd].
      * split; [|left; reflexivity].
        apply Forall_app; split; [apply Forall_app; split; [exact Hcl|]|];
          (constructor; [|constructor]); [exact Hc|apply underCap_one; exact Hq].
      * split; [|right; apply underCap_one; exact Hq].
        apply Forall_app; split; [exact Hcl|]. constructor; [exact Hc|constructor].
    + assert (E : nodes cur = []) by (destruct (nodes cur); [reflexivity|discriminate Hne]).
      assert (Hone : underCap q (pushBlock cur b)).
      { unfold underCap. cbn [nodes pushBlock]. rewrite E. cbn [app length].
        change (inject_Z (Z.of_nat 1)) with 1%Q. lra. }
      destruct (maxChars <=? _); cbn [fst snd].
      * split; [|left; reflexivity].
        apply Forall_app; split; [exact Hcl|]. constructor; [exact Hone|constructor].
      * split; [exact Hcl|right; exact Hone].
  - rewrite orb_false_r.
    pose proof (underCap_push q cur b Hcount) as Hpush.
    destruct (_ && _).
    + destruct (maxChars <=? _); cbn [fst snd].
      * split; [|left; reflexivity].
        assert (Hc : underCap q cur).
        { unfold underCap in *. cbn [nodes pushBlock] in Hpush.
          rewrite length_app in Hpush. cbn [length] in Hpush.
          rewrite Nat2Z.inj_add, inject_Z_plus in Hpush.
          change (inject_Z (Z.of_nat 1)) with 1%Q in Hpush. lra. }
        apply Forall_app; split; [apply Forall_app; split; [exact Hcl|]|];
          (constructor; [|constructor]); [exact Hc|apply underCap_one; exact Hq].
      * split; [|right; apply underCap_one; exact Hq].
        assert (Hc : underCap q cur).
        { unfold underCap in *. cbn [nodes pushBlock] in Hpush.
          rewrite length_app in Hpush. cbn [length] in Hpush.
          rewrite Nat2Z.inj_add, inject_Z_plus in Hpush.
          change (inject_Z (Z.of_nat 1)) with 1%Q in Hpush. lra. }
        apply Forall_app; split; [exact Hcl|]. constructor; [exact Hc|constructor].
    + destruct (maxChars <=? _); cbn [fst snd].
      * split; [|left; reflexivity].
        apply Forall_app; split; [exact Hcl|]. constructor; [exact Hpush|constructor].
      * split; [exact Hcl|right; exact Hpush].
Qed.

Lemma underCap_loop maxChars q filtered st :
  (0 < q)%Q ->
  Forall (underCap q) st.1 /\ (nodes st.2 = [] \/ underCap q st.2) ->
  Forall (underCap q) (chunkLoop maxChars (Finite q) filtered st).1 /\
  (nodes (chunkLoop maxChars (Finite q) filtered st).2 = [] \/
   underCap q (chunkLoop maxChars (Finite q) filtered st).2).
Proof.
  intros Hq. revert st. induction filtered as [|b bs IH]; intros st H; [exact H|].
  cbn [chunkLoop fold_left]. apply IH. apply underCap_step; assumption.
Qed.

(** X1. With a finite positive [chunkSize] every chunk holds fewer than
    [chunkSize + 1] blocks: at most [chunkSize] of them when it is a whole
    number. *)
Theorem block_count_cap :
  forall (maxChars : Z) (q : Q) (filtered : list Block) (c : Chunk),
    (0 < q)%Q ->
    c ∈ chunker maxChars (Finite q) filtered ->
    (inject_Z (Z.of_nat (length (nodes c))) < q + 1)%Q.
Proof.
  intros maxChars q filtered c Hq. unfold chunker, chunkWith.
  rewrite (cap_positive q Hq).
  assert (H0 : Forall (underCap q) (@nil Chunk, emptyChunk).1 /\
               (nodes (@nil Chunk, emptyChunk).2 = [] \/
                underCap q (@nil Chunk, emptyChunk).2)).
  { split; [constructor|left; reflexivity]. }
  pose proof (underCap_loop maxChars q filtered ([], emptyChunk) Hq H0) as H. clear H0.
  destruct (chunkLoop maxChars (Finite q) filtered ([], emptyChunk)) as [chunks cur].
  cbn [fst snd] in H. destruct H as [Hcl Hcur].
  rewrite Forall_forall in Hcl.
  destruct (0 <? Z.of_nat (length (nodes cur))) eqn:Hne.
  - intros Hin. apply elem_of_app in Hin as [Hin|Hin]; [exact (Hcl c Hin)|].
    apply list_elem_of_singleton in Hin as ->.
    destruct Hcur as [E|Hc]; [rewrite E in Hne; discriminate Hne|exact Hc].
  - intros Hin. exact (Hcl c Hin).
Qed.

Lemma block_count_cap_witness :
  let filtered := [para 1 3; para 2 3; para 3 3] in
  let c := {| nodes := [1%nat; 2%nat; 3%nat];
              texts := [text (para 1 3); text (para 2 3); text (para 3 3)];
              charCount := 15 |} in
  c ∈ chunker 100 (Finite (5 # 2)) filtered /\
  (inject_Z (Z.of_nat (length (nodes c))) < (5 # 2) + 1)%Q.
Proof.
  intros filtered c.
  assert (Hin : c ∈ chunker 100 (Finite (5 # 2)) filtered).
  2:{ split; [exact Hin|].
      apply (block_count_cap 100 (5 # 2) filtered c); [reflexivity|exact Hin]. }
  vm_compute. left.
Defined.

(** ** The packing is greedy *)

Lemma greedy_nil maxChars maxParas : greedy maxChars maxParas [].
Proof. intros pre c1 c2 post E. destruct pre; discriminate E. Qed.

Lemma greedy_one maxChars maxParas c : greedy maxChars maxParas [c].
Proof.
  intros pre c1 c2 post E. destruct pre as [|x pre]; [discriminate E|].
  destruct pre; discriminate E.
Qed.

(** A chunk more at the end. *)
Lemma greedy_snoc maxChars maxParas l c :
  greedy maxChars maxParas l ->
  (forall pre c1, l = pre ++ [c1] -> startsAfter maxChars maxParas c1 c) ->
  greedy maxChars maxParas (l ++ [c]).
Proof.
  intros Hl Hlast pre c1 c2 post E.
  destruct post as [|x post _] using rev_ind.
  - change (pre ++ [c1; c2]) with (pre ++ [c1] ++ [c2]) in E.
    rewrite app_assoc in E. apply app_inj_tail in E as [-> <-].
    exact (Hlast pre c1 eq_refl).
  - change (pre ++ c1 :: c2 :: post ++ [x]) with (pre ++ (c1 :: c2 :: post) ++ [x]) in E.
    rewrite app_assoc in E. apply app_inj_tail in E as [-> _].
    exact (Hl pre c1 c2 post eq_refl).
Qed.

Lemma greedyInv_init maxChars maxParas : greedyInv maxChars maxParas ([], emptyChunk).
Proof.
  split; cbn [fst snd].
  - apply greedy_nil.
  - reflexivity.
  - intros pre c1 E. destruct pre; discriminate E.
Qed.

(** The chunk that holds just [b] is closed at once, or stays open. *)
Lemma greedyInv_fresh maxChars maxParas chunks b :
  greedy maxChars maxParas chunks ->
  (forall pre c1, chunks = pre ++ [c1] -> closes maxChars maxParas c1 (text b)) ->
  greedyInv maxChars maxParas
    (if maxChars <=? charCount (pushBlock emptyChunk b)
     then (chunks ++ [pushBlock emptyChunk b], emptyChunk)
     else (chunks, pushBlock emptyChunk b)).
Proof.
  intros Hg Hlast.
  destruct (Z.leb_spec maxChars (charCount (pushBlock emptyChunk b))) as [Hge|Hlt].
  - split; cbn [fst snd].
    + apply greedy_snoc; [exact Hg|]. intros pre c1 E.
      exists (text b), []. split; [reflexivity|exact (Hlast pre c1 E)].
    + reflexivity.
    + intros pre c1 E. apply app_inj_tail in E as [_ <-]. exact Hge.
  - split; cbn [fst snd].
    + exact Hg.
    + reflexivity.
    + intros pre c1 E. exact (Hlast pre c1 E).
Qed.

Lemma greedyInv_step maxChars maxParas st b :
  greedyInv maxChars maxParas st ->
  greedyInv maxChars maxParas (chunkStep maxChars maxParas st b).
Proof.
  destruct st as [chunks cur]. intros [Hg Hs Hop]. cbn [fst snd] in *.
  unfold chunkStep.
  set (byChars := (0 <? charCount cur) && (maxChars <? charCount cur + strlen (text b) + 2)).
  set (byCount := num_ge _ maxParas).
  destruct ((byChars || byCount) && (0 <? Z.of_nat (length (nodes cur)))) eqn:Hflush.
  - (* the open chunk is closed first *)
    apply andb_true_iff in Hflush as [Hwhy Hne].
    assert (Hcl : closes maxChars maxParas cur (text b)).
    { apply orb_true_iff in Hwhy as [H|H].
      - left. subst byChars. apply andb_true_iff in H as [_ H]. lia.
      - right. left. exact H. }
    apply greedyInv_fresh.
    + apply greedy_snoc; [exact Hg|]. intros pre c1 E. specialize (Hop pre c1 E).
      destruct (texts cur) as [|t ts] eqn:Ht.
      * destruct (nodes cur); [discriminate Hne|discriminate Hs].
      * exists t, ts. split; [exact Ht|exact Hop].
    + intros pre c1 E. apply app_inj_tail in E as [_ <-]. exact Hcl.
  - destruct (texts cur) as [|t ts] eqn:Ht.
    + (* nothing open: the block starts a chunk *)
      cbv beta iota zeta.
      destruct (Z.leb_spec maxChars (charCount (pushBlock cur b))) as [Hge|Hlt].
      * split; cbn [fst snd].
        -- apply greedy_snoc; [exact Hg|]. intros pre c1 E. specialize (Hop pre c1 E).
           exists (text b), []. cbn [texts pushBlock]. rewrite Ht.
           split; [reflexivity|]. right. right. exact Hop.
        -- reflexivity.
        -- intros pre c1 E. apply app_inj_tail in E as [_ <-]. exact Hge.
      * split; cbn [fst snd].
        -- exact Hg.
        -- cbn [nodes texts pushBlock]. rewrite !length_app, Hs, Ht. reflexivity.
        -- intros pre c1 E. specialize (Hop pre c1 E). cbn [texts pushBlock].
           rewrite Ht. cbn [app]. right. right. exact Hop.
    + (* the block joins the open chunk *)
      cbv beta iota zeta.
      destruct (Z.leb_spec maxChars (charCount (pushBlock cur b))) as [Hge|Hlt].
      * split; cbn [fst snd].
        -- apply greedy_snoc; [exact Hg|]. intros pre c1 E. specialize (Hop pre c1 E).
           exists t, (ts ++ [text b]). cbn [texts pushBlock]. rewrite Ht.
           split; [reflexivity|exact Hop].
        -- reflexivity.
        -- intros pre c1 E. apply app_inj_tail in E as [_ <-]. exact Hge.
      * split; cbn [fst snd].
        -- exact Hg.
        -- cbn [nodes texts pushBlock]. rewrite !length_app, Hs, Ht. reflexivity.
        -- intros pre c1 E. specialize (Hop pre c1 E). cbn [texts pushBlock].
           rewrite Ht. cbn [app]. exact Hop.
Qed.

Lemma greedyInv_loop maxChars maxParas filtered st :
  greedyInv maxChars maxParas st ->
  greedyInv maxChars maxParas (chunkLoop maxChars maxParas filtered st).
Proof.
  revert st. induction filtered as [|b bs IH]; intros st H; [exact H|].
  cbn [chunkLoop fold_left]. apply IH. apply greedyInv_step. exact H.
Qed.

(** X2. The packing is greedy: a chunk is closed only when it has to be.
    Of two chunks in a row, the second starts with a block the first had no
    room for: with it the first would pass the character budget or the
    block-count cap, or the first had reached the budget already. *)
Theorem chunks_are_greedy :
  forall (maxChars : Z) (chunkSize : number) (filtered : list Block)
         (pre post : list Chunk) (c1 c2 : Chunk),
    chunker maxChars chunkSize filtered = pre ++ c1 :: c2 :: post ->
    exists t rest,
      texts c2 = t :: rest /\
      (maxChars < charCount c1 + strlen t + 2 \/
       num_ge (ofZ (Z.of_nat (length (nodes c1)))) (MAX_PARAS_PER_CHUNK chunkSize) = true \/
       maxChars <= charCount c1).
Proof.
  intros maxChars chunkSize filtered pre post c1 c2. unfold chunker, chunkWith.
  pose proof (greedyInv_loop maxChars (MAX_PARAS_PER_CHUNK chunkSize) filtered _
                (greedyInv_init maxChars _)) as H.
  destruct (chunkLoop maxChars _ filtered ([], emptyChunk)) as [chunks cur].
  destruct H as [Hg Hs Hop]. cbn [fst snd] in *.
  destruct (0 <? Z.of_nat (length (nodes cur))) eqn:Hne.
  - intros E. refine (greedy_snoc _ _ chunks cur Hg _ pre c1 c2 post E).
    intros pre' c1' E'. specialize (Hop pre' c1' E').
    destruct (texts cur) as [|t ts] eqn:Ht.
    + destruct (nodes cur); [discriminate Hne|discriminate Hs].
    + exists t, ts. split; [exact Ht|exact Hop].
  - intros E. exact (Hg pre c1 c2 post E).
Qed.

Lemma chunks_are_greedy_witness :
  let c1 := wholeChunk [para 1 10; para 2 20] in
  let c2 := wholeChunk [para 3 30] in
  chunker 40 (ofZ 0) [para 1 10; para 2 20; para 3 30] = [] ++ c1 :: c2 :: [] /\
  exists t rest,
    texts c2 = t :: rest /\
    (40 < charCount c1 + strlen t + 2 \/
     num_ge (ofZ (Z.of_nat (length (nodes c1)))) (MAX_PARAS_PER_CHUNK (ofZ 0)) = true \/
     40 <= charCount c1).
Proof.
  intros c1 c2.
  assert (E : chunker 40 (ofZ 0) [para 1 10; para 2 20; para 3 30] = [] ++ c1 :: c2 :: [])
    by (vm_compute; reflexivity).
  split; [exact E|].
  exact (chunks_are_greedy 40 (ofZ 0) _ [] [] c1 c2 E).
Defined.

(** ** A document within the budget *)

Lemma cap_allows maxParas n k :
  num_lt (ofZ (Z.of_nat n - 1)) maxParas = true -> (k < n)%nat ->
  num_ge (ofZ (Z.of_nat k)) maxParas = false.
Proof.
  unfold num_ge, num_le, num_lt, ofZ. intros H Hk.
  destruct maxParas as [| | |q]; try discriminate H; try reflexivity.
  destruct (Qle_bool q (inject_Z (Z.of_nat k))) eqn:E; [|reflexivity].
  apply Qle_bool_iff in E. apply negb_true_iff in H.
  assert (~ (q <= inject_Z (Z.of_nat n - 1))%Q) as Hn.
  { intros Hle. apply Qle_bool_iff in Hle. congruence. }
  exfalso. apply Hn. eapply Qle_trans; [exact E|].
  rewrite <- Zle_Qle. lia.
Qed.

Lemma one_chunk_loop maxChars maxParas filtered cur :
  length (nodes cur) = length (texts cur) ->
  charCount cur = charTotal (texts cur) ->
  charCount cur + charTotal (map text filtered) <= maxChars ->
  (forall k, (k < length (nodes cur) + length filtered)%nat ->
             num_ge (ofZ (Z.of_nat k)) maxParas = false) ->
  let all := {| nodes := nodes cur ++ map node filtered;
                texts := texts cur ++ map text filtered;
                charCount := charCount cur + charTotal (map text filtered) |} in
  nodes cur ++ map node filtered <> [] ->
  (let '(chunks, last) := chunkLoop maxChars maxParas filtered ([], cur) in
   if 0 <? Z.of_nat (length (nodes last)) then chunks ++ [last] else chunks) = [all].
Proof.
  revert cur. induction filtered as [|b bs IH]; intros cur Hl Hc Hfit Hcap all Hne.
  - subst all. cbn [chunkLoop fold_left map app charTotal foldr] in *.
    rewrite !app_nil_r in *. rewrite Z.add_0_r.
    destruct (nodes cur) as [|n ns] eqn:Hn; [congruence|]. cbn.
    destruct cur; cbn in *. subst. reflexivity.
  - cbn [chunkLoop fold_left]. unfold chunkStep at 2.
    rewrite (Hcap (length (nodes cur))) by (cbn [length]; lia).
    rewrite orb_false_r.
    cbn [map charTotal foldr] in Hfit. fold (charTotal (map text bs)) in Hfit.
    pose proof (charTotal_nonneg (map text bs)) as Hnn.
    assert (Hby : (0 <? charCount cur) && (maxChars <? charCount cur + strlen (text b) + 2)
                  = false).
    { apply andb_false_iff. right. lia. }
    rewrite Hby. cbn [andb]. cbv beta iota zeta.
    destruct (Z.leb_spec maxChars (charCount (pushBlock cur b))) as [Hge|Hlt].
    + (* the budget is met: this was the last block *)
      cbn [charCount pushBlock] in Hge.
      destruct bs as [|b' bs].
      * subst all. cbn [chunkLoop fold_left map app charTotal foldr length].
        cbn [emptyChunk nodes length Z.of_nat Z.ltb Z.compare]. cbn [app].
        unfold pushBlock. do 2 f_equal. lia.
      * exfalso. pose proof (charTotal_pos (map text (b' :: bs))) as Hp.
        cbn [map] in Hp. specialize (Hp ltac:(discriminate)).
        cbn [map] in Hnn, Hfit. lia.
    + change (fold_left (chunkStep maxChars maxParas) bs ([], pushBlock cur b))
        with (chunkLoop maxChars maxParas bs ([], pushBlock cur b)).
      specialize (IH (pushBlock cur b)).
      cbn [nodes texts charCount pushBlock] in IH.
      rewrite <- !app_assoc in IH. cbn [app] in IH.
      rewrite IH.
      * subst all. cbn [map charTotal foldr]. fold (charTotal (map text bs)).
        f_equal. f_equal. lia.
      * rewrite !length_app, Hl. reflexivity.
      * rewrite charTotal_snoc, Hc. reflexivity.
      * lia.
      * intros k Hk. apply Hcap. rewrite length_app in Hk. cbn [length] in *. lia.
      * destruct (nodes cur); discriminate.
Qed.

(** X3. A document whose blocks fit the budget and the cap together goes in
    one chunk: when the character total of all blocks is at most the
    budget and their number less one is below the block-count cap, the
    chunker gives the single chunk of all blocks, in order. *)
Theorem small_document_one_chunk :
  forall (maxChars : Z) (chunkSize : number) (filtered : list Block),
    filtered <> [] ->
    charTotal (map text filtered) <= maxChars ->
    num_lt (ofZ (Z.of_nat (length filtered) - 1)) (MAX_PARAS_PER_CHUNK chunkSize) = true ->
    chunker maxChars chunkSize filtered =
      [ {| nodes := map node filtered; texts := map text filtered;
           charCount := charTotal (map text filtered) |} ].
Proof.
  intros maxChars chunkSize filtered Hne Hfit Hcap. unfold chunker, chunkWith.
  apply (one_chunk_loop maxChars (MAX_PARAS_PER_CHUNK chunkSize) filtered emptyChunk).
  - reflexivity.
  - reflexivity.
  - exact Hfit.
  - intros k Hk. cbn [emptyChunk nodes length Nat.add] in Hk.
    exact (cap_allows _ _ _ Hcap Hk).
  - cbn [emptyChunk nodes app]. destruct filtered; [congruence|discriminate].
Qed.

Lemma small_document_one_chunk_witness :
  chunker 4096 (ofZ 3) [para 1 10; para 2 4000; para 3 50] =
    [ {| nodes := map node [para 1 10; para 2 4000; para 3 50];
         texts := map text [para 1 10; para 2 4000; para 3 50];
         charCount := charTotal (map text [para 1 10; para 2 4000; para 3 50]) |} ].
Proof.
  apply (small_document_one_chunk 4096 (ofZ 3) [para 1 10; para 2 4000; para 3 50]).
  - discriminate.
  - vm_compute. discriminate.
  - reflexivity.
Defined.

(** ** What a match is made of *)

Lemma forallb_mono {A} (f g : A -> bool) l :
  (forall x, f x = true -> g x = true) -> forallb f l = true -> forallb g l = true.
Proof.
  intros H. induction l as [|x l IH]; [reflexivity|]. cbn [forallb].
  intros Hf. apply andb_true_iff in Hf as [Hx Hl]. rewrite (H x Hx), (IH Hl). reflexivity.
Qed.

Lemma plusLoop_consumes {A} (r : regex) :
  (forall prev s (k : option N -> jsstring -> option A) a,
     rmatch r prev s k = Some a ->
     exists w rest prev',
       s = w ++ rest /\ forallb (unitsOf r) w = true /\
       (consuming r = true -> w <> []) /\ k prev' rest = Some a) ->
  forall fuel prev s (k : option N -> jsstring -> option A) a,
    plusLoop (rmatch r) k fuel prev s = Some a ->
    exists w rest prev',
      s = w ++ rest /\ forallb (unitsOf r) w = true /\
      (consuming r = true -> w <> []) /\ k prev' rest = Some a.
Proof.
  intros IH. induction fuel as [|fuel IHf]; intros prev s k a H; [discriminate H|].
  cbn [plusLoop] in H.
  apply IH in H as (w1 & rest1 & prev1 & -> & Hu1 & Hc1 & H).
  destruct (if (length rest1 <? length (w1 ++ rest1))%nat
            then plusLoop (rmatch r) k fuel prev1 rest1 else None) as [a'|] eqn:E.
  - injection H as ->. destruct (length rest1 <? length (w1 ++ rest1))%nat; [|discriminate E].
    apply IHf in E as (w2 & rest & prev' & -> & Hu2 & _ & Hk).
    exists (w1 ++ w2), rest, prev'. rewrite app_assoc. split; [reflexivity|].
    split; [rewrite forallb_app, Hu1, Hu2; reflexivity|]. split; [|exact Hk].
    intros Hc E. apply app_eq_nil in E as [E _]. exact (Hc1 Hc E).
  - exists w1, rest1, prev1. auto.
Qed.

(** A match is a prefix of the input, made of code units of the
    expression, and not empty when the expression consumes. *)
Lemma rmatch_consumes {A} (r : regex) prev s (k : option N -> jsstring -> option A) a :
  rmatch r prev s k = Some a ->
  exists w rest prev',
    s = w ++ rest /\ forallb (unitsOf r) w = true /\
    (consuming r = true -> w <> []) /\ k prev' rest = Some a.
Proof.
  revert prev s k a.
  induction r as [p|r1 IH1 r2 IH2|r1 IH1 r2 IH2|r1 IH1|r1 IH1| | | |];
    intros prev s k a H; cbn [rmatch] in H.
  - destruct s as [|c s]; [discriminate H|]. destruct (p c) eqn:Hp; [|discriminate H].
    exists [c], s, (Some c). cbn [forallb unitsOf app]. rewrite Hp.
    split; [reflexivity|]. split; [reflexivity|]. split; [discriminate|exact H].
  - apply IH1 in H as (w1 & rest1 & prev1 & -> & Hu1 & Hc1 & H).
    apply IH2 in H as (w2 & rest & prev' & -> & Hu2 & Hc2 & H).
    exists (w1 ++ w2), rest, prev'. rewrite app_assoc. split; [reflexivity|].
    split.
    + rewrite forallb_app. apply andb_true_iff. split.
      * eapply forallb_mono; [|exact Hu1]. intros c Hc. cbn [unitsOf]. rewrite Hc. reflexivity.
      * eapply forallb_mono; [|exact Hu2]. intros c Hc. cbn [unitsOf].
        rewrite Hc. apply orb_true_r.
    + split; [|exact H]. cbn [consuming]. intros Hc E. apply app_eq_nil in E as [E1 E2].
      apply orb_true_iff in Hc as [Hc|Hc]; [exact (Hc1 Hc E1)|exact (Hc2 Hc E2)].
  - destruct (rmatch r1 prev s k) as [a1|] eqn:E1.
    + injection H as ->. apply IH1 in E1 as (w & rest & prev' & -> & Hu & Hc & H).
      exists w, rest, prev'. split; [reflexivity|]. split.
      * eapply forallb_mono; [|exact Hu]. intros c Hcc. cbn [unitsOf]. rewrite Hcc. reflexivity.
      * split; [|exact H]. cbn [consuming]. intros Hcc. apply andb_true_iff in Hcc as [Hcc _].
        exact (Hc Hcc).
    + apply IH2 in H as (w & rest & prev' & -> & Hu & Hc & H).
      exists w, rest, prev'. split; [reflexivity|]. split.
      * eapply forallb_mono; [|exact Hu]. intros c Hcc. cbn [unitsOf].
        rewrite Hcc. apply orb_true_r.
      * split; [|exact H]. cbn [consuming]. intros Hcc. apply andb_true_iff in Hcc as [_ Hcc].
        exact (Hc Hcc).
  - exact (plusLoop_consumes r1 IH1 _ _ _ _ _ H).
  - destruct (rmatch r1 prev s k) as [a1|] eqn:E1.
    + injection H as ->. apply IH1 in E1 as (w & rest & prev' & -> & Hu & Hc & H).
      exists w, rest, prev'. split; [reflexivity|]. split; [exact Hu|].
      split; [discriminate|exact H].
    + exists [], s, prev. split; [reflexivity|]. split; [reflexivity|].
      split; [discriminate|exact H].
  - exists [], s, prev. split; [reflexivity|]. split; [reflexivity|].
    split; [discriminate|exact H].
  - destruct (xorb _ _); [|discriminate H].
    exists [], s, prev. split; [reflexivity|]. split; [reflexivity|].
    split; [discriminate|exact H].
  - destruct prev; [discriminate H|].
    exists [], s, None. split; [reflexivity|]. split; [reflexivity|].
    split; [discriminate|exact H].
  - destruct s; [|discriminate H].
    exists [], [], prev. split; [reflexivity|]. split; [reflexivity|].
    split; [discriminate|exact H].
Qed.

Lemma matchLength_inv r prev s n :
  matchLength r prev s = Some n ->
  (n <= length s)%nat /\ forallb (unitsOf r) (take n s) = true /\
  (consuming r = true -> (0 < n)%nat).
Proof.
  unfold matchLength. intros H.
  apply rmatch_consumes in H as (w & rest & prev' & -> & Hu & Hc & H).
  injection H as <-. rewrite length_app.
  replace (length w + length rest - length rest)%nat with (length w) by lia.
  rewrite take_app_length. split; [lia|]. split; [exact Hu|].
  intros Hcc. specialize (Hc Hcc). destruct w; [congruence|cbn; lia].
Qed.

(** ** Replacing *)

(** A replacement no longer than what it replaces does not lengthen. *)
Lemma replaceFrom_length r rep skip prev s :
  rep = [] \/ ((length rep <= 1)%nat /\ consuming r = true) ->
  (length (replaceFrom r rep skip prev s) <= length s)%nat.
Proof.
  intros Hrep. revert skip prev. induction s as [|c s IH]; intros skip prev.
  - destruct skip as [|skip]; cbn [replaceFrom length]; [|lia].
    destruct (matchLength r prev []) as [n|] eqn:E; [|cbn; lia].
    apply matchLength_inv in E as (Hn & _ & Hc).
    destruct Hrep as [->|[_ Hcc]].
    + destruct n; cbn; lia.
    + specialize (Hc Hcc). cbn in Hn. lia.
  - destruct skip as [|skip]; cbn [replaceFrom length].
    2:{ specialize (IH skip (Some c)). lia. }
    destruct (matchLength r prev (c :: s)) as [[|n]|] eqn:E.
    + apply matchLength_inv in E as (_ & _ & Hc).
      destruct Hrep as [->|[_ Hcc]]; [|specialize (Hc Hcc); lia].
      cbn [app length]. specialize (IH O (Some c)). lia.
    + rewrite length_app. specialize (IH n (Some c)).
      destruct Hrep as [->|[Hl _]]; cbn [length] in *; lia.
    + cbn [length]. specialize (IH O (Some c)). lia.
Qed.

(** When the matches and the replacement are made of code units of a
    class, the code units outside the class stay, in order. *)
Lemma replaceFrom_outside (P : N -> bool) r rep :
  (forall c, unitsOf r c = true -> P c = true) ->
  forallb P rep = true ->
  forall s skip prev,
    forallb P (take skip s) = true ->
    List.filter (fun c => negb (P c)) (replaceFrom r rep skip prev s) =
    List.filter (fun c => negb (P c)) s.
Proof.
  intros Hr Hrep.
  assert (Hnone : List.filter (fun c => negb (P c)) rep = []).
  { induction rep as [|x rep IH]; [reflexivity|]. cbn [forallb] in Hrep.
    apply andb_true_iff in Hrep as [Hx Hrep]. cbn [List.filter]. rewrite Hx. cbn [negb].
    exact (IH Hrep). }
  induction s as [|c s IH]; intros skip prev Hskip.
  - destruct skip as [|skip]; cbn [replaceFrom]; [|reflexivity].
    destruct (matchLength r prev []) as [[|n]|]; rewrite ?app_nil_r; try exact Hnone.
    reflexivity.
  - destruct skip as [|skip]; cbn [replaceFrom].
    + destruct (matchLength r prev (c :: s)) as [[|n]|] eqn:E.
      * rewrite List.filter_app, Hnone. cbn [app List.filter].
        rewrite (IH O (Some c) eq_refl). reflexivity.
      * apply matchLength_inv in E as (_ & Hu & _). cbn [take forallb] in Hu.
        apply andb_true_iff in Hu as [Hc Hu].
        rewrite List.filter_app, Hnone. cbn [app List.filter].
        rewrite (Hr c Hc). cbn [negb]. apply IH.
        eapply forallb_mono; [|exact Hu]. intros x. apply Hr.
      * cbn [List.filter]. rewrite (IH O (Some c) eq_refl). reflexivity.
    + cbn [take forallb] in Hskip. apply andb_true_iff in Hskip as [Hc Hskip].
      cbn [List.filter]. rewrite Hc. cbn [negb]. apply IH. exact Hskip.
Qed.

(** Where nothing matches, nothing is replaced. *)
Lemma replaceFrom_id r rep s prev :
  (forall s1 s2 prev', s = s1 ++ s2 -> matchLength r prev' s2 = None) ->
  replaceFrom r rep O prev s = s.
Proof.
  revert prev. induction s as [|c s IH]; intros prev H.
  - cbn [replaceFrom]. rewrite (H [] [] prev eq_refl). reflexivity.
  - cbn [replaceFrom]. rewrite (H [] (c :: s) prev eq_refl). f_equal.
    apply IH. intros s1 s2 prev' ->. exact (H (c :: s1) s2 prev' eq_refl).
Qed.

(** The same for an expression whose matches start in a class the text
    has no code unit of. *)
Lemma replaceFrom_no_start (F : N -> bool) r rep s prev :
  (forall prev' s' n, matchLength r prev' s' = Some n ->
     exists c, head s' = Some c /\ F c = true) ->
  forallb (fun c => negb (F c)) s = true ->
  replaceFrom r rep O prev s = s.
Proof.
  intros Hstart Hs. apply replaceFrom_id. intros s1 s2 prev' ->.
  destruct (matchLength r prev' s2) as [n|] eqn:E; [|reflexivity].
  destruct (Hstart _ _ _ E) as (c & Hc & HF). destruct s2 as [|x s2]; [discriminate Hc|].
  injection Hc as ->. rewrite forallb_app in Hs. apply andb_true_iff in Hs as [_ Hs].
  cbn [forallb] in Hs. rewrite HF in Hs. discriminate Hs.
Qed.

(** ** Trimming *)

Lemma dropWhile_length {A} (p : A -> bool) l : (length (dropWhile p l) <= length l)%nat.
Proof.
  induction l as [|x l IH]; [reflexivity|]. cbn [dropWhile].
  destruct (p x); cbn [length]; lia.
Qed.

Lemma dropWhile_filter {A} (p : A -> bool) l :
  List.filter (fun c => negb (p c)) (dropWhile p l) = List.filter (fun c => negb (p c)) l.
Proof.
  induction l as [|x l IH]; [reflexivity|]. cbn [dropWhile].
  destruct (p x) eqn:E; [|reflexivity]. cbn [List.filter]. rewrite E. exact IH.
Qed.

Lemma dropWhile_head {A} (p : A -> bool) l x : head (dropWhile p l) = Some x -> p x = false.
Proof.
  induction l as [|y l IH]; [discriminate|]. cbn [dropWhile].
  destruct (p y) eqn:E; [exact IH|]. intros [= <-]. exact E.
Qed.

Lemma dropWhile_id {A} (p : A -> bool) l :
  from_option p false (head l) = false -> dropWhile p l = l.
Proof. destruct l as [|x l]; [reflexivity|]. cbn. intros ->. reflexivity. Qed.

Lemma dropWhile_nil {A} (p : A -> bool) l : dropWhile p l = [] <-> forallb p l = true.
Proof.
  induction l as [|x l IH]; [split; reflexivity|]. cbn [dropWhile forallb].
  destruct (p x); [exact IH|]. split; discriminate.
Qed.

Lemma filter_rev {A} (f : A -> bool) l : List.filter f (rev l) = rev (List.filter f l).
Proof.
  induction l as [|x l IH]; [reflexivity|]. cbn [rev List.filter].
  rewrite List.filter_app, IH. cbn [List.filter]. destruct (f x); [reflexivity|].
  rewrite app_nil_r. reflexivity.
Qed.

Lemma forallb_rev {A} (f : A -> bool) l : forallb f (rev l) = forallb f l.
Proof.
  induction l as [|x l IH]; [reflexivity|]. cbn [rev forallb].
  rewrite forallb_app, IH. cbn [forallb]. rewrite andb_true_r. apply andb_comm.
Qed.

Lemma trim_length s : (length (trim s) <= length s)%nat.
Proof.
  unfold trim. rewrite length_rev.
  etransitivity; [apply dropWhile_length|]. rewrite length_rev. apply dropWhile_length.
Qed.

Lemma trim_inked s : inked (trim s) = inked s.
Proof.
  unfold inked, trim.
  rewrite filter_rev, (dropWhile_filter isSpace), filter_rev, rev_involutive.
  apply (dropWhile_filter isSpace).
Qed.

Lemma inked_nil s : inked s = [] <-> forallb isSpace s = true.
Proof.
  unfold inked. induction s as [|c s IH]; [split; reflexivity|].
  cbn [List.filter forallb]. destruct (isSpace c); cbn [negb andb]; [exact IH|].
  split; discriminate.
Qed.

Lemma trim_nil s : trim s = [] <-> forallb isSpace s = true.
Proof.
  unfold trim. split.
  - intros H. apply (f_equal (@rev N)) in H. rewrite rev_involutive in H. cbn [rev] in H.
    apply dropWhile_nil in H. rewrite forallb_rev in H.
    destruct (dropWhile isSpace s) as [|x l] eqn:E; [apply dropWhile_nil; exact E|].
    assert (Hx : isSpace x = false) by (apply (dropWhile_head isSpace s); rewrite E; reflexivity).
    cbn [forallb] in H. rewrite Hx in H. discriminate H.
  - intros H. apply dropWhile_nil in H. rewrite H. reflexivity.
Qed.

Lemma head_rev {A} (l : list A) : head (rev l) = last l.
Proof.
  induction l as [|x l IH] using rev_ind; [reflexivity|].
  rewrite rev_app_distr, last_snoc. reflexivity.
Qed.

Lemma trim_ends s :
  from_option isSpace false (head (trim s)) = false /\
  from_option isSpace false (last (trim s)) = false.
Proof.
  unfold trim. split.
  - rewrite head_rev.
    set (d := dropWhile isSpace s).
    destruct (dropWhile isSpace (rev d)) as [|x l] eqn:E; [reflexivity|].
    (* the first unit of [d] is not a space and is still there *)
    destruct d as [|y d'] eqn:Ed; [discriminate E|].
    assert (Hy : isSpace y = false).
    { apply (dropWhile_head isSpace s). fold d. rewrite Ed. reflexivity. }
    assert (Hl : last (x :: l) = Some y).
    { rewrite <- E. clear E.
      cbn [rev]. induction (rev d') as [|z r IH]; cbn [app dropWhile].
      - rewrite Hy. reflexivity.
      - destruct (isSpace z); [exact IH|]. rewrite last_cons, last_snoc. reflexivity. }
    rewrite Hl. cbn. exact Hy.
  - rewrite <- head_rev, rev_involutive.
    destruct (dropWhile isSpace (rev (dropWhile isSpace s))) as [|x l] eqn:E; [reflexivity|].
    cbn. apply (dropWhile_head isSpace (rev (dropWhile isSpace s))). rewrite E. reflexivity.
Qed.

Lemma trim_id s :
  from_option isSpace false (head s) = false ->
  from_option isSpace false (last s) = false ->
  trim s = s.
Proof.
  intros Hh Hl. unfold trim. rewrite (dropWhile_id isSpace s Hh).
  rewrite (dropWhile_id isSpace (rev s)); [apply rev_involutive|].
  rewrite head_rev. exact Hl.
Qed.

(** ** The replacements of the text helpers *)

Lemma units_space_newline c : unitsOf re_space_newline c = true -> isSpace c = true.
Proof.
  unfold re_space_newline, chr. cbn [unitsOf]. intros H.
  apply orb_true_iff in H as [H|H]; [exact H|]. apply N.eqb_eq in H. subst c. reflexivity.
Qed.

Lemma block_tag_start prev s n :
  matchLength re_block_tag prev s = Some n ->
  exists c, head s = Some c /\ (c =? 60)%N = true.
Proof.
  unfold matchLength, re_block_tag, chr. cbn [rmatch].
  destruct s as [|c s]; [discriminate|].
  destruct (60 =? c)%N eqn:E; [|discriminate]. intros _. exists c.
  split; [reflexivity|]. rewrite N.eqb_sym. exact E.
Qed.

(** On text without [&] the first step of [normalizeText] turns each
    no-break space into a space. *)
Lemma nbsp_match prev c s :
  (c =? 38)%N = false ->
  matchLength re_nbsp prev (c :: s) = if (c =? 160)%N then Some 1%nat else None.
Proof.
  intros Hc. unfold matchLength, re_nbsp.
  change (lit (js "&nbsp;")) with (RSeq (chr 38) (lit (js "nbsp;"))).
  change (lit (js "&#xa0;")) with (RSeq (chr 38) (lit (js "#xa0;"))).
  unfold chr at 1 2 3. cbn [rmatch].
  rewrite (N.eqb_sym 160 c), (N.eqb_sym 38 c), Hc.
  destruct (c =? 160)%N; [|reflexivity].
  cbn [length]. f_equal. lia.
Qed.

Lemma replace_nbsp_plain s prev :
  forallb (fun c => negb (c =? 38)%N) s = true ->
  replaceFrom re_nbsp [32%N] O prev s = map (fun c => if (c =? 160)%N then 32%N else c) s.
Proof.
  revert prev. induction s as [|c s IH]; intros prev H; [reflexivity|].
  cbn [forallb] in H. apply andb_true_iff in H as [Hc H]. apply negb_true_iff in Hc.
  cbn [replaceFrom map]. rewrite (nbsp_match prev c s Hc).
  destruct (c =? 160)%N; cbn [app]; rewrite (IH _ H); reflexivity.
Qed.

Lemma inked_nbsp s : inked (map (fun c => if (c =? 160)%N then 32%N else c) s) = inked s.
Proof.
  unfold inked. induction s as [|c s IH]; [reflexivity|]. cbn [map List.filter].
  destruct (c =? 160)%N eqn:E.
  - apply N.eqb_eq in E. subst c. cbn. exact IH.
  - rewrite IH. reflexivity.
Qed.

Lemma collapse_inked s prev :
  inked (replaceFrom re_space_newline [10%N] O prev s) = inked s.
Proof.
  unfold inked. apply (replaceFrom_outside isSpace).
  - exact units_space_newline.
  - reflexivity.
  - reflexivity.
Qed.

(** A match of [\s+\n] shows a white space before a line feed. *)
Lemma spaceBeforeNewline_run w rest :
  w <> [] -> forallb isSpace w = true -> spaceBeforeNewline (w ++ 10%N :: rest) = true.
Proof.
  induction w as [|c w IH]; [congruence|]. intros _ H. cbn [forallb] in H.
  apply andb_true_iff in H as [Hc H]. destruct w as [|d w].
  - cbn. rewrite Hc. reflexivity.
  - change ((c :: d :: w) ++ 10%N :: rest) with (c :: (d :: w) ++ 10%N :: rest).
    cbn [spaceBeforeNewline]. rewrite (IH ltac:(discriminate) H). apply orb_true_r.
Qed.

Lemma spaceBeforeNewline_suffix s1 s2 :
  spaceBeforeNewline s2 = true -> spaceBeforeNewline (s1 ++ s2) = true.
Proof.
  intros H. induction s1 as [|c s1 IH]; [exact H|].
  change ((c :: s1) ++ s2) with (c :: s1 ++ s2). cbn [spaceBeforeNewline].
  rewrite IH. apply orb_true_r.
Qed.

Lemma space_newline_found prev s n :
  matchLength re_space_newline prev s = Some n -> spaceBeforeNewline s = true.
Proof.
  unfold matchLength, re_space_newline. intros H.
  change (rmatch (RSeq ?r1 ?r2) prev s ?k)
    with (rmatch r1 prev s (fun p s' => rmatch r2 p s' k)) in H.
  apply rmatch_consumes in H as (w & rest & prev' & -> & Hu & Hc & H).
  unfold chr in H. cbn [rmatch] in H. destruct rest as [|d rest]; [discriminate H|].
  destruct (10 =? d)%N eqn:E; [|discriminate H]. apply N.eqb_eq in E. subst d.
  apply spaceBeforeNewline_run; [apply Hc; reflexivity|exact Hu].
Qed.

Lemma collapse_tidy s prev :
  spaceBeforeNewline s = false -> replaceFrom re_space_newline [10%N] O prev s = s.
Proof.
  intros H. apply replaceFrom_id. intros s1 s2 prev' ->.
  destruct (matchLength re_space_newline prev' s2) as [n|] eqn:E; [|reflexivity].
  apply space_newline_found in E. rewrite (spaceBeforeNewline_suffix s1 s2 E) in H.
  discriminate H.
Qed.

Lemma tidy_inv s :
  tidy s = true ->
  from_option isSpace false (head s) = false /\
  from_option isSpace false (last s) = false /\
  spaceBeforeNewline s = false.
Proof.
  unfold tidy. intros H. apply andb_true_iff in H as [H H3].
  apply andb_true_iff in H as [H1 H2].
  apply negb_true_iff in H1, H2, H3. auto.
Qed.

(** X4. The text helpers never lengthen a string: the normalized text of
    a block and the stripped form of a translation have at most the length
    of what they were made from. *)
Theorem text_helpers_never_lengthen :
  forall s : jsstring,
    strlen (normalizeText s) <= strlen s /\ strlen (stripBlockTags s) <= strlen s.
Proof.
  intros s. unfold strlen, normalizeText, stripBlockTags, replaceAll. split.
  - pose proof (trim_length (replaceFrom re_space_newline [10%N] O None
                               (replaceFrom re_nbsp [32%N] O None s))) as H1.
    pose proof (replaceFrom_length re_space_newline [10%N] O None
                  (replaceFrom re_nbsp [32%N] O None s)
                  (or_intror (conj (le_n 1) eq_refl))) as H2.
    pose proof (replaceFrom_length re_nbsp [32%N] O None s
                  (or_intror (conj (le_n 1) eq_refl))) as H3.
    lia.
  - pose proof (trim_length (replaceFrom re_space_newline [10%N] O None
                               (replaceFrom re_block_tag [] O None s))) as H1.
    pose proof (replaceFrom_length re_space_newline [10%N] O None
                  (replaceFrom re_block_tag [] O None s)
                  (or_intror (conj (le_n 1) eq_refl))) as H2.
    pose proof (replaceFrom_length re_block_tag [] O None s (or_introl eq_refl)) as H3.
    lia.
Qed.

Lemma normalizeText_inked s :
  forallb (fun c => negb (c =? 38)%N) s = true -> inked (normalizeText s) = inked s.
Proof.
  intros H. unfold normalizeText, replaceAll.
  rewrite trim_inked, collapse_inked, (replace_nbsp_plain s None H). apply inked_nbsp.
Qed.

(** X5. On text without [&], [normalizeText] changes white space only:
    the code units that are not white space are those of the input, in
    order. *)
Theorem normalizeText_keeps_text :
  forall s : jsstring,
    forallb (fun c => negb (c =? 38)%N) s = true ->
    List.filter (fun c => negb (isSpace c)) (normalizeText s) =
    List.filter (fun c => negb (isSpace c)) s.
Proof. exact normalizeText_inked. Qed.

Lemma normalizeText_keeps_text_witness :
  List.filter (fun c => negb (isSpace c)) (normalizeText (js " a  b ")) =
  List.filter (fun c => negb (isSpace c)) (js " a  b ").
Proof. apply (normalizeText_keeps_text (js " a  b ")). reflexivity. Defined.

(** X6. On text without [&], the normalized text is empty exactly when
    the text is all white space: these are the blocks the filter of step 3
    drops. *)
Theorem normalizeText_empty_iff_blank :
  forall s : jsstring,
    forallb (fun c => negb (c =? 38)%N) s = true ->
    (normalizeText s = [] <-> forallb isSpace s = true).
Proof.
  intros s H. rewrite <- (inked_nil s), <- (normalizeText_inked s H). split.
  - intros ->. reflexivity.
  - intros Hi. apply inked_nil in Hi.
    (* a trimmed string of white space only is empty *)
    pose proof (proj1 (trim_ends (replaceAll re_space_newline [10%N]
                                    (replaceAll re_nbsp [32%N] s)))) as Hh.
    fold (normalizeText s) in Hh.
    destruct (normalizeText s) as [|x l]; [reflexivity|].
    cbn in Hh, Hi. rewrite Hh in Hi. discriminate Hi.
Qed.

Lemma normalizeText_empty_iff_blank_witness :
  normalizeText [32%N; 160%N; 10%N] = [] <-> forallb isSpace [32%N; 160%N; 10%N] = true.
Proof. apply (normalizeText_empty_iff_blank [32%N; 160%N; 10%N]). reflexivity. Defined.

Lemma strip_plain s :
  forallb (fun c => negb (c =? 60)%N) s = true ->
  replaceFrom re_block_tag [] O None s = s.
Proof. apply (replaceFrom_no_start (fun c => (c =? 60)%N)). exact block_tag_start. Qed.

(** X7. A translation without [<] loses nothing but white space to
    [stripBlockTags], and is left as it is when it is tidy: no white space
    at either end and none before a line feed. *)
Theorem stripBlockTags_plain :
  forall s : jsstring,
    forallb (fun c => negb (c =? 60)%N) s = true ->
    List.filter (fun c => negb (isSpace c)) (stripBlockTags s) =
      List.filter (fun c => negb (isSpace c)) s /\
    (tidy s = true -> stripBlockTags s = s).
Proof.
  intros s H. unfold stripBlockTags, replaceAll. rewrite (strip_plain s H). split.
  - fold (inked s). rewrite <- (collapse_inked s None). apply trim_inked.
  - intros Ht. apply tidy_inv in Ht as (Hh & Hl & Hn).
    rewrite (collapse_tidy s None Hn). apply trim_id; assumption.
Qed.

Lemma stripBlockTags_plain_witness :
  List.filter (fun c => negb (isSpace c)) (stripBlockTags (js "un  deux")) =
    List.filter (fun c => negb (isSpace c)) (js "un  deux") /\
  (tidy (js "un  deux") = true -> stripBlockTags (js "un  deux") = js "un  deux").
Proof. apply (stripBlockTags_plain (js "un  deux")). reflexivity. Defined.

(** ** The white-space step *)

Lemma plusLoop_runEnd (L : nat) s fuel prev :
  (length s < fuel)%nat -> (length s <= L)%nat ->
  plusLoop (rmatch (RChar isSpace))
    (fun p s' => rmatch (chr 10) p s' (fun _ rest => Some (L - length rest)%nat))
    fuel prev s
  = (fun n => (L - length s + n)%nat) <$> runEnd s.
Proof.
  revert fuel prev. induction s as [|c s IH]; intros fuel prev Hf HL.
  - destruct fuel; [cbn in Hf; lia|]. reflexivity.
  - destruct fuel as [|fuel]; [lia|]. cbn [length] in Hf, HL.
    cbn [plusLoop runEnd].
    change (rmatch (RChar isSpace) prev (c :: s) ?k)
      with (if isSpace c then k (Some c) s else None).
    destruct (isSpace c); [|reflexivity]. cbv beta.
    replace (length s <? length (c :: s))%nat with true
      by (symmetry; apply Nat.ltb_lt; cbn [length]; lia).
    rewrite (IH fuel (Some c)) by lia.
    destruct (runEnd s) as [n|]; cbn [fmap option_fmap option_map].
    + f_equal. cbn [length]. lia.
    + unfold chr. cbn [rmatch]. destruct s as [|d s]; [reflexivity|].
      rewrite (N.eqb_sym 10 d). destruct (d =? 10)%N; [|reflexivity].
      cbn [fmap option_fmap option_map length]. f_equal. cbn [length] in HL. lia.
Qed.

Lemma matchLength_space_newline prev s : matchLength re_space_newline prev s = runEnd s.
Proof.
  unfold matchLength, re_space_newline.
  change (rmatch (RSeq (RPlus (RChar isSpace)) (chr 10)) prev s ?k)
    with (plusLoop (rmatch (RChar isSpace)) (fun p s' => rmatch (chr 10) p s' k)
            (S (length s)) prev s).
  rewrite (plusLoop_runEnd (length s) s (S (length s)) prev) by lia.
  destruct (runEnd s) as [n|]; cbn; [f_equal; lia|reflexivity].
Qed.

Lemma runEnd_none c s :
  isSpace c = true -> runEnd (c :: s) = None ->
  runEnd s = None /\ head s <> Some 10%N.
Proof.
  cbn [runEnd]. intros -> H. destruct (runEnd s); [discriminate H|].
  split; [reflexivity|]. destruct s as [|d s]; [discriminate|].
  destruct (d =? 10)%N eqn:E; [discriminate H|]. cbn. intros [= ->]. discriminate E.
Qed.

Lemma runEnd_inv s n :
  runEnd s = Some n ->
  (2 <= n <= length s)%nat /\ runEnd (drop n s) = None /\ head (drop n s) <> Some 10%N.
Proof.
  revert n. induction s as [|c s IH]; intros n H; [discriminate H|].
  cbn [runEnd] in H. destruct (isSpace c); [|discriminate H].
  destruct (runEnd s) as [m|] eqn:E.
  - injection H as <-. destruct (IH m eq_refl) as (Hm & Hd & Hh).
    cbn [length drop]. split; [lia|]. split; assumption.
  - destruct s as [|d s]; [discriminate H|].
    destruct (d =? 10)%N eqn:Ed; [|discriminate H]. injection H as <-.
    cbn [length drop]. split; [lia|].
    apply N.eqb_eq in Ed. subst d. exact (runEnd_none 10%N s eq_refl E).
Qed.

(** What is passed over is dropped. *)
Lemma collapse_skip rep skip prev s :
  replaceFrom re_space_newline rep skip prev s =
  replaceFrom re_space_newline rep O None (drop skip s).
Proof.
  revert skip prev. induction s as [|c s IH]; intros skip prev.
  - destruct skip; cbn [replaceFrom drop]; rewrite ?matchLength_space_newline; reflexivity.
  - destruct skip as [|skip]; cbn [drop].
    + cbn [replaceFrom]. rewrite !matchLength_space_newline.
      destruct (runEnd (c :: s)) as [[|n]|]; reflexivity.
    + cbn [replaceFrom]. apply IH.
Qed.

Lemma collapse_cons c s :
  replaceFrom re_space_newline [10%N] O None (c :: s) =
  match runEnd (c :: s) with
  | Some n => 10%N :: replaceFrom re_space_newline [10%N] O None (drop n (c :: s))
  | None => c :: replaceFrom re_space_newline [10%N] O None s
  end.
Proof.
  cbn [replaceFrom]. rewrite matchLength_space_newline.
  destruct (runEnd (c :: s)) as [[|n]|] eqn:E.
  - apply runEnd_inv in E as (Hn & _). lia.
  - cbn [app drop]. rewrite collapse_skip. reflexivity.
  - rewrite (collapse_skip _ O (Some c)). reflexivity.
Qed.

(** After the step no white space stands before a line feed. *)
Lemma collapse_clean (len : nat) :
  forall s, (length s <= len)%nat ->
    spaceBeforeNewline (replaceFrom re_space_newline [10%N] O None s) = false /\
    (head (replaceFrom re_space_newline [10%N] O None s) = Some 10%N ->
     head s = Some 10%N \/ runEnd s <> None).
Proof.
  induction len as [|len IH]; intros s Hlen.
  - destruct s; [|cbn in Hlen; lia]. split; [reflexivity|discriminate].
  - destruct s as [|c s]; [split; [reflexivity|discriminate]|].
    cbn [length] in Hlen. rewrite collapse_cons.
    destruct (runEnd (c :: s)) as [n|] eqn:E.
    + split; [|intros _; right; discriminate].
      destruct (runEnd_inv _ _ E) as (Hn & Hd & Hh).
      assert (Hl : (length (drop n (c :: s)) <= len)%nat).
      { rewrite length_drop. cbn [length]. lia. }
      destruct (IH _ Hl) as [Hc Hhead].
      cbn [spaceBeforeNewline]. rewrite Hc, orb_false_r.
      destruct (replaceFrom re_space_newline [10%N] O None (drop n (c :: s)))
        as [|d out] eqn:Eo; [reflexivity|].
      destruct (d =? 10)%N eqn:Ed; [|apply andb_false_r].
      apply N.eqb_eq in Ed. subst d. destruct (Hhead eq_refl) as [H|H]; contradiction.
    + destruct (IH s ltac:(lia)) as [Hc Hhead]. split.
      * cbn [spaceBeforeNewline]. rewrite Hc, orb_false_r.
        destruct (replaceFrom re_space_newline [10%N] O None s) as [|d out] eqn:Eo;
          [reflexivity|].
        destruct (isSpace c) eqn:Hsp; [|reflexivity].
        destruct (d =? 10)%N eqn:Ed; [|reflexivity].
        apply N.eqb_eq in Ed. subst d.
        destruct (runEnd_none c s Hsp E) as [Hr Hh].
        destruct (Hhead eq_refl) as [H|H]; contradiction.
      * cbn [head]. intros [= ->]. left. reflexivity.
Qed.

Lemma spaceBeforeNewline_app_l s1 s2 :
  spaceBeforeNewline (s1 ++ s2) = false -> spaceBeforeNewline s1 = false.
Proof.
  induction s1 as [|c s1 IH]; [reflexivity|].
  change ((c :: s1) ++ s2) with (c :: s1 ++ s2). cbn [spaceBeforeNewline].
  intros H. apply orb_false_iff in H as [H1 H2]. rewrite (IH H2), orb_false_r.
  destruct s1 as [|d s1]; [reflexivity|exact H1].
Qed.

Lemma spaceBeforeNewline_app_r s1 s2 :
  spaceBeforeNewline (s1 ++ s2) = false -> spaceBeforeNewline s2 = false.
Proof.
  intros H. destruct (spaceBeforeNewline s2) eqn:E; [|reflexivity].
  rewrite (spaceBeforeNewline_suffix s1 s2 E) in H. discriminate H.
Qed.

Lemma dropWhile_suffix {A} (p : A -> bool) l : exists w, l = w ++ dropWhile p l.
Proof.
  induction l as [|x l [w IH]]; [exists []; reflexivity|]. cbn [dropWhile].
  destruct (p x); [|exists []; reflexivity].
  exists (x :: w). cbn [app]. f_equal. exact IH.
Qed.

(** A trimmed string is a part of the string. *)
Lemma trim_part s : exists w1 w2, s = w1 ++ trim s ++ w2.
Proof.
  unfold trim. destruct (dropWhile_suffix isSpace s) as [w1 E1].
  destruct (dropWhile_suffix isSpace (rev (dropWhile isSpace s))) as [w2 E2].
  exists w1, (rev w2). rewrite <- rev_app_distr, <- E2, rev_involutive. exact E1.
Qed.

Lemma trim_clean s : spaceBeforeNewline s = false -> spaceBeforeNewline (trim s) = false.
Proof.
  destruct (trim_part s) as (w1 & w2 & E). intros H. rewrite E in H.
  apply spaceBeforeNewline_app_r in H. apply spaceBeforeNewline_app_l in H. exact H.
Qed.

Lemma tidied s : tidy (trim (replaceFrom re_space_newline [10%N] O None s)) = true.
Proof.
  unfold tidy. destruct (trim_ends (replaceFrom re_space_newline [10%N] O None s)) as [Hh Hl].
  rewrite Hh, Hl. cbn [negb andb]. apply negb_true_iff. apply trim_clean.
  exact (proj1 (collapse_clean _ _ (le_n _))).
Qed.

(** X8. What the text helpers give is tidy: it has no white space at
    either end and no white space before a line feed. *)
Theorem text_helpers_tidy :
  forall s : jsstring,
    tidy (normalizeText s) = true /\ tidy (stripBlockTags s) = true.
Proof. intros s. split; apply tidied. Qed.

(** ** Normalizing twice *)

Lemma replaceFrom_units r rep skip prev s x :
  In x (replaceFrom r rep skip prev s) -> In x s \/ In x rep.
Proof.
  revert skip prev. induction s as [|c s IH]; intros skip prev.
  - destruct skip; cbn [replaceFrom]; [|intros []].
    destruct (matchLength r prev []) as [[|n]|]; rewrite ?app_nil_r; auto.
  - destruct skip as [|skip]; cbn [replaceFrom].
    + destruct (matchLength r prev (c :: s)) as [[|n]|].
      * intros H. apply in_app_or in H as [H|[->|H]]; [auto|left; left; reflexivity|].
        destruct (IH _ _ H); [left; right|right]; assumption.
      * intros H. apply in_app_or in H as [H|H]; [auto|].
        destruct (IH _ _ H); [left; right|right]; assumption.
      * intros [->|H]; [left; left; reflexivity|].
        destruct (IH _ _ H); [left; right|right]; assumption.
    + intros H. destruct (IH _ _ H); [left; right|right]; assumption.
Qed.

Lemma trim_units s x : In x (trim s) -> In x s.
Proof.
  destruct (trim_part s) as (w1 & w2 & E). intros H. rewrite E.
  apply in_or_app. right. apply in_or_app. left. exact H.
Qed.

Lemma inked_In s x : isSpace x = false -> (In x (inked s) <-> In x s).
Proof.
  intros Hx. unfold inked. rewrite filter_In. rewrite Hx. cbn [negb]. tauto.
Qed.

Lemma map_nbsp_id s :
  forallb (fun c => negb (c =? 160)%N) s = true ->
  map (fun c => if (c =? 160)%N then 32%N else c) s = s.
Proof.
  induction s as [|c s IH]; [reflexivity|]. cbn [forallb map]. intros H.
  apply andb_true_iff in H as [Hc H]. apply negb_true_iff in Hc. rewrite Hc, (IH H).
  reflexivity.
Qed.

(** Text [normalizeText] leaves as it is. *)
Lemma normalizeText_fixed s :
  forallb (fun c => negb (c =? 38)%N) s = true ->
  forallb (fun c => negb (c =? 160)%N) s = true ->
  tidy s = true ->
  normalizeText s = s.
Proof.
  intros H38 H160 Ht. unfold normalizeText, replaceAll.
  rewrite (replace_nbsp_plain s None H38), (map_nbsp_id s H160).
  apply tidy_inv in Ht as (Hh & Hl & Hn).
  rewrite (collapse_tidy s None Hn). apply trim_id; assumption.
Qed.

(** X9. On text without [&], normalizing twice is normalizing once. *)
Theorem normalizeText_idempotent :
  forall s : jsstring,
    forallb (fun c => negb (c =? 38)%N) s = true ->
    normalizeText (normalizeText s) = normalizeText s.
Proof.
  intros s H. apply normalizeText_fixed.
  - apply forallb_forall. intros x Hx. apply negb_true_iff.
    destruct (x =? 38)%N eqn:E; [|reflexivity]. apply N.eqb_eq in E. subst x.
    apply (inked_In (normalizeText s) 38%N eq_refl) in Hx.
    rewrite (normalizeText_inked s H) in Hx. apply (inked_In s 38%N eq_refl) in Hx.
    rewrite forallb_forall in H. specialize (H _ Hx). discriminate H.
  - apply forallb_forall. intros x Hx. apply negb_true_iff.
    destruct (x =? 160)%N eqn:E; [|reflexivity]. apply N.eqb_eq in E. subst x.
    unfold normalizeText, replaceAll in Hx. apply trim_units in Hx.
    apply replaceFrom_units in Hx as [Hx|[Hx|[]]]; [|discriminate Hx].
    rewrite (replace_nbsp_plain s None H) in Hx. apply in_map_iff in Hx as (y & Hy & _).
    destruct (y =? 160)%N eqn:Ey; [discriminate Hy|]. subst y. discriminate Ey.
  - apply tidied.
Qed.

Lemma normalizeText_idempotent_witness :
  normalizeText (normalizeText (js " a  b ")) = normalizeText (js " a  b ").
Proof. apply (normalizeText_idempotent (js " a  b ")). reflexivity. Defined.

(** ** Unwrapping a translation *)

(** Passing over a match. *)
Lemma replaceFrom_skip r rep w rest prev :
  replaceFrom r rep (length w) prev (w ++ rest) =
  replaceFrom r rep O (lastUnit prev w) rest.
Proof.
  revert prev. induction w as [|c w IH]; intros prev; [reflexivity|].
  cbn [length app replaceFrom]. rewrite IH, lastUnit_cons. reflexivity.
Qed.

(** A match at the head is replaced. *)
Lemma replaceFrom_match r rep w rest prev :
  w <> [] -> matchLength r prev (w ++ rest) = Some (length w) ->
  replaceFrom r rep O prev (w ++ rest) = rep ++ replaceFrom r rep O (lastUnit prev w) rest.
Proof.
  intros Hw Hm. destruct w as [|c w]; [congruence|].
  cbn [app replaceFrom]. change (c :: w ++ rest) with ((c :: w) ++ rest). rewrite Hm.
  cbn [length]. rewrite replaceFrom_skip, lastUnit_cons. reflexivity.
Qed.

(** Text where no match can start is passed through. *)
Lemma replaceFrom_through (F : N -> bool) r rep s rest prev :
  (forall prev' s' n, matchLength r prev' s' = Some n ->
     exists c, head s' = Some c /\ F c = true) ->
  forallb (fun c => negb (F c)) s = true ->
  replaceFrom r rep O prev (s ++ rest) = s ++ replaceFrom r rep O (lastUnit prev s) rest.
Proof.
  intros Hstart. revert prev. induction s as [|c s IH]; intros prev Hs; [reflexivity|].
  cbn [forallb] in Hs. apply andb_true_iff in Hs as [Hc Hs].
  cbn [app replaceFrom].
  destruct (matchLength r prev (c :: s ++ rest)) as [n|] eqn:E.
  - destruct (Hstart _ _ _ E) as (x & Hx & HF). injection Hx as <-.
    rewrite HF in Hc. discriminate Hc.
  - rewrite (IH _ Hs), lastUnit_cons. reflexivity.
Qed.

Lemma length_cancel (n m : nat) : (n + m - m)%nat = n.
Proof. lia. Qed.

(** An opening and a closing tag of that set are matches. *)
Lemma block_tag_matches tag rest prev :
  tag ∈ STRIPPED_TAGS ->
  matchLength re_block_tag prev ((js "<" ++ tag ++ js ">") ++ rest)
    = Some (length (js "<" ++ tag ++ js ">")) /\
  matchLength re_block_tag prev ((js "</" ++ tag ++ js ">") ++ rest)
    = Some (length (js "</" ++ tag ++ js ">")).
Proof.
  intros Hin. unfold STRIPPED_TAGS in Hin.
  repeat (apply elem_of_cons in Hin as [->|Hin]);
    [..|inversion Hin];
    (split; unfold matchLength; cbn; f_equal; lia).
Qed.

(** X10. A translation that came wrapped in one of the block tags is
    unwrapped: for a tag name of the set [stripBlockTags] removes and a
    tidy text without [<], the text between the opening and the closing
    tag is what is left. *)
Theorem stripBlockTags_unwraps :
  forall (tag s : jsstring),
    tag ∈ STRIPPED_TAGS ->
    forallb (fun c => negb (c =? 60)%N) s = true ->
    tidy s = true ->
    stripBlockTags (js "<" ++ tag ++ js ">" ++ s ++ js "</" ++ tag ++ js ">") = s.
Proof.
  intros tag s Htag Hplain Htidy. unfold stripBlockTags, replaceAll.
  assert (E : replaceFrom re_block_tag [] O None
                (js "<" ++ tag ++ js ">" ++ s ++ js "</" ++ tag ++ js ">") = s).
  { replace (js "<" ++ tag ++ js ">" ++ s ++ js "</" ++ tag ++ js ">")
      with ((js "<" ++ tag ++ js ">") ++ s ++ (js "</" ++ tag ++ js ">") ++ [])
      by (rewrite <- !app_assoc, app_nil_r; reflexivity).
    rewrite replaceFrom_match;
      [|discriminate|apply (proj1 (block_tag_matches tag _ _ Htag))].
    cbn [app]. rewrite (replaceFrom_through (fun c => (c =? 60)%N));
      [|exact block_tag_start|exact Hplain].
    rewrite replaceFrom_match;
      [|discriminate|apply (proj2 (block_tag_matches tag _ _ Htag))].
    cbn [app replaceFrom]. rewrite app_nil_r. reflexivity. }
  rewrite E. apply tidy_inv in Htidy as (Hh & Hl & Hn).
  rewrite (collapse_tidy s None Hn). apply trim_id; assumption.
Qed.

Lemma stripBlockTags_unwraps_witness :
  stripBlockTags (js "<" ++ js "h2" ++ js ">" ++ js "Le titre" ++ js "</" ++ js "h2" ++ js ">")
    = js "Le titre".
Proof.
  apply (stripBlockTags_unwraps (js "h2") (js "Le titre")).
  - vm_compute. do 3 right. left.
  - reflexivity.
  - reflexivity.
Defined.

(** ** More translations than blocks *)

Lemma applyFrom_take parse mode translated j nodes doc n :
  (j + length nodes <= n)%nat ->
  applyFrom parse mode (take n translated) j nodes doc =
  applyFrom parse mode translated j nodes doc.
Proof.
  revert j doc. induction nodes as [|node rest IH]; intros j doc Hn; [reflexivity|].
  cbn [applyFrom length] in *. rewrite lookup_take_lt by lia.
  apply IH. lia.
Qed.

(** X11. Translations beyond the number of blocks of a chunk are ignored:
    applying a result is applying its first strings, as many as the chunk
    has blocks. *)
Theorem surplus_translations_ignored :
  forall (parse : jsstring -> list Markup) (mode : TranslationMode)
         (translatedParagraphs : list jsstring) (chunk : Chunk) (doc : Document),
    applyChunk parse mode translatedParagraphs chunk doc =
    applyChunk parse mode (take (length (nodes chunk)) translatedParagraphs) chunk doc.
Proof.
  intros parse mode translated chunk doc. unfold applyChunk.
  symmetry. apply applyFrom_take. lia.
Qed.

(** ** The marker test of the extractor *)

Lemma lastUnit_None w : lastUnit None w = last w.
Proof. unfold lastUnit. destruct (last w); reflexivity. Qed.

(** The marker text between two word boundaries is found. *)
Lemma marker_text_found pre post :
  isWordOpt (last pre) = false -> isWordOpt (head post) = false ->
  test re_bilingual (pre ++ BILINGUAL_CLASS ++ post) = true.
Proof.
  intros Hpre Hpost. unfold test.
  apply (testFrom_app re_bilingual pre (BILINGUAL_CLASS ++ post) None
           (length BILINGUAL_CLASS + length post - length post)).
  unfold matchLength, re_bilingual. cbn [rmatch].
  rewrite lastUnit_None, Hpre.
  change (isWordOpt (head (BILINGUAL_CLASS ++ post))) with true.
  cbn [xorb]. rewrite rmatch_lit. cbn [rmatch].
  change (isWordOpt (lastUnit (last pre) BILINGUAL_CLASS)) with true.
  rewrite Hpost. cbn [xorb]. rewrite length_app. reflexivity.
Qed.

Lemma testFrom_inv r prev s :
  testFrom r prev s = true ->
  exists pre rest n, s = pre ++ rest /\ matchLength r (lastUnit prev pre) rest = Some n.
Proof.
  revert prev. induction s as [|c s IH]; intros prev H; cbn [testFrom] in H.
  - destruct (matchLength r prev []) as [n|] eqn:E; [|discriminate H].
    exists [], [], n. split; [reflexivity|exact E].
  - destruct (matchLength r prev (c :: s)) as [n|] eqn:E.
    + exists [], (c :: s), n. split; [reflexivity|exact E].
    + destruct (IH _ H) as (pre & rest & n & -> & Hm).
      exists (c :: pre), rest, n. split; [reflexivity|]. rewrite lastUnit_cons. exact Hm.
Qed.

Lemma rmatch_lit_inv {A} (w : jsstring) prev s (k : option N -> jsstring -> option A) a :
  rmatch (lit w) prev s k = Some a ->
  exists rest, s = w ++ rest /\ k (lastUnit prev w) rest = Some a.
Proof.
  revert prev s. induction w as [|c w IH]; intros prev s H.
  - exists s. split; [reflexivity|exact H].
  - change (lit (c :: w)) with (RSeq (chr c) (lit w)) in H. unfold chr in H.
    cbn [rmatch] in H. destruct s as [|d s]; [discriminate H|].
    destruct (c =? d)%N eqn:E; [|discriminate H]. apply N.eqb_eq in E. subst d.
    destruct (IH _ _ H) as (rest & -> & Hk). exists rest.
    split; [reflexivity|]. rewrite lastUnit_cons. exact Hk.
Qed.

(** Where the marker test succeeds, the marker text is. *)
Lemma marker_text_present cls :
  test re_bilingual cls = true -> exists pre post, cls = pre ++ BILINGUAL_CLASS ++ post.
Proof.
  unfold test. intros H. apply testFrom_inv in H as (pre & rest & n & -> & H).
  unfold matchLength, re_bilingual in H. cbn [rmatch] in H.
  destruct (xorb _ _); [|discriminate H].
  apply rmatch_lit_inv in H as (post & -> & _). exists pre, post. reflexivity.
Qed.

(** X12. The extractor skips a block on the marker text, not on the
    marker class: a block whose [class] attribute holds
    [translated-bilingual] between two word boundaries is not selected,
    also when that is part of a longer class name such as
    [translated-bilingual-note]. *)
Theorem marker_text_skips_block :
  forall (doc : Document) (el : Node) (pre post : jsstring),
    attr el (js "class") = Some (pre ++ BILINGUAL_CLASS ++ post) ->
    isWordOpt (last pre) = false ->
    isWordOpt (head post) = false ->
    el ∉ selectLeafBlocks doc.
Proof.
  intros doc el pre post Hattr Hpre Hpost Hin. unfold selectLeafBlocks in Hin.
  apply list_elem_of_In, filter_In in Hin as [_ Hleaf].
  rewrite Hattr in Hleaf. cbn [from_option] in Hleaf. unfold id in Hleaf.
  rewrite (marker_text_found pre post Hpre Hpost) in Hleaf. discriminate Hleaf.
Qed.

Lemma marker_text_skips_block_witness :
  let el := Element 0%nat (js "p") [(js "class", js "translated-bilingual-note")]
              [Text (js "x")] in
  el ∉ selectLeafBlocks
         (load XmlParser.parseXml (js "<p class='translated-bilingual-note'>x</p>")).
Proof.
  intros el.
  apply (marker_text_skips_block _ el [] (js "-note")); reflexivity.
Defined.

(** X13. The extractor misses no block: an element of the document that
    matches the block selector, has no descendant that matches it, and
    whose [class] attribute does not hold the marker text, is selected. *)
Theorem leaf_blocks_complete :
  forall (doc : Document) (el : Node),
    el ∈ elements (docRoot doc) ->
    isBlock el = true ->
    (forall d, d ∈ descendants el -> isBlock d = false) ->
    (forall pre post, default [] (attr el (js "class")) <> pre ++ BILINGUAL_CLASS ++ post) ->
    el ∈ selectLeafBlocks doc.
Proof.
  intros doc el Hel Hblock Hleaf Hcls. unfold selectLeafBlocks.
  apply list_elem_of_In, filter_In. split.
  - apply filter_In. split; [apply list_elem_of_In; exact Hel|exact Hblock].
  - destruct (test re_bilingual (default [] (attr el (js "class")))) eqn:Ht.
    + apply marker_text_present in Ht as (pre & post & E). exfalso. exact (Hcls pre post E).
    + apply Nat.eqb_eq.
      destruct (List.filter isBlock (descendants el)) as [|d l] eqn:E; [reflexivity|].
      assert (Hd : In d (List.filter isBlock (descendants el))) by (rewrite E; left; reflexivity).
      apply filter_In in Hd as [Hd Hb]. rewrite (Hleaf d) in Hb; [discriminate Hb|].
      apply list_elem_of_In. exact Hd.
Qed.

Lemma leaf_blocks_complete_witness :
  Element 4%nat (js "li") [] [Text (js "item")] ∈ selectLeafBlocks sampleChapter.
Proof.
  apply (leaf_blocks_complete sampleChapter (Element 4%nat (js "li") [] [Text (js "item")])).
  - vm_compute. do 4 right. left.
  - reflexivity.
  - intros d Hd. vm_compute in Hd. inversion Hd.
  - intros pre post E. cbn in E. destruct pre; discriminate E.
Defined.

(** ** The blocks of a document, each once *)

Lemma filter_sublist {A} (f : A -> bool) (l : list A) : List.filter f l `sublist_of` l.
Proof.
  induction l as [|x l IH]; [constructor|]. cbn [List.filter].
  destruct (f x); [apply sublist_skip|apply sublist_cons]; exact IH.
Qed.

Lemma selectLeafBlocks_sublist doc : selectLeafBlocks doc `sublist_of` elements (docRoot doc).
Proof.
  unfold selectLeafBlocks. etransitivity; apply filter_sublist.
Qed.

Lemma filteredBlocks_nodes doc :
  Some <$> map node (filteredBlocks doc) `sublist_of` map idOf (selectLeafBlocks doc).
Proof.
  unfold filteredBlocks. induction (selectLeafBlocks doc) as [|n l IH]; [constructor|].
  cbn [omap list_omap map]. destruct n as [i nm a cs|d].
  - destruct (0 <? strlen (normalizeText (textContent (Element i nm a cs)))).
    + cbn [map fmap list_fmap node idOf]. apply sublist_skip. exact IH.
    + apply sublist_cons. exact IH.
  - apply sublist_cons. exact IH.
Qed.

(** X14. Each block of a document goes in one chunk, once: the nodes of
    the chunks are, in document order, elements the extractor selected,
    and no node is there twice. *)
Theorem each_block_in_one_chunk :
  forall (doc : Document) (chunkSize : number),
    wfDocument doc ->
    let chunks := makeChunks chunkSize (filteredBlocks doc) in
    NoDup (concat (map nodes chunks)) /\
    Some <$> concat (map nodes chunks) `sublist_of` map idOf (selectLeafBlocks doc) /\
    selectLeafBlocks doc `sublist_of` elements (docRoot doc).
Proof.
  intros doc chunkSize [Hnd _] chunks. subst chunks. unfold makeChunks, chunker.
  rewrite (proj1 (chunkWith_held _ _ _)).
  pose proof (filteredBlocks_nodes doc) as H1.
  pose proof (selectLeafBlocks_sublist doc) as H2.
  split; [|split; assumption].
  apply (NoDup_fmap_1 Some). eapply sublist_NoDup; [|exact H1].
  eapply sublist_NoDup; [exact Hnd|]. apply fmap_sublist. exact H2.
Qed.

Lemma each_block_in_one_chunk_witness :
  let chunks := makeChunks (ofZ 1) (filteredBlocks sampleChapter) in
  NoDup (concat (map nodes chunks)) /\
  Some <$> concat (map nodes chunks) `sublist_of` map idOf (selectLeafBlocks sampleChapter) /\
  selectLeafBlocks sampleChapter `sublist_of` elements (docRoot sampleChapter).
Proof.
  apply (each_block_in_one_chunk sampleChapter (ofZ 1)).
  apply load_wf.
Defined.

(** ** The directory of the package document *)

Lemma lastIndexOf_none c s : (forall x, x ∈ s -> x <> c) -> lastIndexOf c s = None.
Proof.
  induction s as [|x s IH]; intros H; [reflexivity|]. cbn [lastIndexOf].
  rewrite IH by (intros y Hy; apply H; right; exact Hy).
  destruct (x =? c)%N eqn:E; [|reflexivity]. apply N.eqb_eq in E.
  exfalso. apply (H x); [left|exact E].
Qed.

Lemma lastIndexOf_last c dir name :
  (forall x, x ∈ name -> x <> c) -> lastIndexOf c (dir ++ c :: name) = Some (length dir).
Proof.
  intros H. induction dir as [|x dir IH]; cbn [app lastIndexOf length].
  - rewrite (lastIndexOf_none c name H), N.eqb_refl. reflexivity.
  - rewrite IH. reflexivity.
Qed.

(** X15. The directory of the package document is what stands before the
    last [/] of its path, and is empty for a path without [/]. *)
Theorem opfDir_is_dirname :
  forall (dir name : jsstring),
    (forall c, c ∈ name -> c <> 47%N) ->
    opfDirOf (dir ++ 47%N :: name) = dir /\ opfDirOf name = [].
Proof.
  intros dir name H. unfold opfDirOf.
  rewrite (lastIndexOf_last 47 dir name H), (lastIndexOf_none 47 name H).
  split; [apply take_app_length|reflexivity].
Qed.

Lemma opfDir_is_dirname_witness :
  opfDirOf (js "OEBPS/text" ++ 47%N :: js "content.opf") = js "OEBPS/text" /\
  opfDirOf (js "content.opf") = [].
Proof.
  apply (opfDir_is_dirname (js "OEBPS/text") (js "content.opf")).
  intros c Hc. vm_compute in Hc.
  repeat (apply elem_of_cons in Hc as [->|Hc]; [discriminate|]). inversion Hc.
Defined.

(** ** The manifest as a map *)

Lemma manifestOf_snoc opfDir items el :
  manifestOf opfDir (items ++ [el]) =
  match truthy (attr el (js "id")), truthy (attr el (js "href")) with
  | Some id, Some href => <[id := fullPathOf opfDir href]> (manifestOf opfDir items)
  | _, _ => manifestOf opfDir items
  end.
Proof.
  unfold manifestOf. rewrite foldl_app. cbn [foldl].
  destruct (truthy (attr el (js "id"))); [|reflexivity].
  destruct (truthy (attr el (js "href"))); reflexivity.
Qed.

Lemma omap_snoc {A B} (f : A -> option B) l x :
  omap f (l ++ [x]) = omap f l ++ match f x with Some y => [y] | None => [] end.
Proof.
  induction l as [|a l IH]; cbn [app omap list_omap].
  - destruct (f x); reflexivity.
  - fold (omap f (l ++ [x])). fold (omap f l). rewrite IH. destruct (f a); reflexivity.
Qed.

Lemma manifestOf_lookup opfDir items id :
  manifestOf opfDir items !! id = last (omap (declares opfDir id) items).
Proof.
  induction items as [|el items IH] using rev_ind; [reflexivity|].
  rewrite manifestOf_snoc, omap_snoc. unfold declares at 2.
  destruct (truthy (attr el (js "id"))) as [id'|];
    [|rewrite app_nil_r; exact IH].
  destruct (truthy (attr el (js "href"))) as [href|];
    [|rewrite app_nil_r; exact IH].
  destruct (decide (id' = id)) as [->|Hne].
  - rewrite lookup_insert_eq, last_snoc. reflexivity.
  - rewrite lookup_insert_ne by exact Hne. rewrite app_nil_r. exact IH.
Qed.

(** X16. The manifest gives for an [id] the path of the last [item] that
    has that [id] and an [href], both non-empty: a later item overrides an
    earlier one, and an item without [id] or [href] declares nothing. *)
Theorem manifest_last_item_wins :
  forall (opfDir : jsstring) (items : list Node) (id : jsstring),
    manifestOf opfDir items !! id = last (omap (declares opfDir id) items).
Proof. exact manifestOf_lookup. Qed.

(** ** The spine *)

Lemma truthy_nonempty s x : truthy s = Some x -> x <> [] /\ s = Some x.
Proof. destruct s as [[|c s]|]; [discriminate|intros [= <-]; split; [discriminate|reflexivity]|discriminate]. Qed.

Lemma fullPathOf_nonempty opfDir href : href <> [] -> fullPathOf opfDir href <> [].
Proof.
  intros H. unfold fullPathOf. destruct opfDir as [|c d]; [exact H|discriminate].
Qed.

Lemma last_omap_Some {A B} (f : A -> option B) l y :
  last (omap f l) = Some y -> exists x, x ∈ l /\ f x = Some y.
Proof.
  induction l as [|a l IH] using rev_ind; [discriminate|].
  rewrite omap_snoc. destruct (f a) as [b|] eqn:E.
  - rewrite last_snoc. intros [= <-]. exists a. split; [|exact E].
    apply elem_of_app. right. left.
  - rewrite app_nil_r. intros H. destruct (IH H) as (x & Hx & Hf).
    exists x. split; [apply elem_of_app; left; exact Hx|exact Hf].
Qed.

(** The manifest has no empty key and no empty path. *)
Lemma manifestOf_entries opfDir items id path :
  manifestOf opfDir items !! id = Some path -> id <> [] /\ path <> [].
Proof.
  rewrite manifestOf_lookup. intros H.
  apply last_omap_Some in H as (el & _ & H). unfold declares in H.
  destruct (truthy (attr el (js "id"))) as [id'|] eqn:Eid; [|discriminate H].
  destruct (truthy (attr el (js "href"))) as [href|] eqn:Eh; [|discriminate H].
  destruct (decide (id' = id)) as [->|]; [|discriminate H]. injection H as <-.
  split; [exact (proj1 (truthy_nonempty _ _ Eid))|].
  apply fullPathOf_nonempty. exact (proj1 (truthy_nonempty _ _ Eh)).
Qed.

(** X17. The spine is, in order, the documents the [itemref] elements
    refer to through the manifest; an [itemref] without [idref], or whose
    [idref] the manifest does not have, adds nothing.  The empty key that
    stands for a missing [idref] is never in the manifest, and no path in
    it is empty. *)
Theorem spine_follows_itemrefs :
  forall (opfDir : jsstring) (items itemrefs : list Node),
    spineOf (manifestOf opfDir items) itemrefs =
      omap (refersTo (manifestOf opfDir items)) itemrefs /\
    (forall path, path ∈ spineOf (manifestOf opfDir items) itemrefs ->
       path <> [] /\
       exists item href,
         item ∈ items /\ attr item (js "href") = Some href /\
         path = fullPathOf opfDir href).
Proof.
  intros opfDir items itemrefs.
  assert (E : spineOf (manifestOf opfDir items) itemrefs =
              omap (refersTo (manifestOf opfDir items)) itemrefs).
  { unfold spineOf. induction itemrefs as [|el l IH]; [reflexivity|].
    cbn [omap list_omap]. unfold refersTo at 1.
    destruct (truthy (attr el (js "idref"))) as [idref|] eqn:Ei; cbn [from_option]; unfold id.
    - destruct (manifestOf opfDir items !! idref) as [path|] eqn:Ep; [|exact IH].
      cbn [List.filter]. destruct (manifestOf_entries _ _ _ _ Ep) as [_ Hp].
      rewrite bool_decide_eq_false_2 by exact Hp. cbn [negb]. f_equal. exact IH.
    - destruct (manifestOf opfDir items !! []) as [path|] eqn:Ep; [|exact IH].
      destruct (manifestOf_entries _ _ _ _ Ep) as [Hid _]. congruence. }
  split; [exact E|]. intros path Hin. rewrite E in Hin.
  apply list_elem_of_omap in Hin as (ref & _ & Hr). unfold refersTo in Hr.
  destruct (truthy (attr ref (js "idref"))) as [idref|]; [|discriminate Hr].
  split; [exact (proj2 (manifestOf_entries _ _ _ _ Hr))|].
  rewrite manifestOf_lookup in Hr. apply last_omap_Some in Hr as (item & Hitem & Hd).
  unfold declares in Hd.
  destruct (truthy (attr item (js "id"))) as [id'|]; [|discriminate Hd].
  destruct (truthy (attr item (js "href"))) as [href|] eqn:Eh; [|discriminate Hd].
  destruct (decide (id' = idref)); [|discriminate Hd]. injection Hd as <-.
  exists item, href. split; [exact Hitem|]. split; [|reflexivity].
  exact (proj2 (truthy_nonempty _ _ Eh)).
Qed.

(** ** The resolution as a whole *)

Lemma truthy_Some s : s <> [] -> truthy (Some s) = Some s.
Proof. destruct s; [congruence|reflexivity]. Qed.

Lemma resolveSpine_resolvable parse st :
  resolvable parse (zip st) -> exists spine, resolveSpine parse st = (Returned spine, st, []).
Proof.
  intros (c & path & opf & Hc & Hcne & Ha & Hpne & Hp & Hone).
  unfold resolveSpine, mbind, job_bind, bind, readFile. cbv beta iota.
  fold CONTAINER_PATH. rewrite Hc, (truthy_Some c Hcne). cbv beta iota.
  rewrite Ha, (truthy_Some path Hpne). cbv beta iota.
  rewrite Hp, (truthy_Some opf Hone). cbv beta iota.
  eexists. reflexivity.
Qed.

Lemma resolveSpine_unresolvable parse st :
  ~ resolvable parse (zip st) -> exists msg, resolveSpine parse st = (Thrown (Error msg), st, []).
Proof.
  intros Hn. unfold resolveSpine, mbind, job_bind, bind, readFile. cbv beta iota.
  fold CONTAINER_PATH.
  destruct (zip st !! CONTAINER_PATH) as [c|] eqn:Hc; [|eexists; reflexivity].
  destruct c as [|x c]; [eexists; reflexivity|].
  cbn [truthy]. cbv beta iota.
  destruct (attrFirst _ _) as [path|] eqn:Ha; [|eexists; reflexivity].
  destruct path as [|y path]; [eexists; reflexivity|].
  cbn [truthy]. cbv beta iota.
  destruct (zip st !! (y :: path)) as [opf|] eqn:Hp; [|eexists; reflexivity].
  destruct opf as [|z opf]; [eexists; reflexivity|].
  exfalso. apply Hn. exists (x :: c), (y :: path), (z :: opf).
  repeat split; try assumption; discriminate.
Qed.

(** X18. The manifest resolution returns a spine exactly when the archive
    has a container pointer, a [full-path] in its first [rootfile] and the
    package document that names, none of them empty; otherwise it throws
    an [Error].  An empty entry or attribute counts as a missing one.
    Either way the archive is as it was and no call was made. *)
Theorem spine_resolution_total :
  forall (parse : jsstring -> list Markup) (st : JobState),
    (resolvable parse (zip st) ->
       exists spine, resolveSpine parse st = (Returned spine, st, [])) /\
    (~ resolvable parse (zip st) ->
       exists msg, resolveSpine parse st = (Thrown (Error msg), st, [])).
Proof.
  intros parse st. split;
    [apply resolveSpine_resolvable|apply resolveSpine_unresolvable].
Qed.

Lemma sampleBook_resolvable : resolvable XmlParser.parseXml sampleBook.
Proof.
  exists (js "<container><rootfiles><rootfile full-path='content.opf'/></rootfiles></container>"),
         (js "content.opf"),
         (js "<package><manifest><item id='c1' href='ch1.xhtml'/></manifest><spine><itemref idref='c1'/></spine></package>").
  repeat split; try discriminate; vm_compute; reflexivity.
Qed.

Lemma spine_resolution_total_witness :
  (exists spine, resolveSpine XmlParser.parseXml sampleStart = (Returned spine, sampleStart, [])) /\
  (exists msg,
     resolveSpine XmlParser.parseXml
       {| zip := <[CONTAINER_PATH := []]> sampleBook; calls := 0; pauses := 0 |} =
       (Thrown (Error msg),
        {| zip := <[CONTAINER_PATH := []]> sampleBook; calls := 0; pauses := 0 |}, [])).
Proof.
  split.
  - apply (proj1 (spine_resolution_total XmlParser.parseXml sampleStart)).
    exact sampleBook_resolvable.
  - apply (proj2 (spine_resolution_total XmlParser.parseXml
                    {| zip := <[CONTAINER_PATH := []]> sampleBook; calls := 0; pauses := 0 |})).
    intros (c & path & opf & Hc & Hcne & _). cbn [zip] in Hc.
    rewrite lookup_insert_eq in Hc. congruence.
Defined.

Lemma resolvable_dec parse z : resolvable parse z \/ ~ resolvable parse z.
Proof.
  destruct (z !! CONTAINER_PATH) as [c|] eqn:Hc.
  2:{ right. intros (c' & path' & opf' & Hc' & _). congruence. }
  destruct c as [|x c].
  { right. intros (c' & path' & opf' & Hc' & Hne & _). congruence. }
  destruct (attrFirst (selectTag (js "rootfile") (docRoot (load parse (x :: c))))
              (js "full-path")) as [path|] eqn:Ha.
  2:{ right. intros (c' & path' & opf' & Hc' & _ & Ha' & _).
      rewrite Hc in Hc'. injection Hc' as <-. congruence. }
  destruct path as [|y path].
  { right. intros (c' & path' & opf' & Hc' & _ & Ha' & Hne & _).
    rewrite Hc in Hc'. injection Hc' as <-. congruence. }
  destruct (z !! (y :: path)) as [opf|] eqn:Hp.
  2:{ right. intros (c' & path' & opf' & Hc' & _ & Ha' & _ & Hp' & _).
      rewrite Hc in Hc'. injection Hc' as <-. rewrite Ha in Ha'. injection Ha' as <-.
      congruence. }
  destruct opf as [|w opf].
  { right. intros (c' & path' & opf' & Hc' & _ & Ha' & _ & Hp' & Hne).
    rewrite Hc in Hc'. injection Hc' as <-. rewrite Ha in Ha'. injection Ha' as <-.
    congruence. }
  left. exists (x :: c), (y :: path), (w :: opf). repeat split; try assumption; discriminate.
Qed.

(** ** One chunk *)

Section Run.
Variable parse : jsstring -> list Markup.
Variable render : list Node -> jsstring.
Variable service : nat -> Request -> Reply.
Variable p : TranslateEpubParams.

Lemma translateChunk_inv filePath chunks doc ic st r st' ev :
  translateChunk parse service p filePath chunks doc ic st = (r, st', ev) ->
  (exists s, ev = [SetStatus s; Translate (requestFor p chunks ic)]) /\
  zip st' = zip st /\ pauses st' = pauses st /\ calls st' = S (calls st) /\
  match service (calls st) (requestFor p chunks ic) with
  | Rejects e => r = Thrown e
  | Completion [] => r = Thrown TypeError
  | Completion (m :: _) =>
      r = Returned (applyChunk parse (translationMode p) (default [] (parsed m)) ic.2 doc)
  end.
Proof.
  destruct ic as [i chunk]. unfold translateChunk, requestFor. cbn [fst snd].
  unfold mbind, job_bind, bind, setStatus, emit, callService. cbn [zip calls pauses].
  destruct (service (calls st) _) as [e|[|m rest]]; cbn [translatedParagraphsOf];
    unfold throw, mret, job_ret, ret;
    intros [= <- <- <-]; cbn [zip calls pauses app];
    (split; [eexists; reflexivity|]); auto.
Qed.

Lemma requestsOf_app ev1 ev2 : requestsOf (ev1 ++ ev2) = requestsOf ev1 ++ requestsOf ev2.
Proof. unfold requestsOf. apply omap_app. Qed.

(** The loop over the chunks of a document. *)
Lemma chunks_run filePath chunks l doc st r st' ev :
  foldJob l (translateChunk parse service p filePath chunks) doc st = (r, st', ev) ->
  zip st' = zip st /\ pauses st' = pauses st /\ exchange ev /\ r <> Pending /\
  requestsOf ev `prefix_of` map (requestFor p chunks) l /\
  (forall doc', r = Returned doc' -> requestsOf ev = map (requestFor p chunks) l) /\
  (forall e, r = Thrown e ->
     exists pre req n, ev = pre ++ [Translate req] /\ exchange pre /\
                       calls st' = S n /\ failsWith service n req e) /\
  (answers service -> exists doc', r = Returned doc').
Proof.
  revert doc st r st' ev. induction l as [|ic l IH]; intros doc st r st' ev H.
  - injection H as <- <- <-. repeat split; try reflexivity; try discriminate.
    + constructor.
    + intros _. eexists. reflexivity.
  - cbn [foldJob] in H.
    apply bind_inv in H as [(d & s1 & e1 & e2 & H1 & H2 & ->)|[(e & H1 & ->)|[H1 ->]]];
      apply translateChunk_inv in H1 as ((s & He) & Hz & Hp & Hc & Hr).
    + apply IH in H2 as (Hz2 & Hp2 & Hq2 & Hn2 & Hpre2 & Hall2 & Hth2 & Hans2).
      subst e1. cbn [map].
      split; [congruence|]. split; [congruence|].
      split; [repeat (constructor; [exact I|]); exact Hq2|].
      split; [exact Hn2|].
      split; [cbn [app requestsOf omap list_omap]; apply prefix_cons; exact Hpre2|].
      split; [intros doc' Hd; cbn [app requestsOf omap list_omap]; f_equal;
              exact (Hall2 doc' Hd)|].
      split; [|exact Hans2].
      intros e Hd. destruct (Hth2 e Hd) as (pre & req & n & -> & Hq & Hcalls & Hf).
      exists ([SetStatus s; Translate (requestFor p chunks ic)] ++ pre), req, n.
      rewrite <- app_assoc. split; [reflexivity|].
      split; [repeat (constructor; [exact I|]); exact Hq|]. split; assumption.
    + subst ev. cbn [map].
      split; [exact Hz|]. split; [exact Hp|].
      split; [repeat (constructor; [exact I|]); constructor|].
      split; [discriminate|].
      split; [cbn [requestsOf omap list_omap]; apply prefix_cons; apply prefix_nil|].
      split; [discriminate|].
      split.
      * intros e' [= <-]. exists [SetStatus s], (requestFor p chunks ic), (calls st).
        split; [reflexivity|]. split; [repeat (constructor; [exact I|]); constructor|].
        split; [exact Hc|]. unfold failsWith.
        destruct (service (calls st) (requestFor p chunks ic)) as [e''|[|m rest]];
          [left; congruence|right; split; congruence|discriminate Hr].
      * intros Hans. destruct (Hans (calls st) (requestFor p chunks ic)) as (m & rest & Hs).
        rewrite Hs in Hr. discriminate Hr.
    + destruct (service (calls st) (requestFor p chunks ic)) as [e''|[|m rest]];
        discriminate Hr.
Qed.

(** ** One document *)

Lemma map_requestFor_imap chunks :
  map (requestFor p chunks) (imap pair chunks) =
  imap (fun i chunk => requestFor p chunks (i, chunk)) chunks.
Proof.
  generalize (requestFor p chunks). intros f.
  change (map f (imap pair chunks)) with (f <$> imap pair chunks).
  rewrite fmap_imap. reflexivity.
Qed.

Lemma reportProgress_inv spine path doc st r st' ev :
  reportProgress render (onProgress p) spine path doc st = (r, st', ev) ->
  r = Returned () /\ st' = st /\
  ev = progressEvents (onProgress p) spine path (zip st) (bodyHtml render doc).
Proof.
  unfold reportProgress, progressEvents. destruct (onProgress p).
  - intros [= <- <- <-]. auto.
  - intros [= <- <- <-]. auto.
Qed.

Lemma filteredBlocks_none doc : selectLeafBlocks doc = [] -> filteredBlocks doc = [].
Proof. unfold filteredBlocks. intros ->. reflexivity. Qed.

(** The runs of one turn of the loop over the spine: the document is
    passed over, a request fails, or the document is written back. *)
Lemma processFile_inv spine path st r st' ev :
  processFile parse render service p spine path st = (r, st', ev) ->
  pauses st' = pauses st /\
  ((blank parse (zip st) path /\ r = Returned () /\ st' = st /\ ev = [processing path]) \/
   (exists e body req n,
      r = Thrown e /\ ev = processing path :: body ++ [Translate req] /\ exchange body /\
      zip st' = zip st /\ calls st' = S n /\ failsWith service n req e) \/
   (exists body content html,
      r = Returned () /\ exchange body /\ is_Some (zip st !! path) /\
      zip st' = <[path := content]> (zip st) /\
      ev = processing path :: body ++ WriteFile path content
             :: progressEvents (onProgress p) spine path (zip st') html)).
Proof.
  unfold processFile. intros H.
  apply bind_inv in H as [(u & sa & eva & evb & Ha & H & ->)|[(e & Ha & _)|[Ha _]]];
    [|discriminate Ha|discriminate Ha].
  injection Ha as _ <- <-.
  change ([SetStatus (js "Processing: " ++ path)] ++ evb) with (processing path :: evb).
  apply bind_inv in H as [(fc & sb & evc & evd & Hb & H & ->)|[(e & Hb & _)|[Hb _]]];
    [|discriminate Hb|discriminate Hb].
  injection Hb as <- <- <-. cbn [app].
  destruct (zip st !! path) as [fileContent|] eqn:Hfile.
  2:{ injection H as <- <- <-. split; [reflexivity|]. left.
      split; [left; exact Hfile|auto]. }
  destruct fileContent as [|c0 fileContent].
  { injection H as <- <- <-. split; [reflexivity|]. left.
    split; [right; left; exact Hfile|auto]. }
  cbn [truthy] in H. cbv beta iota zeta in H.
  destruct (length (selectLeafBlocks (load parse (c0 :: fileContent))) =? 0)%nat eqn:Hsel.
  { injection H as <- <- <-. split; [reflexivity|]. left. split; [|auto].
    right. right. exists (c0 :: fileContent). split; [exact Hfile|].
    apply filteredBlocks_none. apply Nat.eqb_eq in Hsel.
    destruct (selectLeafBlocks _); [reflexivity|discriminate Hsel]. }
  destruct (length (filteredBlocks (load parse (c0 :: fileContent))) =? 0)%nat eqn:Hfil.
  { injection H as <- <- <-. split; [reflexivity|]. left. split; [|auto].
    right. right. exists (c0 :: fileContent). split; [exact Hfile|].
    apply Nat.eqb_eq in Hfil. destruct (filteredBlocks _); [reflexivity|discriminate Hfil]. }
  apply bind_inv in H as [(doc & sc & body & eve & Hc & H & ->)|[(e & Hc & ->)|[Hc ->]]];
    apply chunks_run in Hc as (Hz & Hp & Hq & Hn & _ & _ & Hth & _).
  - apply bind_inv in H as [(u' & sd & evf & evg & Hd & H & ->)|[(e & Hd & _)|[Hd _]]];
      [|discriminate Hd|discriminate Hd].
    injection Hd as _ <- <-.
    apply reportProgress_inv in H as (-> & -> & ->). cbn [zip pauses].
    split; [exact Hp|]. right. right.
    exists body, (render (docRoot doc)), (bodyHtml render doc).
    split; [reflexivity|]. split; [exact Hq|]. split; [eexists; reflexivity|].
    rewrite Hz. split; reflexivity.
  - split; [exact Hp|]. right. left.
    destruct (Hth e eq_refl) as (pre & req & n & -> & Hq' & Hcalls & Hf).
    exists e, pre, req, n. repeat split; assumption.
  - congruence.
Qed.

(** ** The loop over the spine *)

Lemma eachEvent_nil Q : eachEvent Q [].
Proof. intros pre e post E. destruct pre; discriminate E. Qed.

Lemma eachEvent_app Q ev1 ev2 :
  eachEvent Q ev1 -> eachEvent (fun pre e => Q (ev1 ++ pre) e) ev2 ->
  eachEvent Q (ev1 ++ ev2).
Proof.
  intros H1 H2 pre e post E. apply app_eq_app in E as [m [[E1 E2]|[E1 E2]]].
  - destruct m as [|x m].
    + rewrite app_nil_r in E1. subst pre. cbn [app] in E2.
      specialize (H2 [] e post (eq_sym E2)). cbv beta in H2.
      rewrite app_nil_r in H2. exact H2.
    + injection E2 as <- ->. apply (H1 pre e m). exact E1.
  - subst pre. apply (H2 m e post). exact E2.
Qed.

Lemma eachEvent_cons Q e ev :
  Q [] e -> eachEvent (fun pre e' => Q (e :: pre) e') ev -> eachEvent Q (e :: ev).
Proof.
  intros He Hev. apply (eachEvent_app Q [e] ev); [|exact Hev].
  intros pre e' post E. destruct pre as [|x pre].
  - injection E as <- _. exact He.
  - injection E as _ E. destruct pre; discriminate E.
Qed.

Lemma exchange_quiet ev : exchange ev -> quiet ev.
Proof.
  intros H. eapply Forall_impl; [exact H|]. intros e He.
  destruct e; try contradiction; split; reflexivity.
Qed.

Lemma exchange_app ev1 ev2 : exchange ev1 -> exchange ev2 -> exchange (ev1 ++ ev2).
Proof. intros H1 H2. apply Forall_app. split; assumption. Qed.

Lemma exchange_orderly onp spine z Q ev :
  exchange ev -> eachEvent (fun pre e => orderly onp spine z (Q pre) e) ev.
Proof.
  intros H pre e post ->. unfold exchange in H. rewrite Forall_forall in H.
  specialize (H e ltac:(apply elem_of_app; right; left)).
  destruct e; try contradiction; exact I.
Qed.

Lemma indexOf_bounds x l : x ∈ l -> 0 <= indexOf x l < Z.of_nat (length l).
Proof.
  induction l as [|y l IH]; intros H; [inversion H|].
  cbn [indexOf length]. destruct (decide (y = x)) as [->|Hne]; [lia|].
  apply elem_of_cons in H as [->|H]; [congruence|].
  specialize (IH H). destruct (indexOf x l <? 0) eqn:E; lia.
Qed.


Lemma orderly_shift onp spine z ev1 pre e :
  orderly onp spine (replay z ev1) pre e -> orderly onp spine z (ev1 ++ pre) e.
Proof.
  destruct e as [s|req|path content|prog|]; cbn [orderly]; try exact id.
  - rewrite replay_app. exact id.
  - intros (Hon & (pre' & content & ->) & Hblob & Hrest). split; [exact Hon|].
    split; [exists (ev1 ++ pre'), content; rewrite app_assoc; reflexivity|].
    rewrite replay_app. split; assumption.
Qed.

Lemma eachEvent_impl (Q1 Q2 : list Event -> Event -> Prop) ev :
  (forall pre e, Q1 pre e -> Q2 pre e) -> eachEvent Q1 ev -> eachEvent Q2 ev.
Proof. intros H H1 pre e post E. apply H. exact (H1 pre e post E). Qed.

(** The events of a document that was written back. *)
Lemma written_orderly spine path z body content html :
  path ∈ spine -> exchange body -> is_Some (z !! path) ->
  eachEvent (orderly (onProgress p) spine z)
    (processing path :: body ++ WriteFile path content
       :: progressEvents (onProgress p) spine path (<[path := content]> z) html).
Proof.
  intros Hin Hx Hsome.
  assert (Hrep : replay z (processing path :: body) = z).
  { apply replay_quiet. constructor; [split; reflexivity|]. apply exchange_quiet. exact Hx. }
  change (processing path :: body ++ ?l) with ((processing path :: body) ++ l).
  apply eachEvent_app.
  - apply (exchange_orderly _ _ _ (fun pre => pre)). constructor; [exact I|exact Hx].
  - apply eachEvent_cons.
    + cbn [orderly]. rewrite app_nil_r, Hrep. split; assumption.
    + unfold progressEvents. destruct (onProgress p); [|apply eachEvent_nil].
      apply eachEvent_cons; [|apply eachEvent_nil].
      cbn [orderly currentFile translatedBlob fileIndex totalFiles status].
      split; [reflexivity|].
      split; [exists (processing path :: body), content; reflexivity|].
      split.
      { rewrite replay_app, Hrep. reflexivity. }
      pose proof (indexOf_bounds path spine Hin). split; [lia|]. split; reflexivity.
Qed.

Lemma loop_run spine l st r st' ev :
  (forall x, x ∈ l -> x ∈ spine) ->
  forEach l (processFile parse render service p spine) st = (r, st', ev) ->
  zip st' = replay (zip st) ev /\ pauses st' = pauses st /\ r <> Pending /\
  eachEvent (orderly (onProgress p) spine (zip st)) ev /\
  (forall e, r = Thrown e ->
     exists pre req n, ev = pre ++ [Translate req] /\ calls st' = S n /\
                       failsWith service n req e).
Proof.
  revert st r st' ev. induction l as [|x l IH]; intros st r st' ev Hl H.
  - injection H as <- <- <-. repeat split; try discriminate. apply eachEvent_nil.
  - cbn [forEach] in H.
    assert (Hx : x ∈ spine) by (apply Hl; left).
    assert (Hl' : forall y, y ∈ l -> y ∈ spine) by (intros y Hy; apply Hl; right; exact Hy).
    apply bind_inv in H as [(u & s1 & e1 & e2 & H1 & H2 & ->)|[(e & H1 & ->)|[H1 ->]]];
      apply processFile_inv in H1 as
        (Hp1 & [(_ & Hr & Hs & He)|[(e' & body & req & n & Hr & He & Hq & Hz & Hc & Hf)
                                   |(body & content & html & Hr & Hq & Hsome & Hz & He)]]);
      try discriminate Hr.
    + (* the document was passed over *)
      subst s1 e1. apply (IH _ _ _ _ Hl') in H2 as (Hz2 & Hp2 & Hn2 & Ho2 & Hth2).
      split; [exact Hz2|]. split; [exact Hp2|]. split; [exact Hn2|]. split.
      * apply eachEvent_cons; [exact I|].
        eapply eachEvent_impl; [|exact Ho2]. intros pre e Ho.
        apply (orderly_shift _ _ _ [processing x]). exact Ho.
      * intros e Hd. destruct (Hth2 e Hd) as (pre & req & n & -> & Hc & Hf).
        exists (processing x :: pre), req, n. auto.
    + (* the document was written back *)
      apply (IH _ _ _ _ Hl') in H2 as (Hz2 & Hp2 & Hn2 & Ho2 & Hth2).
      assert (Hrep : replay (zip st) e1 = zip s1).
      { subst e1. cbn [replay processing].
        rewrite replay_app, (replay_quiet _ body (exchange_quiet _ Hq)). cbn [replay].
        rewrite Hz. unfold progressEvents. destruct (onProgress p); reflexivity. }
      split; [rewrite replay_app, Hrep; exact Hz2|]. split; [congruence|].
      split; [exact Hn2|]. split.
      * apply eachEvent_app.
        -- subst e1. rewrite Hz. apply written_orderly; assumption.
        -- eapply eachEvent_impl; [|exact Ho2]. intros pre e Ho.
           apply orderly_shift. rewrite Hrep. exact Ho.
      * intros e Hd. destruct (Hth2 e Hd) as (pre & req & n & -> & Hc & Hf).
        exists (e1 ++ pre), req, n. rewrite <- app_assoc. auto.
    + (* a request failed *)
      injection Hr as <-. subst ev.
      assert (Hx' : exchange (processing x :: body ++ [Translate req])).
      { constructor; [exact I|]. apply exchange_app; [exact Hq|].
        constructor; [exact I|constructor]. }
      split; [rewrite (replay_quiet _ _ (exchange_quiet _ Hx')); exact Hz|].
      split; [exact Hp1|]. split; [discriminate|]. split.
      * apply (exchange_orderly _ _ _ (fun pre => pre)). exact Hx'.
      * intros e'' [= <-]. exists (processing x :: body), req, n. auto.
Qed.

(** The runs of the job: the manifest resolution fails, or the loop over
    the spine runs. *)
Lemma job_run st r st' ev :
  translateEpub parse render service p st = (r, st', ev) ->
  (exists msg, ~ resolvable parse (zip st) /\ r = Thrown (Error msg) /\ st' = st /\
     ev = [SetStatus (js "Initializing..."); SetStatus (js "Unpacking EPUB...")]) \/
  (exists spine loop rl,
     resolvable parse (zip st) /\
     resolveSpine parse st = (Returned spine, st, []) /\
     forEach spine (processFile parse render service p spine) st = (rl, st', loop) /\
     ev = SetStatus (js "Initializing...") :: SetStatus (js "Unpacking EPUB...") :: loop /\
     match rl with
     | Returned _ => r = Returned (zip st')
     | Thrown e => r = Thrown e
     | Pending => r = Pending
     end).
Proof.
  unfold translateEpub, mbind, job_bind, bind, setStatus, emit. cbv beta iota.
  destruct (resolvable_dec parse (zip st)) as [Hres|Hres].
  - destruct (resolveSpine_resolvable parse st Hres) as [spine Hs]. rewrite Hs.
    destruct (forEach spine (processFile parse render service p spine) st)
      as [[rl s1] loop] eqn:Hloop.
    intros H. right. exists spine, loop, rl. split; [exact Hres|]. split; [reflexivity|].
    destruct rl as [u|e|]; cbn [generateBlob] in H; injection H as <- <- <-;
      rewrite ?app_nil_r; auto.
  - destruct (resolveSpine_unresolvable parse st Hres) as [msg Hs]. rewrite Hs.
    intros [= <- <- <-]. left. exists msg. auto.
Qed.

End Run.

(** ** The archive of a run *)

(** Writes to entries that are there keep the entry names. *)
Lemma replay_names z ev :
  eachEvent (fun pre e => forall path content,
               e = WriteFile path content -> is_Some (replay z pre !! path)) ev ->
  forall path, is_Some (replay z ev !! path) <-> is_Some (z !! path).
Proof.
  induction ev as [|e ev IH] using rev_ind; intros H path; [reflexivity|].
  assert (Hev : eachEvent (fun pre e => forall path content,
                  e = WriteFile path content -> is_Some (replay z pre !! path)) ev).
  { intros pre e' post ->. apply (H pre e' (post ++ [e])). rewrite <- app_assoc. reflexivity. }
  rewrite replay_app. specialize (IH Hev).
  destruct e as [s|req|q content|prog|]; cbn [replay]; try apply IH.
  rewrite <- IH. destruct (decide (q = path)) as [->|Hne].
  - rewrite lookup_insert_eq. split; [intros _|intros _; eexists; reflexivity].
    exact (H ev (WriteFile path content) [] eq_refl path content eq_refl).
  - rewrite lookup_insert_ne by exact Hne. reflexivity.
Qed.

Lemma orderly_prefix onp spine z pre e :
  orderly onp spine z pre e ->
  orderly onp spine z
    (SetStatus (js "Initializing...") :: SetStatus (js "Unpacking EPUB...") :: pre) e.
Proof.
  intros H.
  apply (orderly_shift onp spine z
           [SetStatus (js "Initializing..."); SetStatus (js "Unpacking EPUB...")] pre e).
  exact H.
Qed.

(** What holds of every run of the job. *)
Lemma job_orderly parse render service p st r st' ev :
  translateEpub parse render service p st = (r, st', ev) ->
  zip st' = replay (zip st) ev /\
  exists spine,
    (resolvable parse (zip st) -> resolveSpine parse st = (Returned spine, st, [])) /\
    eachEvent (orderly (onProgress p) spine (zip st)) ev.
Proof.
  intros H. apply job_run in H as
    [(msg & Hres & -> & -> & ->)
    |(spine & loop & rl & Hres & Hs & Hloop & -> & Hr)].
  - split; [reflexivity|]. exists []. split; [intros Hr; contradiction|].
    apply (exchange_orderly _ _ _ (fun pre => pre)).
    repeat (constructor; [exact I|]). constructor.
  - apply loop_run in Hloop as (Hz & _ & _ & Ho & _); [|auto].
    split; [exact Hz|]. exists spine. split; [intros _; exact Hs|].
    do 2 (apply eachEvent_cons; [exact I|]).
    eapply eachEvent_impl; [|exact Ho]. intros pre e. apply orderly_prefix.
Qed.

(** X19. The job only overwrites documents of the spine that are in the
    archive: the archive it leaves is the one it started from with the
    logged writes applied, every write goes to an entry that was there and
    that the spine names, and the archive keeps exactly its entry names. *)
Theorem job_overwrites_spine_documents_only :
  forall (parse : jsstring -> list Markup) (render : list Node -> jsstring)
         (service : nat -> Request -> Reply) (p : TranslateEpubParams)
         (st st' : JobState) (r : Outcome Archive) (ev : list Event),
    translateEpub parse render service p st = (r, st', ev) ->
    zip st' = replay (zip st) ev /\
    (forall path content,
       WriteFile path content ∈ ev ->
       is_Some (zip st !! path) /\
       exists spine, resolveSpine parse st = (Returned spine, st, []) /\ path ∈ spine) /\
    (forall path, is_Some (zip st' !! path) <-> is_Some (zip st !! path)).
Proof.
  intros parse render service p st st' r ev H.
  pose proof H as Hrun.
  apply job_orderly in H as (Hz & spine & Hs & Ho).
  assert (Hw : eachEvent (fun pre e => forall path content,
                 e = WriteFile path content -> is_Some (replay (zip st) pre !! path)) ev).
  { intros pre e post E path content ->. exact (proj2 (Ho pre _ post E)). }
  split; [exact Hz|]. split.
  - intros path content Hin. apply list_elem_of_split in Hin as (pre & post & E).
    pose proof (Ho pre _ post E) as [Hspine Hsome]. split.
    + apply (replay_names (zip st) pre); [|exact Hsome].
      intros pre1 e post1 E1. apply (Hw pre1 e (post1 ++ WriteFile path content :: post)).
      rewrite E, E1, <- app_assoc. reflexivity.
    + exists spine. split; [|exact Hspine]. apply Hs.
      apply job_run in Hrun as [(msg & _ & _ & _ & Hev)|(sp & loop & rl & Hres & _)];
        [|exact Hres].
      rewrite Hev in E. exfalso.
      destruct pre as [|e1 [|e2 [|e3 pre]]]; discriminate E.
  - intros path. rewrite Hz. apply replay_names. exact Hw.
Qed.

Lemma job_overwrites_spine_documents_only_witness :
  let run := translateEpub XmlParser.parseXml XmlSerializer.renderXml fullService
               (sampleParams bilingual) sampleStart in
  zip run.1.2 = replay (zip sampleStart) run.2 /\
  (forall path content,
     WriteFile path content ∈ run.2 ->
     is_Some (zip sampleStart !! path) /\
     exists spine, resolveSpine XmlParser.parseXml sampleStart = (Returned spine, sampleStart, [])
                   /\ path ∈ spine) /\
  (forall path, is_Some (zip run.1.2 !! path) <-> is_Some (zip sampleStart !! path)).
Proof.
  intros run.
  apply (job_overwrites_spine_documents_only XmlParser.parseXml XmlSerializer.renderXml
           fullService (sampleParams bilingual) sampleStart run.1.2 run.1.1 run.2).
  subst run. destruct (translateEpub _ _ _ _ _) as [[r st'] ev]. reflexivity.
Defined.

(** X20. A progress report comes right after the write-back of the
    document it names and carries the archive as of that write; the
    position it gives is between one and the number of documents of the
    spine.  Without the callback there is no report. *)
Theorem progress_report_follows_write :
  forall (parse : jsstring -> list Markup) (render : list Node -> jsstring)
         (service : nat -> Request -> Reply) (p : TranslateEpubParams)
         (st st' : JobState) (r : Outcome Archive) (ev pre post : list Event)
         (prog : Progress),
    translateEpub parse render service p st = (r, st', ev) ->
    ev = pre ++ OnProgress prog :: post ->
    onProgress p = true /\
    (exists pre' content, pre = pre' ++ [WriteFile (currentFile prog) content]) /\
    translatedBlob prog = replay (zip st) pre /\
    1 <= fileIndex prog <= totalFiles prog /\
    status prog = js "Processed " ++ currentFile prog.
Proof.
  intros parse render service p st st' r ev pre post prog H E.
  apply job_orderly in H as (_ & spine & _ & Ho).
  destruct (Ho pre _ post E) as (Hon & Hpre & Hblob & Hidx & _ & Hstatus). auto.
Qed.

Lemma progress_report_follows_write_witness :
  let run := translateEpub XmlParser.parseXml XmlSerializer.renderXml fullService
               (sampleParams bilingual) sampleStart in
  exists pre prog post,
    run.2 = pre ++ OnProgress prog :: post /\
    (onProgress (sampleParams bilingual) = true /\
     (exists pre' content, pre = pre' ++ [WriteFile (currentFile prog) content]) /\
     translatedBlob prog = replay (zip sampleStart) pre /\
     1 <= fileIndex prog <= totalFiles prog /\
     status prog = js "Processed " ++ currentFile prog).
Proof.
  intros run.
  assert (Hev : exists prog, run.2 = take 6 run.2 ++ OnProgress prog :: []).
  { vm_compute. eexists. reflexivity. }
  destruct Hev as [prog E]. exists (take 6 run.2), prog, [].
  split; [exact E|].
  apply (progress_report_follows_write XmlParser.parseXml XmlSerializer.renderXml
           fullService (sampleParams bilingual) sampleStart run.1.2 run.1.1 run.2
           (take 6 run.2) [] prog); [|exact E].
  subst run. destruct (translateEpub _ _ _ _ _) as [[r st'] ev]. reflexivity.
Defined.

(** X21. The job throws at the manifest or right after a request, and it
    never stays pending: it throws an [Error] of the manifest resolution
    with the archive untouched, or the exception of a request that was
    rejected, or a [TypeError] when a completion has no choice.  The failed
    request is the last call the job made: the document in progress is
    not written back. *)
Theorem job_throws_at_manifest_or_request :
  forall (parse : jsstring -> list Markup) (render : list Node -> jsstring)
         (service : nat -> Request -> Reply) (p : TranslateEpubParams)
         (st st' : JobState) (r : Outcome Archive) (ev : list Event),
    translateEpub parse render service p st = (r, st', ev) ->
    r <> Pending /\
    forall e, r = Thrown e ->
      (exists msg, e = Error msg /\ st' = st /\
         ev = [SetStatus (js "Initializing..."); SetStatus (js "Unpacking EPUB...")]) \/
      (exists pre req n,
         ev = pre ++ [Translate req] /\ calls st' = S n /\
         (service n req = Rejects e \/ (service n req = Completion [] /\ e = TypeError))).
Proof.
  intros parse render service p st st' r ev H.
  apply job_run in H as
    [(msg & Hres & -> & -> & ->)
    |(spine & loop & rl & Hres & Hs & Hloop & -> & Hr)].
  - split; [discriminate|]. intros e [= <-]. left. exists msg. auto.
  - apply loop_run in Hloop as (_ & _ & Hn & _ & Hth); [|auto].
    destruct rl as [u|e'|]; [subst r|subst r|congruence].
    + split; discriminate.
    + split; [discriminate|]. intros e [= <-]. right.
      destruct (Hth e' eq_refl) as (pre & req & n & -> & Hc & Hf).
      exists (SetStatus (js "Initializing...") :: SetStatus (js "Unpacking EPUB...") :: pre),
             req, n.
      split; [reflexivity|]. split; [exact Hc|exact Hf].
Qed.

Lemma job_throws_at_manifest_or_request_witness :
  let service := fun (n : nat) (_ : Request) => Rejects (Rejection (js "429")) in
  let run := translateEpub XmlParser.parseXml XmlSerializer.renderXml service
               (sampleParams replace) sampleStart in
  run.1.1 = Thrown (Rejection (js "429")) /\
  (run.1.1 <> Pending /\
   forall e, run.1.1 = Thrown e ->
     (exists msg, e = Error msg /\ run.1.2 = sampleStart /\
        run.2 = [SetStatus (js "Initializing..."); SetStatus (js "Unpacking EPUB...")]) \/
     (exists pre req n,
        run.2 = pre ++ [Translate req] /\ calls run.1.2 = S n /\
        (service n req = Rejects e \/ (service n req = Completion [] /\ e = TypeError)))).
Proof.
  intros service run. split; [vm_compute; reflexivity|].
  apply (job_throws_at_manifest_or_request XmlParser.parseXml XmlSerializer.renderXml
           service (sampleParams replace) sampleStart run.1.2 run.1.1 run.2).
  subst run. destruct (translateEpub _ _ _ _ _) as [[r st'] ev]. reflexivity.
Defined.

(** X22. A job that can resolve its spine and whose every request is
    answered by a completion with a choice returns, and what it returns is
    the archive it has built. *)
Theorem job_returns_final_archive :
  forall (parse : jsstring -> list Markup) (render : list Node -> jsstring)
         (service : nat -> Request -> Reply) (p : TranslateEpubParams) (st : JobState),
    resolvable parse (zip st) ->
    (forall n req, exists m rest, service n req = Completion (m :: rest)) ->
    exists st' ev,
      translateEpub parse render service p st = (Returned (zip st'), st', ev).
Proof.
  intros parse render service p st Hres Hans.
  destruct (translateEpub parse render service p st) as [[r st'] ev] eqn:H.
  exists st', ev. f_equal. f_equal.
  apply job_run in H as
    [(msg & Hres' & _)|(spine & loop & rl & _ & Hs & Hloop & -> & Hr)]; [contradiction|].
  apply loop_run in Hloop as (_ & _ & Hn & _ & Hth); [|auto].
  destruct rl as [u|e|]; [exact Hr| |congruence].
  destruct (Hth e eq_refl) as (pre & req & n & _ & _ & [Hf|[Hf _]]);
    destruct (Hans n req) as (m & rest & Hm); congruence.
Qed.

Lemma job_returns_final_archive_witness :
  exists st' ev,
    translateEpub XmlParser.parseXml XmlSerializer.renderXml fullService
      (sampleParams replace) sampleStart = (Returned (zip st'), st', ev).
Proof.
  apply (job_returns_final_archive XmlParser.parseXml XmlSerializer.renderXml fullService
           (sampleParams replace) sampleStart).
  - exact sampleBook_resolvable.
  - intros n req. eexists _, _. reflexivity.
Defined.

(** ** The order of the writes *)

Lemma writesOf_app ev1 ev2 : writesOf (ev1 ++ ev2) = writesOf ev1 ++ writesOf ev2.
Proof. unfold writesOf. apply omap_app. Qed.

Lemma writesOf_exchange ev : exchange ev -> writesOf ev = [].
Proof.
  induction 1 as [|e ev He _ IH]; [reflexivity|].
  destruct e; try contradiction; exact IH.
Qed.

Lemma writesOf_progress onp spine path z html :
  writesOf (progressEvents onp spine path z html) = [].
Proof. unfold progressEvents. destruct onp; reflexivity. Qed.

Lemma loop_writes parse render service p spine l st r st' ev :
  forEach l (processFile parse render service p spine) st = (r, st', ev) ->
  writesOf ev `sublist_of` l.
Proof.
  revert st r st' ev. induction l as [|x l IH]; intros st r st' ev H.
  - injection H as <- <- <-. constructor.
  - cbn [forEach] in H.
    apply bind_inv in H as [(u & s1 & e1 & e2 & H1 & H2 & ->)|[(e & H1 & ->)|[H1 ->]]];
      apply processFile_inv in H1 as
        (_ & [(_ & Hr & Hs & He)|[(e' & body & req & n & Hr & He & Hq & _)
                                   |(body & content & html & Hr & Hq & _ & _ & He)]]);
      try discriminate Hr; subst.
    + apply IH in H2. cbn. apply sublist_cons. exact H2.
    + apply IH in H2. rewrite writesOf_app.
      change (processing x :: body ++ ?t) with ((processing x :: body) ++ t).
      rewrite writesOf_app.
      rewrite (writesOf_exchange (processing x :: body)) by (constructor; [exact I|exact Hq]).
      cbn [app writesOf omap list_omap]. fold (writesOf (progressEvents (onProgress p) spine x (zip s1) html)).
      rewrite writesOf_progress. cbn [app]. apply sublist_skip. exact H2.
    + rewrite (writesOf_exchange (processing x :: body ++ [Translate req])).
      * apply sublist_nil_l.
      * constructor; [exact I|]. apply exchange_app; [exact Hq|].
        constructor; [exact I|constructor].
Qed.

(** X23. The documents are written back in the order of the spine: the
    entries the job writes, in the order of the writes, are documents of
    the spine in spine order, each written once for each place it has in
    the spine at most. *)
Theorem documents_written_in_spine_order :
  forall (parse : jsstring -> list Markup) (render : list Node -> jsstring)
         (service : nat -> Request -> Reply) (p : TranslateEpubParams)
         (st st' : JobState) (r : Outcome Archive) (ev : list Event) (spine : list jsstring),
    translateEpub parse render service p st = (r, st', ev) ->
    resolveSpine parse st = (Returned spine, st, []) ->
    writesOf ev `sublist_of` spine.
Proof.
  intros parse render service p st st' r ev spine H Hs.
  apply job_run in H as
    [(msg & Hres & _)|(spine' & loop & rl & Hres & Hs' & Hloop & -> & Hr)].
  - exfalso. destruct (resolveSpine_unresolvable parse st Hres) as [msg' Hm]. congruence.
  - rewrite Hs in Hs'. injection Hs' as <-. cbn.
    exact (loop_writes _ _ _ _ _ _ _ _ _ _ Hloop).
Qed.

Lemma documents_written_in_spine_order_witness :
  writesOf (translateEpub XmlParser.parseXml XmlSerializer.renderXml fullService
              (sampleParams replace) sampleStart).2 `sublist_of` [js "ch1.xhtml"].
Proof.
  destruct (translateEpub XmlParser.parseXml XmlSerializer.renderXml fullService
              (sampleParams replace) sampleStart) as [[r st'] ev] eqn:H.
  apply (documents_written_in_spine_order _ _ _ _ _ _ _ _ _ H).
  vm_compute. reflexivity.
Defined.

(** ** Documents without text *)

Lemma processFile_blank parse render service p spine path st :
  blank parse (zip st) path ->
  processFile parse render service p spine path st = (Returned (), st, [processing path]).
Proof.
  intros H. unfold processFile, mbind, job_bind, bind, setStatus, emit, readFile.
  cbv beta iota.
  destruct H as [H|[H|(content & H & Hb)]]; rewrite H; try reflexivity.
  destruct content as [|c content]; [reflexivity|]. cbn [truthy]. cbv beta iota zeta.
  destruct (length (selectLeafBlocks (load parse (c :: content))) =? 0)%nat; [reflexivity|].
  rewrite Hb. reflexivity.
Qed.

Lemma loop_blank parse render service p spine l st :
  (forall path, path ∈ l -> blank parse (zip st) path) ->
  forEach l (processFile parse render service p spine) st = (Returned (), st, map processing l).
Proof.
  induction l as [|x l IH]; intros H; [reflexivity|].
  cbn [forEach map]. unfold mbind, job_bind, bind.
  rewrite (processFile_blank parse render service p spine x st) by (apply H; left).
  rewrite IH by (intros y Hy; apply H; right; exact Hy). reflexivity.
Qed.

(** X24. A book with nothing to translate is returned as it is: when every
    document of the spine is missing, empty or without a block of text,
    the job sends no request and writes nothing; it reports each document
    and returns the archive it was given. *)
Theorem blank_book_untouched :
  forall (parse : jsstring -> list Markup) (render : list Node -> jsstring)
         (service : nat -> Request -> Reply) (p : TranslateEpubParams)
         (st : JobState) (spine : list jsstring),
    resolveSpine parse st = (Returned spine, st, []) ->
    (forall path, path ∈ spine ->
       zip st !! path = None \/ zip st !! path = Some [] \/
       exists content, zip st !! path = Some content /\
                       filteredBlocks (load parse content) = []) ->
    translateEpub parse render service p st =
      (Returned (zip st), st,
       SetStatus (js "Initializing...") :: SetStatus (js "Unpacking EPUB...")
         :: map (fun path => SetStatus (js "Processing: " ++ path)) spine).
Proof.
  intros parse render service p st spine Hs Hb.
  unfold translateEpub, mbind, job_bind, bind, setStatus, emit. cbv beta iota.
  rewrite Hs. cbv beta iota.
  rewrite (loop_blank parse render service p spine spine st Hb).
  cbn [generateBlob]. rewrite app_nil_r. reflexivity.
Qed.

Lemma blank_book_untouched_witness :
  let st := {| zip := <[js "ch1.xhtml" := js "<html><body><p> </p><img/></body></html>"]>
                        sampleBook;
               calls := 0; pauses := 0 |} in
  translateEpub XmlParser.parseXml XmlSerializer.renderXml fullService
    (sampleParams replace) st =
    (Returned (zip st), st,
     SetStatus (js "Initializing...") :: SetStatus (js "Unpacking EPUB...")
       :: map (fun path => SetStatus (js "Processing: " ++ path)) [js "ch1.xhtml"]).
Proof.
  intros st.
  apply (blank_book_untouched XmlParser.parseXml XmlSerializer.renderXml fullService
           (sampleParams replace) st [js "ch1.xhtml"]).
  - vm_compute. reflexivity.
  - intros path Hp. apply list_elem_of_singleton in Hp as ->. right. right.
    exists (js "<html><body><p> </p><img/></body></html>").
    split; vm_compute; reflexivity.
Defined.

(** ** The requests of a document *)

Section Requests.
Variable parse : jsstring -> list Markup.
Variable render : list Node -> jsstring.
Variable service : nat -> Request -> Reply.
Variable p : TranslateEpubParams.

Lemma chunks_calls filePath chunks l doc st r st' ev :
  foldJob l (translateChunk parse service p filePath chunks) doc st = (r, st', ev) ->
  calls st' = (calls st + length (requestsOf ev))%nat.
Proof.
  revert doc st r st' ev. induction l as [|ic l IH]; intros doc st r st' ev H.
  - injection H as <- <- <-. cbn. lia.
  - cbn [foldJob] in H.
    apply bind_inv in H as [(d & s1 & e1 & e2 & H1 & H2 & ->)|[(e & H1 & ->)|[H1 ->]]];
      apply translateChunk_inv in H1 as ((s & ->) & _ & _ & Hc & _).
    + apply IH in H2. rewrite requestsOf_app, length_app. cbn. lia.
    + cbn. lia.
    + cbn. lia.
Qed.

Lemma processFile_requests spine path content st r st' ev :
  processFile parse render service p spine path st = (r, st', ev) ->
  zip st !! path = Some content -> content <> [] ->
  let chunks := makeChunks (chunkSize p) (filteredBlocks (load parse content)) in
  requestsOf ev `prefix_of` map (requestFor p chunks) (imap pair chunks) /\
  (r = Returned () -> requestsOf ev = map (requestFor p chunks) (imap pair chunks)) /\
  calls st' = (calls st + length (requestsOf ev))%nat.
Proof.
  intros H Hfile Hne chunks. unfold processFile in H.
  apply bind_inv in H as [(u & sa & eva & evb & Ha & H & ->)|[(e & Ha & _)|[Ha _]]];
    [|discriminate Ha|discriminate Ha].
  injection Ha as _ <- <-.
  apply bind_inv in H as [(fc & sb & evc & evd & Hb & H & ->)|[(e & Hb & _)|[Hb _]]];
    [|discriminate Hb|discriminate Hb].
  injection Hb as <- <- <-. cbn [app]. rewrite Hfile in H.
  change (requestsOf (SetStatus ?s :: ?l)) with (requestsOf l).
  destruct content as [|c0 content]; [congruence|].
  cbn [truthy] in H. cbv beta iota zeta in H.
  destruct (length (selectLeafBlocks (load parse (c0 :: content))) =? 0)%nat eqn:Hsel.
  { injection H as <- <- <-. subst chunks.
    apply Nat.eqb_eq in Hsel.
    rewrite filteredBlocks_none by (destruct (selectLeafBlocks _); [reflexivity|discriminate]).
    split; [apply prefix_nil|]. split; [reflexivity|cbn; lia]. }
  destruct (length (filteredBlocks (load parse (c0 :: content))) =? 0)%nat eqn:Hfil.
  { injection H as <- <- <-. subst chunks. apply Nat.eqb_eq in Hfil.
    destruct (filteredBlocks _); [|discriminate Hfil].
    split; [apply prefix_nil|]. split; [reflexivity|cbn; lia]. }
  fold chunks in H.
  apply bind_inv in H as [(doc & sc & body & eve & Hc & H & ->)|[(e & Hc & ->)|[Hc ->]]];
    pose proof (chunks_calls _ _ _ _ _ _ _ _ Hc) as Hcalls;
    apply chunks_run in Hc as (_ & _ & _ & Hn & Hpre & Hall & _ & _).
  - apply bind_inv in H as [(u' & sd & evf & evg & Hd & H & ->)|[(e & Hd & _)|[Hd _]]];
      [|discriminate Hd|discriminate Hd].
    injection Hd as _ <- <-.
    apply reportProgress_inv in H as (-> & -> & ->). cbn [calls].
    assert (E : requestsOf (body ++ [WriteFile path (render (docRoot doc))] ++
                  progressEvents (onProgress p) spine path
                    (<[path := render (docRoot doc)]> (zip sc)) (bodyHtml render doc))
                = requestsOf body).
    { rewrite !requestsOf_app. unfold progressEvents.
      destruct (onProgress p); cbn; rewrite app_nil_r; reflexivity. }
    cbn [zip]. rewrite E, (Hall doc eq_refl).
    split; [reflexivity|]. split; [reflexivity|].
    rewrite <- (Hall doc eq_refl). exact Hcalls.
  - split; [exact Hpre|]. split; [discriminate|exact Hcalls].
  - congruence.
Qed.
End Requests.

(** X25. The requests of a document are one for each of its chunks, in
    order, made from the text the document had when it was read: the
    replies to earlier requests do not enter later ones.  A run that
    stops at a failed request has sent the first of them; the calls of the
    service are counted by the requests. *)
Theorem requests_follow_chunks :
  forall (parse : jsstring -> list Markup) (render : list Node -> jsstring)
         (service : nat -> Request -> Reply) (p : TranslateEpubParams)
         (spine : list jsstring) (path content : jsstring)
         (st st' : JobState) (r : Outcome unit) (ev : list Event),
    processFile parse render service p spine path st = (r, st', ev) ->
    zip st !! path = Some content -> content <> [] ->
    let chunks := makeChunks (chunkSize p) (filteredBlocks (load parse content)) in
    let expected :=
      imap (fun i chunk =>
              {| model := modelName p; messages := chunkMessages p chunks i chunk |})
           chunks in
    requestsOf ev `prefix_of` expected /\
    (r = Returned () -> requestsOf ev = expected) /\
    calls st' = (calls st + length (requestsOf ev))%nat.
Proof.
  intros parse render service p spine path content st st' r ev H Hfile Hne chunks expected.
  pose proof (processFile_requests parse render service p spine path content st r st' ev
                H Hfile Hne) as Hr.
  cbv zeta in Hr. fold chunks in Hr. rewrite map_requestFor_imap in Hr. exact Hr.
Qed.

Lemma requests_follow_chunks_witness :
  let run := processFile XmlParser.parseXml XmlSerializer.renderXml fullService
               (sampleParams replace) [js "ch1.xhtml"] (js "ch1.xhtml") sampleStart in
  let content := js "<html><body><p>one</p><p>two</p></body></html>" in
  let chunks := makeChunks (chunkSize (sampleParams replace))
                  (filteredBlocks (load XmlParser.parseXml content)) in
  let expected :=
    imap (fun i chunk =>
            {| model := modelName (sampleParams replace);
               messages := chunkMessages (sampleParams replace) chunks i chunk |})
         chunks in
  requestsOf run.2 `prefix_of` expected /\
  (run.1.1 = Returned () -> requestsOf run.2 = expected) /\
  calls run.1.2 = (calls sampleStart + length (requestsOf run.2))%nat.
Proof.
  intros run content.
  apply (requests_follow_chunks XmlParser.parseXml XmlSerializer.renderXml fullService
           (sampleParams replace) [js "ch1.xhtml"] (js "ch1.xhtml") content
           sampleStart run.1.2 run.1.1 run.2).
  - subst run. destruct (processFile _ _ _ _ _ _ _) as [[r st'] ev]. reflexivity.
  - vm_compute. reflexivity.
  - discriminate.
Defined.

(** ** The context message *)






(** ** Bilingual mode only adds *)

Lemma flat_map_outline_app (F1 F2 : list Node) :
  flat_map outline (F1 ++ F2) = flat_map outline F1 ++ flat_map outline F2.
Proof. apply flat_map_app. Qed.

Lemma outline_rewriteNode target (f : Node -> list Node) :
  (forall x, outline x `sublist_of` flat_map outline (f x)) ->
  forall n, outline n `sublist_of` flat_map outline (rewriteNode target f n).
Proof.
  intros Hf. induction n as [d|i nm a cs IH] using Tree_ind'.
  - cbn. reflexivity.
  - cbn [rewriteNode]. destruct (decide (i = target)); [apply Hf|].
    cbn [flat_map outline]. rewrite app_nil_r. apply sublist_skip.
    induction IH as [|c cs Hc _ IHcs]; [constructor|].
    cbn [flat_map]. rewrite flat_map_outline_app. apply sublist_app; assumption.
Qed.

Lemma outline_rewriteForest target (f : Node -> list Node) F :
  (forall x, outline x `sublist_of` flat_map outline (f x)) ->
  flat_map outline F `sublist_of` flat_map outline (rewriteForest target f F).
Proof.
  intros Hf. unfold rewriteForest. induction F as [|n F IH]; [constructor|].
  cbn [flat_map]. rewrite flat_map_outline_app.
  apply sublist_app; [apply outline_rewriteNode; exact Hf|exact IH].
Qed.

Lemma outline_after parse doc node html :
  flat_map outline (docRoot doc) `sublist_of`
  flat_map outline (docRoot (after parse doc node html)).
Proof.
  unfold after. destruct (makeDom parse doc html) as [new next]. cbn [docRoot].
  apply outline_rewriteForest. intros x. cbn [flat_map].
  apply sublist_inserts_r. reflexivity.
Qed.

Lemma outline_append parse doc node html :
  flat_map outline (docRoot doc) `sublist_of`
  flat_map outline (docRoot (append parse doc node html)).
Proof.
  unfold append. destruct (makeDom parse doc html) as [new next]. cbn [docRoot].
  apply outline_rewriteForest. intros x. destruct x as [i nm a cs|d].
  - cbn [childrenOf withChildren flat_map outline]. rewrite app_nil_r.
    apply sublist_skip. rewrite flat_map_outline_app. apply sublist_inserts_r. reflexivity.
  - cbn. reflexivity.
Qed.

Lemma outline_insertBilingual parse doc node translated :
  flat_map outline (docRoot doc) `sublist_of`
  flat_map outline (docRoot (insertBilingual parse doc node translated)).
Proof.
  unfold insertBilingual.
  destruct (bool_decide _); [apply outline_append|].
  destruct (bool_decide _); [apply outline_append|].
  destruct (test _ _); apply outline_after.
Qed.

(** X27. Bilingual mode only adds to a document: whatever the translated
    strings, every element (with its identity, name and attributes) and
    every text node the document had is still there after the translations
    of a chunk are put in, in the same order. *)
Theorem bilingual_only_adds :
  forall (parse : jsstring -> list Markup) (translatedParagraphs : list jsstring)
         (chunk : Chunk) (doc : Document),
    flat_map outline (docRoot doc) `sublist_of`
    flat_map outline (docRoot (applyChunk parse bilingual translatedParagraphs chunk doc)).
Proof.
  intros parse translated chunk doc. unfold applyChunk.
  generalize 0%nat. generalize (nodes chunk). intros nodes. revert doc.
  induction nodes as [|node rest IH]; intros doc j; [reflexivity|].
  cbn [applyFrom]. etransitivity; [|apply IH]. apply outline_insertBilingual.
Qed.

(** ** Replace mode touches the block only *)

Lemma findElement_None_absent F target :
  findElement F target = None -> Some target ∉ ids F.
Proof.
  unfold findElement, ids. intros H Hin.
  apply list_elem_of_fmap in Hin as (n & Hid & Hn).
  assert (Hf : In n (List.filter (hasId target) (elements F))).
  { apply filter_In. split; [apply list_elem_of_In; exact Hn|].
    apply hasId_idOf. symmetry. exact Hid. }
  destruct (List.filter (hasId target) (elements F)); [inversion Hf|discriminate H].
Qed.

Lemma findElement_Some_present F target el :
  findElement F target = Some el -> Some target ∈ ids F.
Proof.
  intros H. unfold ids. apply list_elem_of_fmap. exists el. split.
  - symmetry. apply hasId_idOf. exact (findElement_hasId _ _ _ H).
  - apply list_elem_of_In. exact (findElement_In _ _ _ H).
Qed.

Section Absent.
Variable target : DomElement.
Variable f : Node -> list Node.

Lemma rewriteNode_absent n : Some target ∉ ids [n] -> rewriteNode target f n = [n].
Proof.
  induction n as [d|i nm a cs IH] using Tree_ind'; intros Hn; [reflexivity|].
  cbn [rewriteNode]. rewrite ids_element in Hn.
  destruct (decide (i = target)) as [->|Hne]; [exfalso; apply Hn; left|].
  do 2 f_equal.
  assert (Hcs : Some target ∉ ids cs) by (intros H; apply Hn; right; exact H).
  clear Hn. induction IH as [|c cs Hc _ IHcs]; [reflexivity|].
  rewrite ids_cons in Hcs. cbn [flat_map].
  rewrite Hc by (intros H; apply Hcs, elem_of_app; left; exact H).
  rewrite IHcs by (intros H; apply Hcs, elem_of_app; right; exact H). reflexivity.
Qed.

Lemma rewriteForest_absent F : Some target ∉ ids F -> rewriteForest target f F = F.
Proof.
  unfold rewriteForest. induction F as [|n F IH]; intros H; [reflexivity|].
  rewrite ids_cons in H. cbn [flat_map].
  rewrite rewriteNode_absent by (intros Hn; apply H, elem_of_app; left; exact Hn).
  rewrite IH by (intros Hn; apply H, elem_of_app; right; exact Hn). reflexivity.
Qed.
End Absent.

Section Inside.
Variable target : DomElement.
Variable el : Node.

Lemma around_forest cs :
  Forall (fun c => NoDup (ids [c]) -> findElement [c] target = Some el -> around target el [c]) cs ->
  NoDup (ids cs) -> findElement cs target = Some el -> around target el cs.
Proof.
  induction 1 as [|c cs Hc _ IH]; intros Hnd Hfind; [discriminate Hfind|].
  rewrite ids_cons in Hnd. apply NoDup_app in Hnd as (Hnd1 & Hdis & Hnd2).
  rewrite findElement_cons in Hfind.
  destruct (findElement [c] target) as [x|] eqn:Ec.
  - injection Hfind as ->. destruct (Hc Hnd1 eq_refl) as (pre & post & E1 & E2).
    assert (Habs : Some target ∉ ids cs).
    { apply Hdis. exact (findElement_Some_present _ _ _ Ec). }
    exists pre, (post ++ flat_map outline cs). split.
    + cbn [flat_map]. cbn [flat_map] in E1. rewrite app_nil_r in E1.
      rewrite E1, <- !app_assoc. reflexivity.
    + intros new. specialize (E2 new). unfold rewriteForest in *. cbn [flat_map] in *.
      rewrite app_nil_r in E2. rewrite flat_map_app, E2.
      fold (rewriteForest target (fun n => [withChildren new n]) cs).
      rewrite (rewriteForest_absent target _ cs Habs), <- !app_assoc. reflexivity.
  - destruct (IH Hnd2 Hfind) as (pre & post & E1 & E2).
    exists (outline c ++ pre), post. split.
    + cbn [flat_map]. rewrite E1, <- !app_assoc. reflexivity.
    + intros new. specialize (E2 new). unfold rewriteForest in *. cbn [flat_map].
      rewrite (rewriteNode_absent target _ c (findElement_None_absent _ _ Ec)).
      rewrite flat_map_app, E2. cbn [flat_map]. rewrite app_nil_r, <- !app_assoc. reflexivity.
Qed.

Lemma around_node n :
  NoDup (ids [n]) -> findElement [n] target = Some el -> around target el [n].
Proof.
  induction n as [d|i nm a cs IH] using Tree_ind'; intros Hnd Hfind.
  - rewrite findElement_text in Hfind. discriminate Hfind.
  - rewrite findElement_element in Hfind. rewrite ids_element in Hnd.
    apply NoDup_cons in Hnd as [_ Hnd].
    destruct (decide (i = target)) as [->|Hne].
    + injection Hfind as Hel. exists [ItemElement target nm a], []. split.
      * rewrite <- Hel. cbn. rewrite !app_nil_r. reflexivity.
      * intros new. unfold rewriteForest. cbn [flat_map rewriteNode].
        rewrite decide_True by reflexivity. cbn. rewrite !app_nil_r. reflexivity.
    + destruct (around_forest cs IH Hnd Hfind) as (pre & post & E1 & E2).
      exists (ItemElement i nm a :: pre), post. split.
      * cbn [flat_map outline]. rewrite app_nil_r, E1. reflexivity.
      * intros new. specialize (E2 new). unfold rewriteForest in *.
        cbn [flat_map rewriteNode]. rewrite decide_False by exact Hne.
        cbn [app flat_map outline]. rewrite !app_nil_r, E2. reflexivity.
Qed.

Lemma around_tree F :
  NoDup (ids F) -> findElement F target = Some el -> around target el F.
Proof.
  apply around_forest. apply Forall_forall. intros c _. apply around_node.
Qed.
End Inside.

(** X28. Replace mode touches the content of the block only: in the
    document in document order, what stood before the children of the
    block and what stood after them stands there still, and between them
    is what the stripped translation was parsed to. *)
Theorem replace_touches_block_only :
  forall (parse : jsstring -> list Markup) (doc : Document) (node : DomElement)
         (el : Node) (translated : jsstring),
    wfDocument doc ->
    findElement (docRoot doc) node = Some el ->
    exists pre post,
      flat_map outline (docRoot doc) = pre ++ flat_map outline (childrenOf el) ++ post /\
      flat_map outline (docRoot (replaceBlock parse doc node translated)) =
        pre ++ flat_map outline (makeDom parse doc (stripBlockTags translated)).1 ++ post.
Proof.
  intros parse doc node el translated [Hnd _] Hfind.
  destruct (around_tree node el (docRoot doc) Hnd Hfind) as (pre & post & E1 & E2).
  exists pre, post. split; [exact E1|].
  unfold replaceBlock, setHtml.
  destruct (makeDom parse doc (stripBlockTags translated)) as [new next].
  cbn [docRoot fst]. apply E2.
Qed.

Lemma replace_touches_block_only_witness :
  let el := Element 2%nat (js "p") [] [Text (js "one")] in
  exists pre post,
    flat_map outline (docRoot sampleChapter) = pre ++ flat_map outline (childrenOf el) ++ post /\
    flat_map outline (docRoot (replaceBlock XmlParser.parseXml sampleChapter 2 (js "un"))) =
      pre ++ flat_map outline
               (makeDom XmlParser.parseXml sampleChapter (stripBlockTags (js "un"))).1 ++ post.
Proof.
  intros el.
  apply (replace_touches_block_only XmlParser.parseXml sampleChapter 2 el (js "un")).
  - apply load_wf.
  - vm_compute. reflexivity.
Defined.

(** ** Bilingual mode adds one node *)

Lemma replacedAt_prefix a new p l l' :
  replacedAt a new l l' -> replacedAt a new (p ++ l) (p ++ l').
Proof.
  intros [l1 l2|l1 i nm at' cs cs' l2 H].
  - rewrite (app_assoc p l1 (a :: l2)), (app_assoc p l1 (new ++ l2)). apply replaced_here.
  - rewrite (app_assoc p l1 (_ :: l2)), (app_assoc p l1 (Element i nm at' cs' :: l2)).
    apply replaced_below. exact H.
Qed.

Lemma replacedAt_suffix a new l l' q :
  replacedAt a new l l' -> replacedAt a new (l ++ q) (l' ++ q).
Proof.
  intros [l1 l2|l1 i nm at' cs cs' l2 H]; rewrite <- !app_assoc; cbn [app].
  - apply (replaced_here a new l1 (l2 ++ q)).
  - apply (replaced_below a new l1 i nm at' cs cs' (l2 ++ q)). exact H.
Qed.

Section Replaced.
Variable target : DomElement.
Variable f : Node -> list Node.
Variable el : Node.

Lemma replacedAt_forest cs :
  Forall (fun c => NoDup (ids [c]) -> findElement [c] target = Some el ->
                   replacedAt el (f el) [c] (rewriteNode target f c)) cs ->
  NoDup (ids cs) -> findElement cs target = Some el ->
  replacedAt el (f el) cs (rewriteForest target f cs).
Proof.
  induction 1 as [|c cs Hc _ IH]; intros Hnd Hfind; [discriminate Hfind|].
  rewrite ids_cons in Hnd. apply NoDup_app in Hnd as (Hnd1 & Hdis & Hnd2).
  rewrite findElement_cons in Hfind. unfold rewriteForest. cbn [flat_map].
  fold (rewriteForest target f cs).
  destruct (findElement [c] target) as [x|] eqn:Ec.
  - injection Hfind as ->.
    assert (Habs : Some target ∉ ids cs).
    { apply Hdis. exact (findElement_Some_present _ _ _ Ec). }
    rewrite (rewriteForest_absent target f cs Habs).
    apply (replacedAt_suffix el (f el) [c] _ cs). apply Hc; [exact Hnd1|reflexivity].
  - rewrite (rewriteNode_absent target f c (findElement_None_absent _ _ Ec)).
    apply (replacedAt_prefix el (f el) [c]). apply IH; assumption.
Qed.

Lemma replacedAt_node n :
  NoDup (ids [n]) -> findElement [n] target = Some el ->
  replacedAt el (f el) [n] (rewriteNode target f n).
Proof.
  induction n as [d|i nm a cs IH] using Tree_ind'; intros Hnd Hfind.
  - rewrite findElement_text in Hfind. discriminate Hfind.
  - rewrite findElement_element in Hfind. rewrite ids_element in Hnd.
    apply NoDup_cons in Hnd as [_ Hnd]. cbn [rewriteNode].
    destruct (decide (i = target)) as [->|Hne].
    + injection Hfind as Hel. rewrite Hel.
      pose proof (replaced_here el (f el) [] []) as Hhere.
      cbn [app] in Hhere. rewrite app_nil_r in Hhere. exact Hhere.
    + apply (replaced_below el (f el) [] i nm a cs _ []).
      apply (replacedAt_forest cs IH Hnd Hfind).
Qed.

Lemma replacedAt_rewriteForest F :
  NoDup (ids F) -> findElement F target = Some el ->
  replacedAt el (f el) F (rewriteForest target f F).
Proof.
  apply replacedAt_forest. apply Forall_forall. intros c _. apply replacedAt_node.
Qed.
End Replaced.

(** In bilingual mode, for a block the extractor selected in a well-formed
    document and a translated string whose stripped form is plain text,
    the mutated document is the document with one node more and nothing
    else changed: the marked element that holds the stripped text, as the
    last child of the block when the block is a list item or a
    blockquote, and as the sibling right after the block otherwise.  The
    block extractor, run on the mutated document, does not select it. *)
Theorem bilingual_adds_one_marked_node :
  forall (parse : jsstring -> list Markup) (doc : Document) (el : Node)
         (node : DomElement) (translated : jsstring),
    ParserLaws parse ->
    wfDocument doc ->
    el ∈ selectLeafBlocks doc ->
    idOf el = Some node ->
    isPlain (stripBlockTags translated) = true ->
    let doc' := insertBilingual parse doc node translated in
    let inserted :=
      artifact (nextId doc) (artifactTag (nameOf el)) (stripBlockTags translated) in
    nextId doc' = S (nextId doc) /\
    hasClass inserted BILINGUAL_CLASS /\
    replacedAt el
      (if goesInside (nameOf el)
       then [withChildren (childrenOf el ++ [inserted]) el]
       else [el; inserted])
      (docRoot doc) (docRoot doc') /\
    (forall n, n ∈ selectLeafBlocks doc' -> idOf n <> Some (nextId doc)).
Proof.
  intros parse doc el node translated Hlaws [Hnd Hlt] Hsel Hid Hplain doc' inserted.
  destruct (selectLeafBlocks_sound doc el Hsel) as (Hin & Hblock & _ & _).
  apply list_elem_of_In in Hin.
  pose proof (findElement_unique _ _ _ Hnd Hin Hid) as Hfind.
  assert (Hget : getElement doc node = Some el).
  { unfold getElement. rewrite findElement_app, Hfind. reflexivity. }
  pose proof (makeDom_bilingual parse doc _ _ Hlaws (artifactTag_cases (nameOf el)) Hplain)
    as Hdom. fold inserted in Hdom.
  pose proof (insertBilingual_block parse doc node el translated Hget Hblock) as Hdoc.
  fold doc' in Hdoc.
  assert (Hroot : exists f,
            docRoot doc' = rewriteForest node f (docRoot doc) /\
            f el = (if goesInside (nameOf el)
                    then [withChildren (childrenOf el ++ [inserted]) el]
                    else [el; inserted]) /\
            (forall x n, In n (elements (f x)) ->
               (exists m, In m (subElements x) /\ idOf m = idOf n) \/
               In n (elements [inserted])) /\
            nextId doc' = S (nextId doc)).
  { rewrite Hdoc. destruct (goesInside (nameOf el)).
    - unfold append. rewrite Hdom. eexists. split; [reflexivity|].
      split; [reflexivity|]. split; [|reflexivity]. intros x n. apply append_origin.
    - unfold after. rewrite Hdom. eexists. split; [reflexivity|].
      split; [reflexivity|]. split; [|reflexivity]. intros x n. apply after_origin. }
  destruct Hroot as (f & Hroot & Hf & Horigin & Hnext).
  split; [exact Hnext|]. split; [apply artifact_hasClass|]. split.
  - rewrite Hroot, <- Hf. apply replacedAt_rewriteForest; [exact Hnd|exact Hfind].
  - intros n Hn Hnew.
    destruct (selectLeafBlocks_sound doc' n Hn) as (Hin' & Hblock' & _ & Hclass).
    apply list_elem_of_In in Hin'. rewrite Hroot in Hin'.
    destruct (rewriteForest_origin node f [inserted] Horigin _ _ Hin') as [(m & Hm & E)|Hnew'].
    + rewrite Forall_forall in Hlt.
      specialize (Hlt m (proj2 (list_elem_of_In _ _) Hm) (nextId doc)).
      rewrite E, Hnew in Hlt. specialize (Hlt eq_refl). lia.
    + unfold inserted in Hnew'. rewrite elements_artifact in Hnew'.
      destruct Hnew' as [<-|[]].
      apply Hclass. apply artifact_hasClass.
Qed.

Lemma bilingual_adds_one_marked_node_witness :
  let el := Element 4%nat (js "li") [] [Text (js "item")] in
  let doc' := insertBilingual XmlParser.parseXml sampleChapter 4 (js "<p>chose</p>") in
  let inserted := artifact 5 (js "div") (js "chose") in
  nextId doc' = 6%nat /\
  hasClass inserted BILINGUAL_CLASS /\
  replacedAt el [withChildren (childrenOf el ++ [inserted]) el]
    (docRoot sampleChapter) (docRoot doc') /\
  (forall n, n ∈ selectLeafBlocks doc' -> idOf n <> Some 5%nat).
Proof.
  apply (bilingual_adds_one_marked_node XmlParser.parseXml sampleChapter
           (Element 4%nat (js "li") [] [Text (js "item")]) 4 (js "<p>chose</p>")).
  - exact parseXml_laws.
  - apply load_wf.
  - vm_compute. right. right. left.
  - reflexivity.
  - vm_compute. reflexivity.
Defined.

(** ** The slicing loop *)

Lemma slice_forward {A} (l : list A) (n : nat) (size : Z) :
  0 < size -> (n < length l)%nat ->
  slice l (Z.of_nat n) (Z.of_nat n + size) = take (Z.to_nat size) (drop n l).
Proof.
  intros Hs Hn. unfold slice.
  replace (Z.of_nat n <? 0) with false by (symmetry; apply Z.ltb_ge; lia).
  replace (Z.of_nat n + size <? 0) with false by (symmetry; apply Z.ltb_ge; lia).
  replace (Z.to_nat (Z.min (Z.of_nat n) (Z.of_nat (length l)))) with n by lia.
  destruct (Z.le_gt_cases (Z.of_nat n + size) (Z.of_nat (length l))) as [Hle|Hgt].
  - f_equal. lia.
  - rewrite !take_ge; [reflexivity|rewrite length_drop; lia|rewrite length_drop; lia].
Qed.

Lemma sliceLoop_more {A} (fuel : nat) size i (ps : list A) chunks :
  sliceLoop fuel size i ps = Some chunks -> sliceLoop (S fuel) size i ps = Some chunks.
Proof.
  revert i chunks. induction fuel as [|fuel IH]; intros i chunks H; [discriminate H|].
  cbn [sliceLoop] in H. change (sliceLoop (S (S fuel)) size i ps)
    with (if i <? Z.of_nat (length ps)
          then cons (slice ps i (i + size)) <$> sliceLoop (S fuel) size (i + size) ps
          else Some []).
  destruct (i <? Z.of_nat (length ps)); [|exact H].
  destruct (sliceLoop fuel size (i + size) ps) as [rest|] eqn:E; [|discriminate H].
  rewrite (IH _ _ E). exact H.
Qed.

Lemma sliceLoop_enough {A} (fuel fuel' : nat) size i (ps : list A) chunks :
  (fuel <= fuel')%nat ->
  sliceLoop fuel size i ps = Some chunks -> sliceLoop fuel' size i ps = Some chunks.
Proof.
  induction 1 as [|fuel' _ IH]; [exact id|]. intros H. apply sliceLoop_more, IH, H.
Qed.

Lemma evenSlices_nil {A} size : @evenSlices A size [].
Proof. intros k chunk H. discriminate H. Qed.

Lemma evenSlices_cons {A} size (c : list A) chunks :
  c <> [] -> Z.of_nat (length c) <= size ->
  (chunks <> [] -> Z.of_nat (length c) = size) ->
  evenSlices size chunks -> evenSlices size (c :: chunks).
Proof.
  intros Hne Hle Hfull Hrest [|k] chunk H.
  - injection H as <-. split; [exact Hne|]. split; [exact Hle|].
    intros Hk. apply Hfull. destruct chunks; [cbn in Hk; lia|discriminate].
  - cbn in H. destruct (Hrest k chunk H) as (H1 & H2 & H3).
    split; [exact H1|]. split; [exact H2|]. intros Hk. apply H3. cbn [length] in Hk. lia.
Qed.

Lemma sliceLoop_positive {A} size (ps : list A) :
  0 < size ->
  forall (fuel n : nat),
    (length ps - n < fuel)%nat ->
    exists chunks,
      sliceLoop fuel size (Z.of_nat n) ps = Some chunks /\
      concat chunks = drop n ps /\
      evenSlices size chunks /\
      (chunks = [] <-> (length ps <= n)%nat).
Proof.
  intros Hs. induction fuel as [|fuel IH]; intros n Hf; [lia|].
  cbn [sliceLoop]. destruct (Z.ltb_spec (Z.of_nat n) (Z.of_nat (length ps))) as [Hlt|Hge].
  - assert (Hn : (n < length ps)%nat) by lia.
    replace (Z.of_nat n + size) with (Z.of_nat (n + Z.to_nat size)) by lia.
    destruct (IH (n + Z.to_nat size)%nat ltac:(lia)) as (rest & Hrest & Hcat & Hev & Hnil).
    rewrite Hrest. cbn [fmap option_fmap option_map].
    replace (Z.of_nat (n + Z.to_nat size)) with (Z.of_nat n + size) by lia.
    rewrite (slice_forward ps n size Hs Hn).
    eexists. split; [reflexivity|]. split; [|split].
    + cbn [concat]. rewrite Hcat, <- drop_drop. apply take_drop.
    + apply evenSlices_cons.
      * intros E. apply (f_equal length) in E. rewrite length_take, length_drop in E.
        cbn [length] in E. lia.
      * rewrite length_take, length_drop. lia.
      * intros Hne. rewrite length_take, length_drop.
        assert (~ (length ps <= n + Z.to_nat size)%nat) by (intros Hle; apply Hne, Hnil, Hle).
        lia.
      * exact Hev.
    + split; [discriminate|lia].
  - exists []. split; [reflexivity|]. split; [|split].
    + rewrite drop_ge by lia. reflexivity.
    + apply evenSlices_nil.
    + split; [lia|reflexivity].
Qed.

(** X29. With a whole [chunkSize] above zero the slicing loop of the
    earlier revision ends, and gives the paragraphs in slices of
    [chunkSize], the last one of what is left: the slices put together are
    the paragraphs, none is empty, and more turns than there are
    paragraphs are turns enough. *)
Theorem slices_partition_paragraphs :
  forall (A : Type) (chunkSize : Z) (paragraphs : list A),
    0 < chunkSize ->
    exists chunks,
      (forall fuel, (length paragraphs < fuel)%nat ->
         sliceLoop fuel chunkSize 0 paragraphs = Some chunks) /\
      concat chunks = paragraphs /\
      (forall k chunk, chunks !! k = Some chunk ->
         chunk <> [] /\ Z.of_nat (length chunk) <= chunkSize /\
         ((S k < length chunks)%nat -> Z.of_nat (length chunk) = chunkSize)).
Proof.
  intros A size ps Hs.
  destruct (sliceLoop_positive size ps Hs (S (length ps)) 0 ltac:(lia))
    as (chunks & Hrun & Hcat & Hev & _).
  exists chunks. split; [|split; [exact Hcat|exact Hev]].
  intros fuel Hf. apply (sliceLoop_enough (S (length ps)) fuel); [lia|exact Hrun].
Qed.

Lemma slices_partition_paragraphs_witness :
  exists chunks,
    (forall fuel, (length [1; 2; 3; 4; 5] < fuel)%nat ->
       sliceLoop fuel 2 0 [1; 2; 3; 4; 5] = Some chunks) /\
    concat chunks = [1; 2; 3; 4; 5] /\
    (forall k chunk, chunks !! k = Some chunk ->
       chunk <> [] /\ Z.of_nat (length chunk) <= 2 /\
       ((S k < length chunks)%nat -> Z.of_nat (length chunk) = 2)).
Proof. apply (slices_partition_paragraphs Z 2 [1; 2; 3; 4; 5]). lia. Defined.

(** X30. With a whole [chunkSize] of zero or below the slicing loop of the
    earlier revision does not end on a document that has a paragraph: the
    index never reaches the number of paragraphs, whatever the number of
    turns. *)
Theorem nonpositive_slices_never_end :
  forall (A : Type) (chunkSize : Z) (paragraphs : list A) (fuel : nat),
    chunkSize <= 0 -> paragraphs <> [] ->
    sliceLoop fuel chunkSize 0 paragraphs = None.
Proof.
  intros A size ps fuel Hs Hne.
  assert (H : forall i, i <= 0 -> sliceLoop fuel size i ps = None).
  { induction fuel as [|fuel IH]; intros i Hi; [reflexivity|]. cbn [sliceLoop].
    replace (i <? Z.of_nat (length ps)) with true.
    - rewrite IH by lia. reflexivity.
    - symmetry. apply Z.ltb_lt. destruct ps; [congruence|cbn [length]; lia]. }
  apply H. lia.
Qed.

Lemma nonpositive_slices_never_end_witness :
  sliceLoop 1000 0 0 [1; 2; 3] = None.
Proof. apply (nonpositive_slices_never_end Z 0 [1; 2; 3] 1000); [lia|discriminate]. Defined.
